(** * Camera shot sequencer (CameraShotsManager.ts)

    A shallow embedding of the classes [ShotsManager] and [AnimatedCamera]
    of [module/src/utils/CameraShotsManager.ts], and the properties of the
    sequencer that follow from that code.

    Layout of the development:
    - [Number]: the interface of JavaScript numbers the code relies on, with
      two instances: [FloatNumber] (IEEE 754 binary64, the numbers the
      program really computes with) and [IdealNumber] (exact rationals, the
      arithmetic the comments of the source reason in; here only the round
      trip of [setDuration] is stated on it);
    - the [AnimatedCamera] objects live in the list [shots] and are referred
      to by position, so that the sequence, which holds references to the
      shots, aliases them as the source does; every camera is an object of
      its own, held by value where the source holds the reference;
    - the part of three.js the code calls ([AnimationAction.reset], [play],
      [stop], [AnimationMixer.update]) for an action set up with
      [LoopOnce] and [clampWhenFinished], as the constructor of
      [AnimatedCamera] does;
    - user callbacks are opaque: calling one appends an entry to the
      [trace], stamped with the value [playheadTime] had at that moment.
      Callbacks are assumed not to call back into the manager;
    - the order and the sums of binary64 the timeline of [scrub] rests on,
      from the specification of the primitive floats;
    - after the sequencer: the invariants of the manager over any calls,
      what an update does when the current shot reaches the end of its
      clip, and a whole sequence played to its end;
    - the WebSocket client ([syncWithBlender] and its two helpers) as a
      transition system over the events of the browser, and the vite
      plugin of [scripts/module_version.js]. *)

From Stdlib Require Import ZArith QArith Uint63 PrimFloat Sorted Lia Lqa.
From Stdlib Require Import FloatAxioms SpecFloat FloatOps.
From stdpp Require Import base option list strings.

Close Scope Q_scope.
Open Scope Z_scope.

(** ** Numbers *)

(** The operations of a JavaScript number used by the source.
    [geb a b] is [a >= b], [seqb a b] is [a === b]. *)
Class Number := {
  num : Type;
  zero : num;
  of_Z : Z -> num;
  add : num -> num -> num;
  sub : num -> num -> num;
  mul : num -> num -> num;
  div : num -> num -> num;
  ltb : num -> num -> bool;
  geb : num -> num -> bool;
  seqb : num -> num -> bool;
  max : num -> num -> num;
  min : num -> num -> num;
  (** [0 * 0 === 0]: the one closed fact about numbers the control flow of
      a zero-delta mixer update depends on. *)
  mul_zero_zero : seqb (mul zero zero) zero = true
}.

(** [Math.min] and [Math.max] on binary64: NaN if an argument is NaN, and
    -0 is below +0. *)
Definition float_min (a b : float) : float :=
  if (is_nan a || is_nan b)%bool then nan
  else if PrimFloat.ltb a b then a
  else if PrimFloat.ltb b a then b
  else if get_sign a then a else b.

Definition float_max (a b : float) : float :=
  if (is_nan a || is_nan b)%bool then nan
  else if PrimFloat.ltb a b then b
  else if PrimFloat.ltb b a then a
  else if get_sign a then b else a.

(** An integer literal of the source as a binary64 (exact below 2^53). *)
Definition float_of_Z (z : Z) : float :=
  if z <? 0 then PrimFloat.opp (PrimFloat.of_uint63 (Uint63.of_Z (- z)))
  else PrimFloat.of_uint63 (Uint63.of_Z z).

Definition FloatNumber : Number := {|
  num := float;
  zero := PrimFloat.zero;
  of_Z := float_of_Z;
  add := PrimFloat.add;
  sub := PrimFloat.sub;
  mul := PrimFloat.mul;
  div := PrimFloat.div;
  ltb := PrimFloat.ltb;
  geb := fun a b => PrimFloat.leb b a;
  seqb := PrimFloat.eqb;
  max := float_max;
  min := float_min;
  mul_zero_zero := eq_refl
|}.

(** Exact arithmetic. There is no infinity and no NaN here: [Qdiv] by zero
    is zero, so this instance speaks for the program only where no division
    by zero happens. Equality of results is [Qeq]. *)
Definition IdealNumber : Number := {|
  num := Q;
  zero := 0%Q;
  of_Z := inject_Z;
  add := Qplus;
  sub := Qminus;
  mul := Qmult;
  div := Qdiv;
  ltb := fun a b => negb (Qle_bool b a);
  geb := fun a b => Qle_bool b a;
  seqb := Qeq_bool;
  max := fun a b => if Qle_bool a b then b else a;
  min := fun a b => if Qle_bool a b then a else b;
  mul_zero_zero := eq_refl
|}.

(** ** Data model *)

(** The only function ever stored in [AnimatedCamera.onFinishCallback] is
    the closure [() => { this.onShotFinished(); }] of [playCurrentShot]. *)
Inductive FinishCallback := CallOnShotFinished.

(** A user callback ([VoidFunction]) is known by a label only. *)
Definition Callback := nat.

Inductive Result (A : Type) :=
| Ok (a : A)
| TypeError.
Arguments Ok {A} a.
Arguments TypeError {A}.

Section Sequencer.
Context {N : Number}.

Definition Vector3 : Type := num * num * num.
Definition Quaternion : Type := num * num * num * num.

(** The part of a three.js [PerspectiveCamera] the code reads and writes. *)
Record PerspectiveCamera := {
  cam_name : string;
  position : Vector3;
  quaternion : Quaternion;
  fov : num
}.

(** An [AnimationClip]: its name, its duration and, for each camera property
    it has a track for, the value of the track at a clip time. *)
Record AnimationClip := {
  clip_name : string;
  duration : num;
  positionTrack : option (num -> Vector3);
  quaternionTrack : option (num -> Quaternion);
  fovTrack : option (num -> num)
}.

(** [class AnimatedCamera]. The fields [action_*] are those of
    [this.action]; [action_enabled] is left out since with
    [clampWhenFinished] nothing ever clears it. [mixer_active] tells whether
    the action is scheduled in [this.mixer], and [mixer_original] is the
    state of the camera the mixer saved when it activated the action. *)
Record AnimatedCamera := {
  camera : PerspectiveCamera;
  clip : AnimationClip;
  action_timeScale : num;
  action_time : num;
  action_paused : bool;
  mixer_active : bool;
  mixer_original : option PerspectiveCamera;
  onFinishCallback : option FinishCallback
}.

(** An entry of [frameScripts]; [called] is an optional property. *)
Record FrameScript := {
  script_time : num;
  callback : Callback;
  called : option bool
}.

Inductive ConsoleMessage :=
| NoSequenceConfigured
| ShotNotFound (shotName : string)
| TimeScaleSet (shotName : string) (timeScale originalDuration newDuration : num).

(** What the code does to the world outside its own fields: console
    output, [updateProjectionMatrix()] on a camera that got a pose (given
    as the camera is then), [mixer.update(deltaTime)] on the mixer of a
    shot, a call of a shot's [onFinishCallback], and calls of user
    callbacks: of the frame script at position [k], with the value its
    [called] property has when the callback is entered, and of
    [onShotsCompleted]. *)
Inductive Effect :=
| Console (m : ConsoleMessage)
| ProjectionUpdated (c : PerspectiveCamera)
| MixerUpdate (shot : nat) (deltaTime : num)
| ShotFinish (shot : nat)
| ScriptCall (k : nat) (cb : Callback) (flag : option bool)
| CompletedCall (cb : Callback).

(** [class ShotsManager], with the record of effects ([trace]). [shots]
    holds the [AnimatedCamera] objects; [sequence] holds references to
    them. *)
Record ShotsManager := {
  shots : list AnimatedCamera;
  sequence : option (list nat);
  currentShotIndex : Z;
  isPlaying : bool;
  targetCamera : option PerspectiveCamera;
  frameScripts : list FrameScript;
  playheadTime : num;
  onShotsCompleted : option Callback;
  loop : bool;
  trace : list (num * Effect)
}.

(** *** Field updates *)

Definition set_camera (v : PerspectiveCamera) (a : AnimatedCamera) :=
  {| camera := v; clip := clip a; action_timeScale := action_timeScale a;
     action_time := action_time a; action_paused := action_paused a;
     mixer_active := mixer_active a; mixer_original := mixer_original a;
     onFinishCallback := onFinishCallback a |}.

Definition set_action_timeScale (v : num) (a : AnimatedCamera) :=
  {| camera := camera a; clip := clip a; action_timeScale := v;
     action_time := action_time a; action_paused := action_paused a;
     mixer_active := mixer_active a; mixer_original := mixer_original a;
     onFinishCallback := onFinishCallback a |}.

Definition set_action_time (v : num) (a : AnimatedCamera) :=
  {| camera := camera a; clip := clip a; action_timeScale := action_timeScale a;
     action_time := v; action_paused := action_paused a;
     mixer_active := mixer_active a; mixer_original := mixer_original a;
     onFinishCallback := onFinishCallback a |}.

Definition set_action_paused (v : bool) (a : AnimatedCamera) :=
  {| camera := camera a; clip := clip a; action_timeScale := action_timeScale a;
     action_time := action_time a; action_paused := v;
     mixer_active := mixer_active a; mixer_original := mixer_original a;
     onFinishCallback := onFinishCallback a |}.

Definition set_mixer (active : bool) (orig : option PerspectiveCamera)
    (a : AnimatedCamera) :=
  {| camera := camera a; clip := clip a; action_timeScale := action_timeScale a;
     action_time := action_time a; action_paused := action_paused a;
     mixer_active := active; mixer_original := orig;
     onFinishCallback := onFinishCallback a |}.

Definition set_onFinishCallback (v : option FinishCallback) (a : AnimatedCamera) :=
  {| camera := camera a; clip := clip a; action_timeScale := action_timeScale a;
     action_time := action_time a; action_paused := action_paused a;
     mixer_active := mixer_active a; mixer_original := mixer_original a;
     onFinishCallback := v |}.

Definition set_called (v : option bool) (f : FrameScript) :=
  {| script_time := script_time f; callback := callback f; called := v |}.

Definition set_shots (v : list AnimatedCamera) (s : ShotsManager) :=
  {| shots := v; sequence := sequence s;
     currentShotIndex := currentShotIndex s; isPlaying := isPlaying s;
     targetCamera := targetCamera s; frameScripts := frameScripts s;
     playheadTime := playheadTime s; onShotsCompleted := onShotsCompleted s;
     loop := loop s; trace := trace s |}.

Definition set_sequence (v : option (list nat)) (s : ShotsManager) :=
  {| shots := shots s; sequence := v;
     currentShotIndex := currentShotIndex s; isPlaying := isPlaying s;
     targetCamera := targetCamera s; frameScripts := frameScripts s;
     playheadTime := playheadTime s; onShotsCompleted := onShotsCompleted s;
     loop := loop s; trace := trace s |}.

Definition set_currentShotIndex (v : Z) (s : ShotsManager) :=
  {| shots := shots s; sequence := sequence s;
     currentShotIndex := v; isPlaying := isPlaying s;
     targetCamera := targetCamera s; frameScripts := frameScripts s;
     playheadTime := playheadTime s; onShotsCompleted := onShotsCompleted s;
     loop := loop s; trace := trace s |}.

Definition set_isPlaying (v : bool) (s : ShotsManager) :=
  {| shots := shots s; sequence := sequence s;
     currentShotIndex := currentShotIndex s; isPlaying := v;
     targetCamera := targetCamera s; frameScripts := frameScripts s;
     playheadTime := playheadTime s; onShotsCompleted := onShotsCompleted s;
     loop := loop s; trace := trace s |}.

Definition set_targetCamera (v : option PerspectiveCamera) (s : ShotsManager) :=
  {| shots := shots s; sequence := sequence s;
     currentShotIndex := currentShotIndex s; isPlaying := isPlaying s;
     targetCamera := v; frameScripts := frameScripts s;
     playheadTime := playheadTime s; onShotsCompleted := onShotsCompleted s;
     loop := loop s; trace := trace s |}.

Definition set_frameScripts (v : list FrameScript) (s : ShotsManager) :=
  {| shots := shots s; sequence := sequence s;
     currentShotIndex := currentShotIndex s; isPlaying := isPlaying s;
     targetCamera := targetCamera s; frameScripts := v;
     playheadTime := playheadTime s; onShotsCompleted := onShotsCompleted s;
     loop := loop s; trace := trace s |}.

Definition set_playheadTime (v : num) (s : ShotsManager) :=
  {| shots := shots s; sequence := sequence s;
     currentShotIndex := currentShotIndex s; isPlaying := isPlaying s;
     targetCamera := targetCamera s; frameScripts := frameScripts s;
     playheadTime := v; onShotsCompleted := onShotsCompleted s;
     loop := loop s; trace := trace s |}.

Definition set_onShotsCompleted (v : option Callback) (s : ShotsManager) :=
  {| shots := shots s; sequence := sequence s;
     currentShotIndex := currentShotIndex s; isPlaying := isPlaying s;
     targetCamera := targetCamera s; frameScripts := frameScripts s;
     playheadTime := playheadTime s; onShotsCompleted := v;
     loop := loop s; trace := trace s |}.

Definition set_loop (v : bool) (s : ShotsManager) :=
  {| shots := shots s; sequence := sequence s;
     currentShotIndex := currentShotIndex s; isPlaying := isPlaying s;
     targetCamera := targetCamera s; frameScripts := frameScripts s;
     playheadTime := playheadTime s; onShotsCompleted := onShotsCompleted s;
     loop := v; trace := trace s |}.

Definition set_trace (v : list (num * Effect)) (s : ShotsManager) :=
  {| shots := shots s; sequence := sequence s;
     currentShotIndex := currentShotIndex s; isPlaying := isPlaying s;
     targetCamera := targetCamera s; frameScripts := frameScripts s;
     playheadTime := playheadTime s; onShotsCompleted := onShotsCompleted s;
     loop := loop s; trace := v |}.

(** A method of the [AnimatedCamera] object [self] refers to changes it. *)
Definition on_shot (self : nat) (f : AnimatedCamera -> AnimatedCamera)
    (s : ShotsManager) : ShotsManager :=
  set_shots (alter f self (shots s)) s.

(** An effect happens now: it is stamped with the current [playheadTime]. *)
Definition emit (e : Effect) (s : ShotsManager) : ShotsManager :=
  set_trace (trace s ++ [(playheadTime s, e)]) s.

Definition emit_all (es : list Effect) (s : ShotsManager) : ShotsManager :=
  set_trace (trace s ++ map (fun e => (playheadTime s, e)) es) s.

(** ** The part of three.js the code calls *)

(** The property bindings of a clip write the value of each track on the
    camera; a property without a track keeps the value it has. *)
Definition apply_tracks (c : AnimationClip) (t : num) (p : PerspectiveCamera)
    : PerspectiveCamera :=
  {| cam_name := cam_name p;
     position := match positionTrack c with Some f => f t | None => position p end;
     quaternion := match quaternionTrack c with Some f => f t | None => quaternion p end;
     fov := match fovTrack c with Some f => f t | None => fov p end |}.

(** [PropertyMixer.restoreOriginalState]: the animated properties get back
    the values saved at activation. *)
Definition restore_tracks (c : AnimationClip) (orig p : PerspectiveCamera)
    : PerspectiveCamera :=
  {| cam_name := cam_name p;
     position := match positionTrack c with Some _ => position orig | None => position p end;
     quaternion := match quaternionTrack c with Some _ => quaternion orig | None => quaternion p end;
     fov := match fovTrack c with Some _ => fov orig | None => fov p end |}.

(** [AnimationAction.reset()]: [paused = false; time = 0] (and
    [enabled = true], which is never cleared). The time scale is kept. *)
Definition action_reset (a : AnimatedCamera) : AnimatedCamera :=
  set_action_time zero (set_action_paused false a).

(** [AnimationAction.play()]: the mixer activates the action unless it is
    active already; on activation the bindings save the camera's state. *)
Definition action_play (a : AnimatedCamera) : AnimatedCamera :=
  if mixer_active a then a else set_mixer true (Some (camera a)) a.

(** [AnimationAction.stop()]: the mixer deactivates the action, restoring
    the saved state of the camera if it was active, then [reset()]. *)
Definition action_stop (a : AnimatedCamera) : AnimatedCamera :=
  let a1 :=
    if mixer_active a then
      match mixer_original a with
      | Some o => set_camera (restore_tracks (clip a) o (camera a)) a
      | None => a
      end
    else a in
  action_reset (set_mixer false (mixer_original a1) a1).

(** The interpolants of the action are evaluated at [clipTime] and the
    result is written on the camera. *)
Definition evaluate (clipTime : num) (a : AnimatedCamera) : AnimatedCamera :=
  set_camera (apply_tracks (clip a) clipTime (camera a)) a.

(** ** AnimatedCamera *)

(** [new AnimatedCamera(camera, clip)]; a new action has time scale 1. *)
Definition AnimatedCamera_new (cam : PerspectiveCamera) (c : AnimationClip)
    : AnimatedCamera :=
  {| camera := cam; clip := c; action_timeScale := of_Z 1; action_time := zero;
     action_paused := false; mixer_active := false; mixer_original := None;
     onFinishCallback := None |}.

(** [setDuration(newDuration)], and the message it logs. *)
Definition setDuration (newDuration : num) (a : AnimatedCamera) : AnimatedCamera :=
  let originalDuration := duration (clip a) in
  set_action_timeScale (div originalDuration newDuration) a.

Definition setDuration_log (newDuration : num) (a : AnimatedCamera) : ConsoleMessage :=
  TimeScaleSet (clip_name (clip a)) (action_timeScale (setDuration newDuration a))
               (duration (clip a)) newDuration.

(** [getEffectiveDuration()] *)
Definition getEffectiveDuration (a : AnimatedCamera) : num :=
  div (duration (clip a)) (action_timeScale a).

(** [play(onFinish)] *)
Definition AnimatedCamera_play (onFinish : FinishCallback) (a : AnimatedCamera)
    : AnimatedCamera :=
  action_play (action_reset (set_onFinishCallback (Some onFinish) a)).

(** [stop()] *)
Definition AnimatedCamera_stop (a : AnimatedCamera) : AnimatedCamera :=
  action_stop a.

(** ** ShotsManager: the shot-advance logic *)

(** [array[index]] for an integer index: [undefined] out of range. *)
Definition at_index {A} (l : list A) (i : Z) : option A :=
  if i <? 0 then None else l !! Z.to_nat i.

(** [playCurrentShot()]. With a negative index the source would fault on
    [undefined.play]; [play] and [onShotFinished] never call it so. *)
Definition playCurrentShot (s : ShotsManager) : ShotsManager :=
  match sequence s with
  | None => s
  | Some seq =>
      if Z.of_nat (length seq) <=? currentShotIndex s then s
      else
        match at_index seq (currentShotIndex s) with
        | Some currentShot => on_shot currentShot (AnimatedCamera_play CallOnShotFinished) s
        | None => s
        end
  end.

(** [onShotFinished()] *)
Definition onShotFinished (s : ShotsManager) : ShotsManager :=
  let s1 := set_currentShotIndex (currentShotIndex s + 1) s in
  match sequence s1 with
  | None => s1
  | Some seq =>
      if Z.of_nat (length seq) <=? currentShotIndex s1 then
        if loop s1 then playCurrentShot (set_currentShotIndex 0 s1)
        else
          let s2 := set_isPlaying false s1 in
          match onShotsCompleted s2 with
          | Some cb => emit (CompletedCall cb) s2
          | None => s2
          end
      else playCurrentShot s1
  end.

(** The listener the constructor of [AnimatedCamera] registers for the
    "finished" event of the mixer of shot [self]. *)
Definition finishedListener (self : nat) (s : ShotsManager) : ShotsManager :=
  match shots s !! self with
  | Some a =>
      match onFinishCallback a with
      | Some CallOnShotFinished => onShotFinished (emit (ShotFinish self) s)
      | None => s
      end
  | None => s
  end.

(** The action reaches an end of the clip: with [clampWhenFinished] it is
    paused there, then "finished" is dispatched, then the pose of the end
    is written. *)
Definition finish_at (self : nat) (endTime : num) (s : ShotsManager) : ShotsManager :=
  let s1 := on_shot self (fun a => set_action_time endTime (set_action_paused true a)) s in
  on_shot self (evaluate endTime) (finishedListener self s1).

(** [this.mixer.update(deltaTime)] for the mixer of shot [self], whose one
    action loops once: [AnimationAction._update] and [_updateTime]. A
    paused action has effective time scale 0. *)
Definition mixer_update (self : nat) (deltaTime : num) (s : ShotsManager) : ShotsManager :=
  let s := emit (MixerUpdate self deltaTime) s in
  match shots s !! self with
  | None => s
  | Some a =>
      if negb (mixer_active a) then s
      else
        let deltaTime := mul deltaTime (if action_paused a then zero else action_timeScale a) in
        let time := add (action_time a) deltaTime in
        if seqb deltaTime zero then on_shot self (evaluate time) s
        else if geb time (duration (clip a)) then finish_at self (duration (clip a)) s
        else if ltb time zero then finish_at self zero s
        else on_shot self (evaluate time) (on_shot self (set_action_time time) s)
  end.

(** [AnimatedCamera.update(delta)] *)
Definition AnimatedCamera_update (self : nat) (delta : num) (s : ShotsManager)
    : ShotsManager :=
  mixer_update self delta s.

(** The time [scrubTo(time)] gives the action. *)
Definition scrub_action_time (time : num) (a : AnimatedCamera) : num :=
  let actualAnimationTime := mul time (action_timeScale a) in
  max zero (min actualAnimationTime (duration (clip a))).

(** [AnimatedCamera.scrubTo(time)] *)
Definition AnimatedCamera_scrubTo (self : nat) (time : num) (s : ShotsManager)
    : ShotsManager :=
  let s := on_shot self action_reset s in
  let s := on_shot self action_play s in
  let s := on_shot self (set_action_paused true) s in
  let s := on_shot self (fun a => set_action_time (scrub_action_time time a) a) s in
  mixer_update self zero s.

(** ** ShotsManager: the public operations *)

(** [clips.find((c) => c.name == name)] *)
Definition find_clip (name : string) (clips : list AnimationClip) : option AnimationClip :=
  snd <$> list_find (fun c => clip_name c = name) clips.

(** The loop of the constructor. A camera without a clip of its name makes
    [mixer.clipAction(undefined)] fault: no manager is built. *)
Fixpoint build_shots (clips : list AnimationClip) (cams : list PerspectiveCamera)
    : option (list AnimatedCamera) :=
  match cams with
  | [] => Some []
  | cam :: rest =>
      match find_clip (cam_name cam) clips with
      | Some cl =>
          match build_shots clips rest with
          | Some l => Some (AnimatedCamera_new cam cl :: l)
          | None => None
          end
      | None => None
      end
  end.

(** [new ShotsManager(cameras, clips)] *)
Definition ShotsManager_new (cams : list PerspectiveCamera) (clips : list AnimationClip)
    : option ShotsManager :=
  match build_shots clips cams with
  | Some l =>
      Some {| shots := l; sequence := None;
              currentShotIndex := -1; isPlaying := false; targetCamera := None;
              frameScripts := []; playheadTime := zero; onShotsCompleted := None;
              loop := false; trace := [] |}
  | None => None
  end.

(** [this.shots.find(s => s.clip.name === shotName)], as a reference. *)
Definition find_shot (shotName : string) (l : list AnimatedCamera) : option nat :=
  fst <$> list_find (fun a => clip_name (clip a) = shotName) l.

(** The loop of [config]. *)
Fixpoint config_loop (l : list AnimatedCamera) (shotsNames : list string) : list nat :=
  match shotsNames with
  | [] => []
  | n :: rest =>
      match find_shot n l with
      | Some shot => shot :: config_loop l rest
      | None => config_loop l rest
      end
  end.

(** [config(shotsNames)] *)
Definition config (shotsNames : list string) (s : ShotsManager) : ShotsManager :=
  set_sequence (Some (config_loop (shots s) shotsNames)) s.

(** [addFrameScript(frame, callback, baseFPS = 24)] *)
Definition addFrameScript (frame : num) (cb : Callback) (baseFPS : option num)
    (s : ShotsManager) : ShotsManager :=
  let baseFPS := default (of_Z 24) baseFPS in
  set_frameScripts
    (frameScripts s ++ [{| script_time := div frame baseFPS; callback := cb; called := None |}])
    s.

(** [setShotDuration(shotName, newDuration)] *)
Definition setShotDuration (shotName : string) (newDuration : num) (s : ShotsManager)
    : ShotsManager * bool :=
  match find_shot shotName (shots s) ≫= (fun shot => (shot,.) <$> shots s !! shot) with
  | None => (emit (Console (ShotNotFound shotName)) s, false)
  | Some (shot, a) =>
      (emit (Console (setDuration_log newDuration a))
            (on_shot shot (setDuration newDuration) s), true)
  end.

(** [play(onCompleted?)] *)
Definition play (onCompleted : option Callback) (s : ShotsManager) : ShotsManager :=
  match sequence s with
  | None | Some [] => emit (Console NoSequenceConfigured) s
  | Some (_ :: _) =>
      let s := set_playheadTime zero s in
      let s := set_onShotsCompleted onCompleted s in
      let s := set_frameScripts (map (set_called (Some false)) (frameScripts s)) s in
      let s := set_isPlaying true s in
      let s := set_currentShotIndex 0 s in
      playCurrentShot s
  end.

(** [syncCamera(camera, target)]: the camera after the three copies. *)
Definition syncCamera (cam target : PerspectiveCamera) : PerspectiveCamera :=
  {| cam_name := cam_name cam; position := position target;
     quaternion := quaternion target; fov := fov target |}.

(** [shot.getEffectiveDuration()] through a reference. *)
Definition effectiveDurationOf (l : list AnimatedCamera) (shot : nat) : num :=
  match l !! shot with
  | Some a => getEffectiveDuration a
  | None => zero
  end.

(** The search loop of [scrub]: the first shot with
    [time >= shotStart && time < shotEnd], with its position in the
    sequence ([k] counts the iterations done) and [time - shotStart]. *)
Fixpoint find_target (dur : nat -> num) (seq : list nat) (k : nat)
    (accumulatedTime time : num) : option (nat * nat * num) :=
  match seq with
  | [] => None
  | shot :: rest =>
      let clipDuration := dur shot in
      let shotStart := accumulatedTime in
      let shotEnd := add accumulatedTime clipDuration in
      if geb time shotStart && ltb time shotEnd
      then Some (k, shot, sub time shotStart)
      else find_target dur rest (S k) (add accumulatedTime clipDuration) time
  end.

(** The shot [scrub] applies the time to, with its position in the
    sequence and the time applied: the result of the search, or else the
    last shot at its effective duration. *)
Definition scrub_target (dur : nat -> num) (seq : list nat) (time : num)
    : option (nat * nat * num) :=
  match find_target dur seq 0 zero time with
  | Some r => Some r
  | None =>
      match last seq with
      | Some lastShot => Some (Nat.pred (length seq), lastShot, dur lastShot)
      | None => None
      end
  end.

(** [scrub(time, camera)]: the manager and the camera afterwards. *)
Definition scrub (time : num) (cam : PerspectiveCamera) (s : ShotsManager)
    : ShotsManager * PerspectiveCamera :=
  match sequence s with
  | None | Some [] => (s, cam)
  | Some ((_ :: _) as seq) =>
      let s := set_isPlaying false s in
      let s := foldl (fun s shot => on_shot shot AnimatedCamera_stop s) s seq in
      match scrub_target (effectiveDurationOf (shots s)) seq time with
      | Some (_, targetShot, scrubTime) =>
          let s := AnimatedCamera_scrubTo targetShot scrubTime s in
          match shots s !! targetShot with
          | Some a =>
              let cam := syncCamera cam (camera a) in
              (emit (ProjectionUpdated cam) s, cam)
          | None => (s, cam)
          end
      | None => (s, cam)
      end
  end.

Definition is_called (f : FrameScript) : bool :=
  match called f with
  | Some true => true
  | _ => false
  end.

(** The loop of [update] over [frameScripts]; [k] is the position of the
    head of [scripts] in the array. The scripts after the loop and the
    calls made, in order. *)
Fixpoint check_scripts (k : nat) (now : num) (scripts : list FrameScript)
    : list FrameScript * list Effect :=
  match scripts with
  | [] => ([], [])
  | f :: rest =>
      let r := check_scripts (S k) now rest in
      if ltb (script_time f) now && negb (is_called f)
      then
        let f' := set_called (Some true) f in
        (f' :: fst r, ScriptCall k (callback f') (called f') :: snd r)
      else (f :: fst r, snd r)
  end.

(** [update(delta)]. Reading [.camera] of [this.sequence[index]] faults
    when the index is past the end of the sequence. *)
Definition update (delta : num) (s : ShotsManager) : Result ShotsManager :=
  if negb (isPlaying s) then Ok s
  else
    match sequence s with
    | None => Ok s
    | Some seq =>
        if currentShotIndex s <? 0 then Ok s
        else
          let synced :=
            match targetCamera s with
            | Some tc =>
                match at_index seq (currentShotIndex s) ≫= (fun shot => shots s !! shot) with
                | Some a =>
                    let tc := syncCamera tc (camera a) in
                    Ok (emit (ProjectionUpdated tc) (set_targetCamera (Some tc) s))
                | None => TypeError
                end
            | None => Ok s
            end in
          match synced with
          | TypeError => TypeError
          | Ok s =>
              let s := set_playheadTime (add (playheadTime s) delta) s in
              let s :=
                if currentShotIndex s <? Z.of_nat (length seq) then
                  match at_index seq (currentShotIndex s) with
                  | Some shot => AnimatedCamera_update shot delta s
                  | None => s
                  end
                else s in
              let r := check_scripts 0 (playheadTime s) (frameScripts s) in
              Ok (emit_all (snd r) (set_frameScripts (fst r) s))
          end
    end.

End Sequencer.

(** ** Callers *)

Section Callers.
Context {N : Number}.

(** What a caller can do with a manager: the public methods and the two
    assignable fields. *)
Inductive Call :=
| CallConfig (shotsNames : list string)
| CallAddFrameScript (frame : num) (cb : Callback) (baseFPS : option num)
| CallSetShotDuration (shotName : string) (newDuration : num)
| CallPlay (onCompleted : option Callback)
| CallScrub (time : num) (cam : PerspectiveCamera)
| CallUpdate (delta : num)
| AssignLoop (v : bool)
| AssignTargetCamera (v : option PerspectiveCamera).

(** The manager after a call. An [update] that faults has changed nothing
    when it faults. *)
Definition perform (c : Call) (s : ShotsManager) : ShotsManager :=
  match c with
  | CallConfig shotsNames => config shotsNames s
  | CallAddFrameScript frame cb baseFPS => addFrameScript frame cb baseFPS s
  | CallSetShotDuration shotName newDuration => fst (setShotDuration shotName newDuration s)
  | CallPlay onCompleted => play onCompleted s
  | CallScrub time cam => fst (scrub time cam s)
  | CallUpdate delta => match update delta s with Ok s' => s' | TypeError => s end
  | AssignLoop v => set_loop v s
  | AssignTargetCamera v => set_targetCamera v s
  end.

Definition perform_all (cs : list Call) (s : ShotsManager) : ShotsManager :=
  foldl (fun s c => perform c s) s cs.

Definition is_play (c : Call) : bool :=
  match c with CallPlay _ => true | _ => false end.

Definition is_play_or_scrub (c : Call) : bool :=
  match c with CallPlay _ | CallScrub _ _ => true | _ => false end.

(** Everything but the trace is the same in both managers. *)
Definition same_but_trace (s s' : ShotsManager) : Prop :=
  shots s' = shots s /\ sequence s' = sequence s /\
  currentShotIndex s' = currentShotIndex s /\ isPlaying s' = isPlaying s /\
  targetCamera s' = targetCamera s /\ frameScripts s' = frameScripts s /\
  playheadTime s' = playheadTime s /\ onShotsCompleted s' = onShotsCompleted s /\
  loop s' = loop s.

(** No sequence was configured, or the configured one is empty. *)
Definition unconfigured (s : ShotsManager) : Prop :=
  sequence s = None \/ sequence s = Some [].

End Callers.

(** ** The vocabulary of the properties *)

Section Vocabulary.
Context {N : Number}.

(** The effects of a shot finishing. *)
Definition is_shot_event (e : Effect) : bool :=
  match e with
  | ShotFinish _ | CompletedCall _ => true
  | _ => false
  end.

(** From [s] to [s'] only shots, index and playing flag may differ, and the
    trace has grown by [evs], stamped with the playhead of [s]. *)
Definition advanced_by (evs : list Effect) (s s' : ShotsManager) : Prop :=
  sequence s' = sequence s /\ frameScripts s' = frameScripts s /\
  playheadTime s' = playheadTime s /\ targetCamera s' = targetCamera s /\
  onShotsCompleted s' = onShotsCompleted s /\ loop s' = loop s /\
  trace s' = trace s ++ map (pair (playheadTime s)) evs.

(** A script is due at [now]: its time is strictly before [now] and it has
    not been called. *)
Definition due (now : num) (f : FrameScript) : bool :=
  ltb (script_time f) now && negb (is_called f).

Definition mark (now : num) (f : FrameScript) : FrameScript :=
  if due now f then set_called (Some true) f else f.

(** One call for each due script, in the order of the array; the script
    has its flag set when it is called. *)
Definition fired_calls_from (k : nat) (now : num) (fs : list FrameScript) : list Effect :=
  map (fun kf => ScriptCall (fst kf) (callback (snd kf)) (Some true))
      (List.filter (fun kf => due now (snd kf)) (imap (fun i f => ((k + i)%nat, f)) fs)).

Definition fired_calls (now : num) (fs : list FrameScript) : list Effect :=
  fired_calls_from 0 now fs.

Definition is_script_call (e : Effect) : bool :=
  match e with ScriptCall _ _ _ => true | _ => false end.

Definition is_call_of (k : nat) (e : Effect) : bool :=
  match e with ScriptCall k' _ _ => Nat.eqb k k' | _ => false end.

(** If the entry is a script call, the script had its flag set when its
    callback was entered. *)
Definition flag_set_at_call (p : num * Effect) : bool :=
  match snd p with
  | ScriptCall _ _ (Some true) => true
  | ScriptCall _ _ _ => false
  | _ => true
  end.

(** The positions of the scripts called, in the order of the calls. *)
Definition called_positions (evs : list Effect) : list nat :=
  omap (fun e => match e with ScriptCall k _ _ => Some k | _ => None end) evs.

(** How many times the script at position [k] was called in a trace. *)
Definition fires (k : nat) (tr : list (num * Effect)) : nat :=
  length (List.filter (fun p => is_call_of k (snd p)) tr).

(** The flag of the script at position [k] is set. *)
Definition script_called (k : nat) (s : ShotsManager) : bool :=
  match frameScripts s !! k with
  | Some f => is_called f
  | None => false
  end.

(** Stopping every shot of the sequence, on the list of shots. *)
Definition stop_all (seq : list nat) (l : list AnimatedCamera) : list AnimatedCamera :=
  foldl (fun l shot => alter AnimatedCamera_stop shot l) l seq.

(** The binding [scrubTo(time)] leaves: reset, active, paused, at the
    clamped action time, with the pose of that time on the camera. *)
Definition scrub_binding (time : num) (a : AnimatedCamera) : AnimatedCamera :=
  let t := scrub_action_time time a in
  evaluate (add t (mul zero zero))
           (set_action_time t (set_action_paused true (action_play (action_reset a)))).

(** The shots after [scrub]: every shot of the sequence is stopped, then
    the target is scrubbed. *)
Definition scrubbed_shots (seq : list nat) (target : nat) (scrubTime : num)
    (l : list AnimatedCamera) : list AnimatedCamera :=
  alter (scrub_binding scrubTime) target (stop_all seq l).

(** What is left of the one call a script may get in a session. *)
Definition budget (k : nat) (s : ShotsManager) : nat :=
  if script_called k s then 0%nat else 1%nat.

(** A binding that no update can be advancing: not active in its mixer,
    or paused. *)
Definition halted (a : AnimatedCamera) : Prop :=
  mixer_active a = false \/ action_paused a = true.

(** Where the shot at position [k] starts on the timeline: the effective
    durations of the shots before it, added up from 0 in the order of the
    sequence. *)
Definition shot_start (dur : nat -> num) (seq : list nat) (k : nat) : num :=
  foldl (fun acc shot => add acc (dur shot)) zero (take k seq).

(** [time] is in the interval of the shot at position [k]:
    [start <= time < start + duration]. *)
Definition in_interval (dur : nat -> num) (seq : list nat) (k shot : nat) (time : num)
    : bool :=
  geb time (shot_start dur seq k) && ltb time (add (shot_start dur seq k) (dur shot)).

(** [scrub(time, cam)] selects [shot] at the local time [scrubTime]: the
    binding is stopped and then scrubbed to that time, and [cam] gets the
    position, the quaternion and the field of view its camera then has. *)
Definition selects (s : ShotsManager) (time : num) (cam : PerspectiveCamera)
    (shot : nat) (scrubTime : num) : Prop :=
  exists a,
    shots s !! shot = Some a /\
    shots (fst (scrub time cam s)) !! shot
    = Some (scrub_binding scrubTime (AnimatedCamera_stop a)) /\
    snd (scrub time cam s)
    = {| cam_name := cam_name cam;
         position := position (camera (scrub_binding scrubTime (AnimatedCamera_stop a)));
         quaternion := quaternion (camera (scrub_binding scrubTime (AnimatedCamera_stop a)));
         fov := fov (camera (scrub_binding scrubTime (AnimatedCamera_stop a))) |}.

End Vocabulary.


(** ** A scene to run the code on *)

(** Two animated cameras and one that stands still, on binary64 numbers. *)
Module Demo.
#[local] Existing Instance FloatNumber.
#[local] Set Warnings "-inexact-float".
Open Scope float_scope.

Definition camA : PerspectiveCamera :=
  {| cam_name := "a"; position := (0, 0, 0); quaternion := (0, 0, 0, 1); fov := 50 |}.
Definition camB : PerspectiveCamera :=
  {| cam_name := "b"; position := (1, 1, 1); quaternion := (0, 0, 0, 1); fov := 40 |}.
Definition camStill : PerspectiveCamera :=
  {| cam_name := "still"; position := (5, 5, 5); quaternion := (0, 0, 0, 1); fov := 35 |}.
Definition out : PerspectiveCamera :=
  {| cam_name := "out"; position := (9, 9, 9); quaternion := (0, 0, 0, 1); fov := 30 |}.

(** A 2 s clip moving along x, a 3 s clip moving along y and zooming, and
    a clip of duration 0 (all its keys at time 0). *)
Definition clipA : AnimationClip :=
  {| clip_name := "a"; duration := 2;
     positionTrack := Some (fun t => (t, 0, 0));
     quaternionTrack := None; fovTrack := None |}.
Definition clipB : AnimationClip :=
  {| clip_name := "b"; duration := 3;
     positionTrack := Some (fun t => (0, t, 0));
     quaternionTrack := None; fovTrack := Some (fun t => 40 + t) |}.
Definition clipStill : AnimationClip :=
  {| clip_name := "still"; duration := 0;
     positionTrack := Some (fun _ => (5, 5, 5));
     quaternionTrack := None; fovTrack := None |}.

Definition shotA : AnimatedCamera := AnimatedCamera_new camA clipA.
Definition shotB : AnimatedCamera := AnimatedCamera_new camB clipB.
Definition shotStill : AnimatedCamera := AnimatedCamera_new camStill clipStill.

(** A shot of one second, not given to the manager. *)
Definition clipUnit : AnimationClip :=
  {| clip_name := "unit"; duration := 1;
     positionTrack := Some (fun t => (t, t, t));
     quaternionTrack := None; fovTrack := None |}.
Definition shotUnit : AnimatedCamera := AnimatedCamera_new camA clipUnit.

(** [new ShotsManager([camA, camB, camStill], [clipB, clipStill, clipA])] *)
Definition fresh : ShotsManager :=
  {| shots := [shotA; shotB; shotStill]; sequence := None;
     currentShotIndex := -1; isPlaying := false; targetCamera := None;
     frameScripts := []; playheadTime := 0; onShotsCompleted := None;
     loop := false; trace := [] |}.

(** [config(["a", "nope", "b"])]: the unknown name is dropped. *)
Definition configured : ShotsManager := config ["a"; "nope"; "b"]%string fresh.

(** The output camera is set, a script is put at frame 48 of 24 per
    second, and the sequence is played. *)
Definition playing : ShotsManager :=
  play (Some 7%nat)
       (addFrameScript 48 5%nat (Some 24) (set_targetCamera (Some out) configured)).

(** 2.1, that is the binary64 number nearest to it. *)
Definition tick : float := 2.1.

(** The same after [update(2.1)]: shot "a" has finished, "b" plays. *)
Definition in_last_shot : ShotsManager :=
  perform (CallUpdate tick) playing.

(** A one-shot sequence played in a loop, with a script at half a second. *)
Definition looping : ShotsManager :=
  play None (addFrameScript 12 5%nat None (set_loop true (config ["a"]%string fresh))).

(** The sequence is emptied while it plays, or cut down to ["b"]. *)
Definition emptied : ShotsManager := config [] playing.
Definition narrowed : ShotsManager := config ["b"]%string playing.

(** Shot "b" is given the duration -3, shot "a" the duration -2. *)
Definition b_reversed : ShotsManager :=
  fst (setShotDuration "b" (-3) configured).
Definition a_reversed : ShotsManager :=
  fst (setShotDuration "a" (-2) configured).

(** The effective durations of the shots in these two scenes. *)
Definition dur_b_reversed : nat -> float := effectiveDurationOf (shots b_reversed).
Definition dur_a_reversed : nat -> float := effectiveDurationOf (shots a_reversed).

(** Three shots of 0.1 s, 0.7 s and 1 s. On binary64 the second shot
    ends at 0.1 + 0.7, which is the number before 0.8. *)
Definition tenth : float := 0.1.
Definition seven_tenths : float := 0.7.
Definition eight_tenths : float := 0.8.
Definition clipTenth : AnimationClip :=
  {| clip_name := "tenth"; duration := tenth;
     positionTrack := None; quaternionTrack := None; fovTrack := None |}.
Definition clipSeven : AnimationClip :=
  {| clip_name := "seven"; duration := seven_tenths;
     positionTrack := None; quaternionTrack := None; fovTrack := None |}.
Definition tenths : ShotsManager :=
  config ["tenth"; "seven"; "unit"]%string
    {| shots := [AnimatedCamera_new camA clipTenth; AnimatedCamera_new camB clipSeven;
                 shotUnit];
       sequence := None;
       currentShotIndex := -1; isPlaying := false; targetCamera := None;
       frameScripts := []; playheadTime := 0; onShotsCompleted := None;
       loop := false; trace := [] |}.

(** The shot of one second stretched to 6.7 s: its time scale is 1 / 6.7,
    and 6.7 times that is the number before 1. *)
Definition long : float := 6.7.
Definition stretched : AnimatedCamera := setDuration long shotUnit.

End Demo.

(** The same two clips on exact numbers. *)
Module IdealDemo.
#[local] Existing Instance IdealNumber.
Open Scope Q_scope.

Definition camA : PerspectiveCamera :=
  {| cam_name := "a"; position := (0, 0, 0); quaternion := (0, 0, 0, 1); fov := 50 |}.
Definition camB : PerspectiveCamera :=
  {| cam_name := "b"; position := (1, 1, 1); quaternion := (0, 0, 0, 1); fov := 40 |}.
Definition out : PerspectiveCamera :=
  {| cam_name := "out"; position := (9, 9, 9); quaternion := (0, 0, 0, 1); fov := 30 |}.

Definition clipA : AnimationClip :=
  {| clip_name := "a"; duration := 2;
     positionTrack := Some (fun t => (t, 0, 0));
     quaternionTrack := None; fovTrack := None |}.
Definition clipB : AnimationClip :=
  {| clip_name := "b"; duration := 3;
     positionTrack := Some (fun t => (0, t, 0));
     quaternionTrack := None; fovTrack := Some (fun t => 40 + t) |}.

Definition shotA : AnimatedCamera := AnimatedCamera_new camA clipA.
Definition shotB : AnimatedCamera := AnimatedCamera_new camB clipB.

Definition fresh : ShotsManager :=
  {| shots := [shotA; shotB]; sequence := None;
     currentShotIndex := -1; isPlaying := false; targetCamera := None;
     frameScripts := []; playheadTime := 0; onShotsCompleted := None;
     loop := false; trace := [] |}.

Definition configured : ShotsManager := config ["a"; "b"]%string fresh.

End IdealDemo.

(** ** The vocabulary of the invariants *)

Section InvariantVocabulary.
Context {N : Number}.

(** The name of the camera and the clip of every shot, in the order of
    [shots]. *)
Definition bindings (l : list AnimatedCamera) : list (string * AnimationClip) :=
  map (fun a => (cam_name (camera a), clip a)) l.

(** Every reference of the sequence is to a shot of the manager. *)
Definition valid_sequence (s : ShotsManager) : Prop :=
  forall seq, sequence s = Some seq ->
              Forall (fun shot => (shot < length (shots s))%nat) seq.

(** While the manager plays, the current index is a position of the
    sequence. *)
Definition index_in_range (s : ShotsManager) : Prop :=
  isPlaying s = true ->
  exists seq, sequence s = Some seq /\
              0 <= currentShotIndex s < Z.of_nat (length seq).

Definition is_config (c : Call) : bool :=
  match c with CallConfig _ => true | _ => false end.

(** Along the calls [cs] made from [s] on, [config] is called only while
    the manager is not playing. *)
Fixpoint config_only_when_idle (cs : list Call) (s : ShotsManager) : bool :=
  match cs with
  | [] => true
  | c :: rest =>
      (negb (is_config c) || negb (isPlaying s))
      && config_only_when_idle rest (perform c s)
  end.

(** The steps of one [update] at a valid index: the pose of the current
    shot [a] is copied to the target camera if there is one, the mixer of
    the shot is updated, the frame scripts are checked. *)
Definition mirror (a : AnimatedCamera) (s : ShotsManager) : ShotsManager :=
  match targetCamera s with
  | Some tc =>
      emit (ProjectionUpdated (syncCamera tc (camera a)))
           (set_targetCamera (Some (syncCamera tc (camera a))) s)
  | None => s
  end.

Definition run_scripts (s : ShotsManager) : ShotsManager :=
  let r := check_scripts 0 (playheadTime s) (frameScripts s) in
  emit_all (snd r) (set_frameScripts (fst r) s).

(** The shot-finish and completion entries of a trace, in order. *)
Definition shot_events (tr : list (num * Effect)) : list Effect :=
  List.filter is_shot_event (map snd tr).

(** [s0] is [s] with the playhead moved by [delta], and maybe a pose
    copied to the target camera. *)
Definition clock_moved (delta : num) (s s0 : ShotsManager) : Prop :=
  shots s0 = shots s /\ sequence s0 = sequence s /\
  currentShotIndex s0 = currentShotIndex s /\ isPlaying s0 = isPlaying s /\
  frameScripts s0 = frameScripts s /\ onShotsCompleted s0 = onShotsCompleted s /\
  loop s0 = loop s /\ playheadTime s0 = add (playheadTime s) delta /\
  shot_events (trace s0) = shot_events (trace s).

(** The fields that decide which shot plays next. *)
Definition control (s : ShotsManager)
    : option (list nat) * Z * bool * bool * option Callback :=
  (sequence s, currentShotIndex s, isPlaying s, loop s, onShotsCompleted s).

(** What holds of a manager however it is used: the references of the
    sequence are to shots, the index is never below -1, and while playing
    there is a sequence and the index is not negative. *)
Definition well_formed (s : ShotsManager) : Prop :=
  valid_sequence s /\ -1 <= currentShotIndex s /\
  (isPlaying s = true -> 0 <= currentShotIndex s /\ is_Some (sequence s)).

(** What holds as long as [config] is not called during playback. *)
Definition steady (s : ShotsManager) : Prop :=
  valid_sequence s /\ index_in_range s.

(** What identifies a frame script: its time and its callback. *)
Definition script_ids (fs : list FrameScript) : list (num * Callback) :=
  map (fun f => (script_time f, callback f)) fs.

(** The scripts the calls [cs] register, in the order of the calls. *)
Definition added_scripts (cs : list Call) : list (num * Callback) :=
  omap (fun c => match c with
                 | CallAddFrameScript frame cb baseFPS =>
                     Some (div frame (default (of_Z 24) baseFPS), cb)
                 | _ => None
                 end) cs.

(** A binding as [play] leaves it: scheduled, not paused, at time 0, with
    the finish callback set. *)
Definition started (a : AnimatedCamera) : Prop :=
  mixer_active a = true /\ action_paused a = false /\ action_time a = zero /\
  onFinishCallback a = Some CallOnShotFinished.

(** The binding of a shot at the end of its clip, as the mixer leaves it
    before it dispatches "finished". *)
Definition clamped_at_end (a : AnimatedCamera) : AnimatedCamera :=
  set_action_time (duration (clip a)) (set_action_paused true a).

(** The same clip played at the same speed. *)
Definition same_pace (a a' : AnimatedCamera) : Prop :=
  clip a' = clip a /\ action_timeScale a' = action_timeScale a.

(** The binding the mixer leaves when the action reaches an end of its
    clip: paused, at the time of that end. *)
Definition paused_at (endTime : num) (a : AnimatedCamera) : AnimatedCamera :=
  set_action_time endTime (set_action_paused true a).

(** An update by [delta] carries the binding [shot], played from its
    start, to the end of its clip: the action moves
    ([delta * timeScale] is not 0) and the time it comes to,
    [0 + delta * timeScale], is at or past the duration of the clip; both
    in the arithmetic of the program. *)
Definition carries_to_end (l : list AnimatedCamera) (shot : nat) (delta : num) : Prop :=
  exists a, l !! shot = Some a /\
            seqb (mul delta (action_timeScale a)) zero = false /\
            geb (add zero (mul delta (action_timeScale a))) (duration (clip a)) = true.

End InvariantVocabulary.


(** * The connection to Blender ([syncWithBlender])

    [syncWithBlender] opens a WebSocket and connects again two seconds
    after the socket closes, until the cleanup function is called. The
    code is a set of event handlers over three variables; it is modelled
    as a transition system whose steps are the events the browser can
    deliver. What the model takes from the platform, not from the source:
    a socket delivers events only until its "close" event, and "message"
    events only while it is open; a timer fires at most once, and not
    after [clearTimeout]; [new WebSocket] may throw. A message is handed
    to the callback when [JSON.parse] succeeds on it; the callback is
    taken not to throw. *)

Inductive ReadyState := CONNECTING | OPEN | CLOSING | CLOSED.

Inductive ConsoleLine :=
| LogConnected
| LogDisconnected
| LogReconnecting
| LogRetrying
| ErrorParse
| ErrorSocket
| ErrorCreate.

Section Connection.
(** The parsed messages, and [JSON.parse] on the text of a message. *)
Variable Data : Type.
Variable JSON_parse : string -> option Data.

(** The variables of the closure of [syncWithBlender]: [ws] refers to a
    socket of [sockets] (every socket created so far, with its state),
    [reconnectTimeout] holds a timer handle; [pending] are the timers
    armed and neither fired nor cleared; [delivered] are the calls of the
    callback, [console] the lines logged, both latest last. *)
Record Sync := {
  ws : option nat;
  shouldReconnect : bool;
  reconnectTimeout : option nat;
  sockets : list ReadyState;
  pending : list nat;
  next_timer : nat;
  delivered : list Data;
  console : list ConsoleLine
}.

Definition log (line : ConsoleLine) (st : Sync) : Sync :=
  {| ws := ws st; shouldReconnect := shouldReconnect st;
     reconnectTimeout := reconnectTimeout st; sockets := sockets st;
     pending := pending st; next_timer := next_timer st;
     delivered := delivered st; console := console st ++ [line] |}.

(** [clearTimeout(handle)] *)
Definition clearTimeout (handle : nat) (st : Sync) : Sync :=
  {| ws := ws st; shouldReconnect := shouldReconnect st;
     reconnectTimeout := reconnectTimeout st; sockets := sockets st;
     pending := List.filter (fun t => negb (Nat.eqb t handle)) (pending st);
     next_timer := next_timer st;
     delivered := delivered st; console := console st |}.

(** [reconnectTimeout = setTimeout(connect, 2000)] *)
Definition arm_reconnect (st : Sync) : Sync :=
  {| ws := ws st; shouldReconnect := shouldReconnect st;
     reconnectTimeout := Some (next_timer st); sockets := sockets st;
     pending := pending st ++ [next_timer st];
     next_timer := S (next_timer st);
     delivered := delivered st; console := console st |}.

Definition set_reconnectTimeout (v : option nat) (st : Sync) : Sync :=
  {| ws := ws st; shouldReconnect := shouldReconnect st;
     reconnectTimeout := v; sockets := sockets st;
     pending := pending st; next_timer := next_timer st;
     delivered := delivered st; console := console st |}.

Definition set_shouldReconnect (v : bool) (st : Sync) : Sync :=
  {| ws := ws st; shouldReconnect := v;
     reconnectTimeout := reconnectTimeout st; sockets := sockets st;
     pending := pending st; next_timer := next_timer st;
     delivered := delivered st; console := console st |}.

Definition set_socket (i : nat) (r : ReadyState) (st : Sync) : Sync :=
  {| ws := ws st; shouldReconnect := shouldReconnect st;
     reconnectTimeout := reconnectTimeout st; sockets := <[i := r]> (sockets st);
     pending := pending st; next_timer := next_timer st;
     delivered := delivered st; console := console st |}.

(** [ws = new WebSocket(...)], when the constructor returns. *)
Definition new_socket (st : Sync) : Sync :=
  {| ws := Some (length (sockets st)); shouldReconnect := shouldReconnect st;
     reconnectTimeout := reconnectTimeout st; sockets := sockets st ++ [CONNECTING];
     pending := pending st; next_timer := next_timer st;
     delivered := delivered st; console := console st |}.

Definition deliver (d : Data) (st : Sync) : Sync :=
  {| ws := ws st; shouldReconnect := shouldReconnect st;
     reconnectTimeout := reconnectTimeout st; sockets := sockets st;
     pending := pending st; next_timer := next_timer st;
     delivered := delivered st ++ [d]; console := console st |}.

(** [connect()]; [throws] tells whether [new WebSocket] throws. *)
Definition connect (throws : bool) (st : Sync) : Sync :=
  let st :=
    match reconnectTimeout st with
    | Some handle => set_reconnectTimeout None (clearTimeout handle st)
    | None => st
    end in
  if throws then
    let st := log ErrorCreate st in
    if shouldReconnect st then arm_reconnect (log LogRetrying st) else st
  else new_socket st.

(** [ws.onopen] *)
Definition onopen (st : Sync) : Sync := log LogConnected st.

(** [ws.onmessage] *)
Definition onmessage (text : string) (st : Sync) : Sync :=
  match JSON_parse text with
  | Some data => deliver data st
  | None => log ErrorParse st
  end.

(** [ws.onerror] *)
Definition onerror (st : Sync) : Sync := log ErrorSocket st.

(** [ws.onclose] *)
Definition onclose (st : Sync) : Sync :=
  let st := log LogDisconnected st in
  if shouldReconnect st then arm_reconnect (log LogReconnecting st) else st.

(** [ws.close()]: a socket that is connecting or open starts closing. *)
Definition socket_close (i : nat) (st : Sync) : Sync :=
  match sockets st !! i with
  | Some CONNECTING | Some OPEN => set_socket i CLOSING st
  | _ => st
  end.

(** The function [syncWithBlender] returns. *)
Definition cleanup (st : Sync) : Sync :=
  let st := set_shouldReconnect false st in
  let st :=
    match reconnectTimeout st with
    | Some handle => clearTimeout handle st
    | None => st
    end in
  match ws st with
  | Some i => socket_close i st
  | None => st
  end.

(** The call [syncWithBlender(callback)] itself, up to its [return]. *)
Definition syncWithBlender (throws : bool) : Sync :=
  connect throws
    {| ws := None; shouldReconnect := true; reconnectTimeout := None;
       sockets := []; pending := []; next_timer := 1%nat;
       delivered := []; console := [] |}.

(** What can happen next: an event of socket [i], a timer firing, or the
    caller calling the cleanup function. *)
Inductive Event :=
| SocketOpens (i : nat)
| SocketMessage (i : nat) (text : string)
| SocketError (i : nat)
| SocketCloses (i : nat)
| TimerFires (handle : nat) (throws : bool)
| CleanupCalled.

(** The state after an event, if the event can happen in the state. *)
Definition step (ev : Event) (st : Sync) : option Sync :=
  match ev with
  | SocketOpens i =>
      match sockets st !! i with
      | Some CONNECTING => Some (onopen (set_socket i OPEN st))
      | _ => None
      end
  | SocketMessage i text =>
      match sockets st !! i with
      | Some OPEN => Some (onmessage text st)
      | _ => None
      end
  | SocketError i =>
      match sockets st !! i with
      | Some CLOSED | None => None
      | Some _ => Some (onerror st)
      end
  | SocketCloses i =>
      match sockets st !! i with
      | Some CLOSED | None => None
      | Some _ => Some (onclose (set_socket i CLOSED st))
      end
  | TimerFires handle throws =>
      if bool_decide (handle ∈ pending st)
      then Some (connect throws (clearTimeout handle st))
      else None
  | CleanupCalled => Some (cleanup st)
  end.

(** A run: the events that cannot happen are passed over. *)
Definition run (evs : list Event) (st : Sync) : Sync :=
  foldl (fun st ev => default st (step ev st)) st evs.

(** At most one socket is not closed, the one [ws] refers to; a timer is
    pending only while every socket is closed, it is then the only one,
    and [reconnectTimeout] holds it. *)
Definition one_connection (st : Sync) : Prop :=
  (forall i r, sockets st !! i = Some r -> r <> CLOSED -> ws st = Some i) /\
  (forall i, ws st = Some i -> S i = length (sockets st)) /\
  (pending st = [] \/
   (exists handle, pending st = [handle] /\ reconnectTimeout st = Some handle /\
                   shouldReconnect st = true /\
                   Forall (fun r => r = CLOSED) (sockets st))).

(** No socket can deliver a message any more, and nothing is left that
    would open another one. *)
Definition shut_down (st : Sync) : Prop :=
  shouldReconnect st = false /\ pending st = [] /\
  Forall (fun r => r = CLOSING \/ r = CLOSED) (sockets st).

End Connection.

Arguments ws {Data} _.
Arguments shouldReconnect {Data} _.
Arguments reconnectTimeout {Data} _.
Arguments sockets {Data} _.
Arguments pending {Data} _.
Arguments next_timer {Data} _.
Arguments delivered {Data} _.
Arguments console {Data} _.
Arguments log {Data} line st.
Arguments clearTimeout {Data} handle st.
Arguments arm_reconnect {Data} st.
Arguments set_reconnectTimeout {Data} v st.
Arguments set_shouldReconnect {Data} v st.
Arguments set_socket {Data} i r st.
Arguments new_socket {Data} st.
Arguments deliver {Data} d st.
Arguments connect {Data} throws st.
Arguments onopen {Data} st.
Arguments onmessage {Data} JSON_parse text st.
Arguments onerror {Data} st.
Arguments onclose {Data} st.
Arguments socket_close {Data} i st.
Arguments cleanup {Data} st.
Arguments step {Data} JSON_parse ev st.
Arguments run {Data} JSON_parse evs st.
Arguments one_connection {Data} st.
Arguments shut_down {Data} st.

(** ** The two helpers built on [syncWithBlender] *)

Section Helpers.
Context {N : Number}.

(** [interface BlenderObjectData], as declared. *)
Record BlenderObjectData := {
  data_position : Vector3;
  data_quaternion : Quaternion;
  data_rotation : Vector3;
  data_fov : option num;
  data_frame : num;
  data_fps : num;
  objectName : string;
  objectType : string;
  scrubFrame : option num
}.

(** The callback [syncCameraWithBlender(camera)] gives [syncWithBlender]:
    the camera after the callback has run on [data]. *)
Definition onCameraData (camera : PerspectiveCamera) (data : BlenderObjectData)
    : PerspectiveCamera :=
  if String.eqb (objectType data) "CAMERA" then
    match data_fov data with
    | Some f =>
        {| cam_name := cam_name camera; position := data_position data;
           quaternion := data_quaternion data; fov := f |}
    | None => camera
    end
  else camera.

(** The callback of [syncFrameWithBlender(onFrame)]: the arguments it
    calls [onFrame] with. *)
Definition onFrameData (data : BlenderObjectData) : num * num :=
  (data_frame data, data_fps data).

(** The messages the camera callback acts on. *)
Definition is_camera_message (data : BlenderObjectData) : bool :=
  String.eqb (objectType data) "CAMERA" && bool_decide (is_Some (data_fov data)).

End Helpers.

(** * The vite plugin that injects the version (scripts/module_version.js)

    The value injected is [JSON.stringify] of the version field of
    module/package.json; both are given. The flag [envInjectionFailed] is
    a variable of the module, shared by every plugin [createPlugin]
    returns. *)

Section ModuleVersion.
Variable version : string.
Variable JSON_stringify : string -> string.
(** The second argument vite gives the [config] hook, or nothing. *)
Variable ConfigEnv : Type.

Definition version_key : string := "import.meta.env.PACKAGE_VERSION".

Definition version_warning : string :=
  "[module-version] import.meta.env.PACKAGE_VERSION was not injected due to incompatible vite version (requires vite@^2.0.0-beta.69).".

(** The hook [config(_, env)]: the flag afterwards and the [define] map
    returned, if any. *)
Definition plugin_config (env : option ConfigEnv) (envInjectionFailed : bool)
    : bool * option (list (string * string)) :=
  match env with
  | Some _ =>
      let key := version_key in
      let val := JSON_stringify version in
      (envInjectionFailed, Some [(key, val)])
  | None => (true, None)
  end.

(** The hook [configResolved(config)]: what it has [config.logger] warn. *)
Definition plugin_configResolved (envInjectionFailed : bool) : list string :=
  if envInjectionFailed then [version_warning] else [].

Inductive Hook :=
| HookConfig (env : option ConfigEnv)
| HookConfigResolved.

(** Vite calls hooks, of any plugin the module made: the flag afterwards
    and the warnings logged, in order. *)
Definition call_hook (h : Hook) (st : bool * list string) : bool * list string :=
  match h with
  | HookConfig env => (fst (plugin_config env (fst st)), snd st)
  | HookConfigResolved => (fst st, snd st ++ plugin_configResolved (fst st))
  end.

Definition call_hooks (hooks : list Hook) (envInjectionFailed : bool)
    : bool * list string :=
  foldl (fun st h => call_hook h st) (envInjectionFailed, []) hooks.

Definition without_env (h : Hook) : bool :=
  match h with
  | HookConfig None => true
  | _ => false
  end.

End ModuleVersion.

Arguments HookConfig {ConfigEnv} env.
Arguments HookConfigResolved {ConfigEnv}.
Arguments call_hook version JSON_stringify {ConfigEnv} h st.
Arguments call_hooks version JSON_stringify {ConfigEnv} hooks envInjectionFailed.
Arguments without_env {ConfigEnv} h.

(** ** More of the scene *)

Module Session.
#[local] Existing Instance FloatNumber.
Open Scope float_scope.

Definition cameras : list PerspectiveCamera := [Demo.camA; Demo.camB; Demo.camStill].
Definition clips : list AnimationClip := [Demo.clipB; Demo.clipStill; Demo.clipA].

(** Shot "a" as [play] leaves it. *)
Definition startedA : AnimatedCamera :=
  AnimatedCamera_play CallOnShotFinished Demo.shotA.

(** A session: the two shots are played to the end, then the sequence
    is cut down to ["b"], scrubbed and played again. *)
Definition calls : list Call :=
  [CallConfig ["a"; "b"]%string; AssignTargetCamera (Some Demo.out);
   CallPlay (Some 7%nat); CallUpdate 1; CallUpdate 1.5; CallUpdate 3; CallUpdate 1;
   CallConfig ["b"]%string; CallScrub 1 Demo.out; CallPlay None; CallUpdate 4].

End Session.

(** ** Properties *)

Section Properties.
Context {N : Number}.

Lemma same_but_trace_refl s : same_but_trace s s.
Proof. repeat split. Qed.

Lemma same_but_trace_trans s1 s2 s3 :
  same_but_trace s1 s2 -> same_but_trace s2 s3 -> same_but_trace s1 s3.
Proof.
  unfold same_but_trace. intros H1 H2.
  decompose [and] H1. decompose [and] H2. repeat split; congruence.
Qed.

Lemma same_but_trace_emit e s : same_but_trace s (emit e s).
Proof. repeat split. Qed.

Lemma unconfigured_same s s' :
  same_but_trace s s' -> unconfigured s -> unconfigured s'.
Proof.
  intros (_ & Hseq & _) [H | H]; [left | right]; congruence.
Qed.

Lemma play_unconfigured s onCompleted :
  unconfigured s -> play onCompleted s = emit (Console NoSequenceConfigured) s.
Proof. intros [H | H]; unfold play; rewrite H; reflexivity. Qed.

Lemma scrub_unconfigured s time cam :
  unconfigured s -> scrub time cam s = (s, cam).
Proof. intros [H | H]; unfold scrub; rewrite H; reflexivity. Qed.

Lemma perform_unconfigured c s :
  is_play_or_scrub c = true -> unconfigured s -> same_but_trace s (perform c s).
Proof.
  destruct c; try discriminate; intros _ H; simpl.
  - rewrite play_unconfigured by assumption. apply same_but_trace_emit.
  - rewrite scrub_unconfigured by assumption. apply same_but_trace_refl.
Qed.

(** C9. With no sequence configured, or an empty one, [play] only logs a
    warning and [scrub] does nothing at all: the playhead, the index, the
    playing flag, the scripts with their flags, the completion callback,
    the shots with their cameras, the target camera and the camera given to
    [scrub] are as before, and so they are after any number of such calls. *)
Theorem unconfigured_play_scrub_noop (s : ShotsManager) :
  unconfigured s ->
  (forall onCompleted,
      same_but_trace s (play onCompleted s) /\
      trace (play onCompleted s)
      = trace s ++ [(playheadTime s, Console NoSequenceConfigured)]) /\
  (forall time cam, scrub time cam s = (s, cam)) /\
  (forall cs, forallb is_play_or_scrub cs = true ->
              same_but_trace s (perform_all cs s) /\ unconfigured (perform_all cs s)).
Proof.
  intros Hs. split; [| split].
  - intros oc. rewrite play_unconfigured by assumption.
    split; [apply same_but_trace_emit | reflexivity].
  - intros. apply scrub_unconfigured; assumption.
  - intros cs. revert s Hs. induction cs as [| c cs IH]; intros s Hs Hcs.
    + split; [apply same_but_trace_refl | assumption].
    + simpl in Hcs. apply andb_prop in Hcs as [Hc Hcs].
      pose proof (perform_unconfigured c s Hc Hs) as Hstep.
      pose proof (unconfigured_same _ _ Hstep Hs) as Hs'.
      destruct (IH (perform c s) Hs' Hcs) as [Hall Hun].
      split; [| exact Hun].
      eapply same_but_trace_trans; [exact Hstep | exact Hall].
Qed.

(** *** Starting a shot *)

Lemma AnimatedCamera_play_spec onFinish a :
  let a' := AnimatedCamera_play onFinish a in
  action_time a' = zero /\ action_paused a' = false /\ mixer_active a' = true /\
  onFinishCallback a' = Some onFinish /\
  clip a' = clip a /\ camera a' = camera a /\ action_timeScale a' = action_timeScale a.
Proof.
  unfold AnimatedCamera_play, action_play, action_reset. simpl.
  destruct (mixer_active a) eqn:E; simpl; repeat split; try reflexivity; exact E.
Qed.

Lemma playCurrentShot_at s seq shot :
  sequence s = Some seq ->
  0 <= currentShotIndex s ->
  seq !! Z.to_nat (currentShotIndex s) = Some shot ->
  playCurrentShot s = on_shot shot (AnimatedCamera_play CallOnShotFinished) s.
Proof.
  intros Hseq Hidx Hshot. unfold playCurrentShot, at_index. rewrite Hseq.
  apply lookup_lt_Some in Hshot as Hlt.
  destruct (Z.leb_spec (Z.of_nat (length seq)) (currentShotIndex s)); [lia |].
  destruct (Z.ltb_spec (currentShotIndex s) 0); [lia |].
  rewrite Hshot. reflexivity.
Qed.

(** C4. With a non-empty sequence configured, [play] puts the playhead at
    0, clears the flag of every frame script, sets the playing flag, puts
    the index at 0 and starts the first shot of the sequence: its action is
    reset to time 0, unpaused and active in its mixer, and its finish
    callback is the one that runs [onShotFinished]. *)
Theorem play_starts_first_shot (s : ShotsManager) (onCompleted : option Callback)
    (first : nat) (rest : list nat) (a : AnimatedCamera) :
  sequence s = Some (first :: rest) ->
  shots s !! first = Some a ->
  let s' := play onCompleted s in
  playheadTime s' = zero /\
  frameScripts s' = map (set_called (Some false)) (frameScripts s) /\
  Forall (fun f => called f = Some false) (frameScripts s') /\
  isPlaying s' = true /\
  currentShotIndex s' = 0 /\
  onShotsCompleted s' = onCompleted /\
  sequence s' = sequence s /\
  shots s' = <[first := AnimatedCamera_play CallOnShotFinished a]> (shots s) /\
  (exists a', shots s' !! first = Some a' /\
              action_time a' = zero /\ action_paused a' = false /\
              mixer_active a' = true /\
              onFinishCallback a' = Some CallOnShotFinished) /\
  finishedListener first s' = onShotFinished (emit (ShotFinish first) s').
Proof.
  intros Hseq Ha s'.
  assert (Hs' : s' = on_shot first (AnimatedCamera_play CallOnShotFinished)
                       (set_currentShotIndex 0
                          (set_isPlaying true
                             (set_frameScripts (map (set_called (Some false)) (frameScripts s))
                                (set_onShotsCompleted onCompleted
                                   (set_playheadTime zero s)))))).
  { subst s'. unfold play. rewrite Hseq.
    erewrite playCurrentShot_at; [reflexivity | exact Hseq | simpl; lia | reflexivity]. }
  assert (Hlook : shots s' !! first = Some (AnimatedCamera_play CallOnShotFinished a)).
  { rewrite Hs'. simpl. rewrite list_lookup_alter_eq, Ha. reflexivity. }
  destruct (AnimatedCamera_play_spec CallOnShotFinished a) as (Ht & Hp & Hact & Hcb & _).
  repeat split; try (rewrite Hs'; reflexivity).
  - rewrite Hs'. simpl. apply Forall_forall. intros f Hf.
    apply list_elem_of_fmap in Hf as (f0 & -> & _). reflexivity.
  - rewrite Hs'. simpl. apply list_eq. intros i.
    destruct (decide (first = i)) as [<- | Hne].
    + rewrite list_lookup_alter_eq, Ha.
      rewrite list_lookup_insert_eq by (eapply lookup_lt_Some; exact Ha). reflexivity.
    + rewrite list_lookup_alter_ne, list_lookup_insert_ne by assumption. reflexivity.
  - exists (AnimatedCamera_play CallOnShotFinished a). repeat split; assumption.
  - unfold finishedListener. rewrite Hlook, Hcb. reflexivity.
Qed.

(** *** The end of the sequence *)

Lemma alter_as_insert {A} (f : A -> A) (l : list A) (i : nat) (x : A) :
  l !! i = Some x -> alter f i l = <[i := f x]> l.
Proof.
  intros Hx. apply list_eq. intros j.
  destruct (decide (i = j)) as [<- | Hne].
  - rewrite list_lookup_alter_eq, Hx.
    rewrite list_lookup_insert_eq by (eapply lookup_lt_Some; exact Hx). reflexivity.
  - rewrite list_lookup_alter_ne, list_lookup_insert_ne by assumption. reflexivity.
Qed.

Lemma last_nonempty_length {A} (l : list A) (x : A) :
  last l = Some x -> (0 < length l)%nat.
Proof. destruct l; [discriminate | simpl; lia]. Qed.

(** C3. The finish callback of the shot at the last index runs. Without
    [loop]: the playing flag is cleared, the completion callback, if there
    is one, is called once, and no shot is touched. With [loop]: the index
    is 0 again and the first shot of the sequence is started anew at time
    0, and the completion callback is not called. *)
Theorem last_shot_finished (s : ShotsManager) (seq : list nat) (self : nat)
    (a : AnimatedCamera) :
  sequence s = Some seq ->
  last seq = Some self ->
  currentShotIndex s = Z.of_nat (length seq) - 1 ->
  shots s !! self = Some a ->
  onFinishCallback a = Some CallOnShotFinished ->
  let s' := finishedListener self s in
  (loop s = false ->
     isPlaying s' = false /\
     shots s' = shots s /\
     currentShotIndex s' = Z.of_nat (length seq) /\
     trace s' = trace s ++ (playheadTime s, ShotFinish self) ::
                  match onShotsCompleted s with
                  | Some cb => [(playheadTime s, CompletedCall cb)]
                  | None => []
                  end /\
     sequence s' = sequence s /\ frameScripts s' = frameScripts s /\
     playheadTime s' = playheadTime s /\ targetCamera s' = targetCamera s /\
     onShotsCompleted s' = onShotsCompleted s /\ loop s' = loop s) /\
  (loop s = true ->
     forall first a0,
       seq !! 0%nat = Some first ->
       shots s !! first = Some a0 ->
       currentShotIndex s' = 0 /\
       isPlaying s' = isPlaying s /\
       shots s' = <[first := AnimatedCamera_play CallOnShotFinished a0]> (shots s) /\
       (exists a', shots s' !! first = Some a' /\
                   action_time a' = zero /\ action_paused a' = false /\
                   mixer_active a' = true /\
                   onFinishCallback a' = Some CallOnShotFinished) /\
       trace s' = trace s ++ [(playheadTime s, ShotFinish self)] /\
       sequence s' = sequence s /\ frameScripts s' = frameScripts s /\
       playheadTime s' = playheadTime s /\ targetCamera s' = targetCamera s /\
       onShotsCompleted s' = onShotsCompleted s /\ loop s' = loop s).
Proof.
  intros Hseq Hlast Hidx Ha Hcb s'.
  pose proof (last_nonempty_length _ _ Hlast) as Hlen.
  assert (Hs' : s' = onShotFinished (emit (ShotFinish self) s)).
  { subst s'. unfold finishedListener. rewrite Ha, Hcb. reflexivity. }
  assert (Hpast : (Z.of_nat (length seq) <=? currentShotIndex s + 1) = true).
  { apply Z.leb_le. lia. }
  split.
  - intros Hloop. rewrite Hs'. unfold onShotFinished. simpl.
    rewrite Hseq, Hpast, Hloop.
    destruct (onShotsCompleted s) as [cb |] eqn:Hoc; simpl;
      rewrite ?Hidx; repeat split; try reflexivity;
      try (f_equal; lia); rewrite <- ?app_assoc; try reflexivity; assumption.
  - intros Hloop first a0 Hfirst Ha0.
    assert (Hfin : s' = on_shot first (AnimatedCamera_play CallOnShotFinished)
                          (set_currentShotIndex 0
                             (set_currentShotIndex (currentShotIndex s + 1)
                                (emit (ShotFinish self) s)))).
    { rewrite Hs'. unfold onShotFinished. simpl. rewrite Hseq, Hpast, Hloop.
      erewrite playCurrentShot_at; [reflexivity | exact Hseq | simpl; lia | exact Hfirst]. }
    destruct (AnimatedCamera_play_spec CallOnShotFinished a0) as (Ht & Hp & Hact & Hc & _).
    repeat split; try (rewrite Hfin; reflexivity).
    + rewrite Hfin. simpl. apply alter_as_insert. exact Ha0.
    + exists (AnimatedCamera_play CallOnShotFinished a0).
      rewrite Hfin. simpl. rewrite list_lookup_alter_eq, Ha0.
      repeat split; assumption.
Qed.

(** *** What advancing a shot can do to the manager *)

Lemma advanced_by_refl s : advanced_by [] s s.
Proof. unfold advanced_by. simpl. rewrite app_nil_r. repeat split. Qed.

Lemma advanced_by_trans evs1 evs2 s1 s2 s3 :
  advanced_by evs1 s1 s2 -> advanced_by evs2 s2 s3 -> advanced_by (evs1 ++ evs2) s1 s3.
Proof.
  unfold advanced_by. intros H1 H2.
  destruct H1 as (A1 & A2 & A3 & A4 & A5 & A6 & A7).
  destruct H2 as (B1 & B2 & B3 & B4 & B5 & B6 & B7).
  repeat split; try congruence.
  rewrite B7, A7, A3, map_app, app_assoc. reflexivity.
Qed.

Lemma advanced_by_on_shot i f s : advanced_by [] s (on_shot i f s).
Proof. unfold advanced_by. simpl. rewrite app_nil_r. repeat split. Qed.

Lemma advanced_by_emit e s : advanced_by [e] s (emit e s).
Proof. unfold advanced_by. simpl. repeat split. Qed.

Lemma advanced_by_playCurrentShot s : advanced_by [] s (playCurrentShot s).
Proof.
  unfold playCurrentShot.
  destruct (sequence s) as [seq |]; [| apply advanced_by_refl].
  destruct (Z.of_nat (length seq) <=? currentShotIndex s); [apply advanced_by_refl |].
  destruct (at_index seq (currentShotIndex s)); [| apply advanced_by_refl].
  apply advanced_by_on_shot.
Qed.

Lemma advanced_by_set_index i s : advanced_by [] s (set_currentShotIndex i s).
Proof. unfold advanced_by. simpl. rewrite app_nil_r. repeat split. Qed.

Lemma advanced_by_set_isPlaying b s : advanced_by [] s (set_isPlaying b s).
Proof. unfold advanced_by. simpl. rewrite app_nil_r. repeat split. Qed.

Lemma advanced_by_onShotFinished s :
  exists evs, advanced_by evs s (onShotFinished s) /\
              forallb is_shot_event evs = true /\
              (forall cb, CompletedCall cb ∈ evs -> isPlaying (onShotFinished s) = false).
Proof.
  unfold onShotFinished. simpl.
  destruct (sequence s) as [seq |] eqn:Hseq.
  2: { exists []. split; [apply advanced_by_set_index | split; [reflexivity |]].
       intros cb H. inversion H. }
  destruct (Z.of_nat (length seq) <=? currentShotIndex s + 1).
  - destruct (loop s).
    + exists []. split; [| split; [reflexivity | intros cb H; inversion H]].
      change [] with (@nil Effect ++ ([] ++ [])).
      eapply advanced_by_trans; [apply advanced_by_set_index |].
      eapply advanced_by_trans; [apply advanced_by_set_index |].
      apply advanced_by_playCurrentShot.
    + destruct (onShotsCompleted s) as [cb |] eqn:Hcb; simpl.
      * exists [CompletedCall cb]. split; [| split; [reflexivity | reflexivity]].
        unfold advanced_by. simpl. repeat split; assumption.
      * exists []. split; [| split; [reflexivity | reflexivity]].
        unfold advanced_by. simpl. rewrite app_nil_r. repeat split; assumption.
  - exists []. split; [| split; [reflexivity | intros cb H; inversion H]].
    change [] with (@nil Effect ++ []).
    eapply advanced_by_trans; [apply advanced_by_set_index |].
    apply advanced_by_playCurrentShot.
Qed.

Lemma advanced_by_finishedListener self s :
  exists evs, advanced_by evs s (finishedListener self s) /\
              forallb is_shot_event evs = true.
Proof.
  unfold finishedListener.
  destruct (shots s !! self) as [a |]; [| exists []; split; [apply advanced_by_refl | reflexivity]].
  destruct (onFinishCallback a) as [[] |];
    [| exists []; split; [apply advanced_by_refl | reflexivity]].
  destruct (advanced_by_onShotFinished (emit (ShotFinish self) s)) as (evs & Hadv & Hall & _).
  exists ([ShotFinish self] ++ evs). split.
  - eapply advanced_by_trans; [apply advanced_by_emit | exact Hadv].
  - simpl. exact Hall.
Qed.

Lemma advanced_by_finish_at self endTime s :
  exists evs, advanced_by evs s (finish_at self endTime s) /\
              forallb is_shot_event evs = true.
Proof.
  unfold finish_at.
  set (s1 := on_shot self _ s).
  destruct (advanced_by_finishedListener self s1) as (evs & Hadv & Hall).
  exists ([] ++ (evs ++ [])). split.
  - eapply advanced_by_trans; [apply advanced_by_on_shot |].
    eapply advanced_by_trans; [exact Hadv | apply advanced_by_on_shot].
  - simpl. rewrite app_nil_r. exact Hall.
Qed.

(** A mixer update leaves the sequence, the scripts, the playhead, the
    target camera, the completion callback and the loop flag alone; it is
    recorded in the trace, followed by the effects of the shot finishing
    if it does, all at the current playhead. *)
Lemma mixer_update_advanced self deltaTime s :
  exists evs, advanced_by (MixerUpdate self deltaTime :: evs) s (mixer_update self deltaTime s) /\
              forallb is_shot_event evs = true.
Proof.
  unfold mixer_update.
  set (s0 := emit (MixerUpdate self deltaTime) s).
  assert (H0 : advanced_by [MixerUpdate self deltaTime] s s0) by apply advanced_by_emit.
  assert (Hstay : forall s1, advanced_by [] s0 s1 ->
            exists evs, advanced_by (MixerUpdate self deltaTime :: evs) s s1 /\
                        forallb is_shot_event evs = true).
  { intros s1 H1. exists []. split; [| reflexivity].
    change [MixerUpdate self deltaTime] with ([MixerUpdate self deltaTime] ++ []).
    eapply advanced_by_trans; eassumption. }
  assert (Hfin : forall endTime,
            exists evs, advanced_by (MixerUpdate self deltaTime :: evs) s (finish_at self endTime s0) /\
                        forallb is_shot_event evs = true).
  { intros endTime.
    destruct (advanced_by_finish_at self endTime s0) as (evs & Hadv & Hall).
    exists evs. split; [| exact Hall].
    change (MixerUpdate self deltaTime :: evs) with ([MixerUpdate self deltaTime] ++ evs).
    eapply advanced_by_trans; eassumption. }
  destruct (shots s0 !! self) as [a |]; [| apply Hstay, advanced_by_refl].
  destruct (negb (mixer_active a)); [apply Hstay, advanced_by_refl |].
  destruct (seqb _ zero); [apply Hstay, advanced_by_on_shot |].
  destruct (geb _ _); [apply Hfin |].
  destruct (ltb _ zero); [apply Hfin |].
  apply Hstay. change [] with (@nil Effect ++ []).
  eapply advanced_by_trans; apply advanced_by_on_shot.
Qed.

(** *** One tick of [update] *)

Lemma fired_calls_from_cons k now f fs :
  fired_calls_from k now (f :: fs)
  = (if due now f then [ScriptCall k (callback f) (Some true)] else [])
    ++ fired_calls_from (S k) now fs.
Proof.
  unfold fired_calls_from. rewrite imap_cons. simpl.
  replace (k + 0)%nat with k by lia.
  assert (Hext : imap ((fun i f0 => ((k + i)%nat, f0)) ∘ S) fs
                 = imap (fun i f0 => ((S k + i)%nat, f0)) fs).
  { apply imap_ext. intros i x _. simpl. f_equal. lia. }
  rewrite Hext. destruct (due now f); reflexivity.
Qed.

Lemma check_scripts_spec k now fs :
  check_scripts k now fs = (map (mark now) fs, fired_calls_from k now fs).
Proof.
  revert k. induction fs as [| f fs IH]; intros k; [reflexivity |].
  simpl. rewrite IH, fired_calls_from_cons. unfold mark, due. simpl.
  destruct (ltb (script_time f) now && negb (is_called f)); reflexivity.
Qed.

Lemma at_index_Some {A} (l : list A) (i : Z) (x : A) :
  at_index l i = Some x <-> 0 <= i /\ l !! Z.to_nat i = Some x.
Proof.
  unfold at_index. destruct (Z.ltb_spec i 0); split.
  - discriminate.
  - intros [? _]. lia.
  - intros. split; [lia | assumption].
  - intros [_ ?]. assumption.
Qed.

(** One [update(delta)] while playing at a valid index: what it returns,
    field by field. *)
Lemma update_at_valid_index (s : ShotsManager) (seq : list nat) (delta : num)
    (shot : nat) (a : AnimatedCamera) :
  isPlaying s = true ->
  sequence s = Some seq ->
  at_index seq (currentShotIndex s) = Some shot ->
  shots s !! shot = Some a ->
  let before := playheadTime s in
  let now := add before delta in
  exists s' evs,
    update delta s = Ok s' /\
    targetCamera s' = (fun tc => syncCamera tc (camera a)) <$> targetCamera s /\
    playheadTime s' = now /\
    trace s' = trace s
               ++ match targetCamera s with
                  | Some tc => [(before, ProjectionUpdated (syncCamera tc (camera a)))]
                  | None => []
                  end
               ++ (now, MixerUpdate shot delta) :: map (pair now) evs
               ++ map (pair now) (fired_calls now (frameScripts s)) /\
    forallb is_shot_event evs = true /\
    frameScripts s' = map (mark now) (frameScripts s).
Proof.
  intros Hplay Hseq Hat Ha before now.
  pose proof Hat as Hat'. apply at_index_Some in Hat' as [Hidx Hshot].
  apply lookup_lt_Some in Hshot as Hlt.
  unfold update. rewrite Hplay, Hseq. simpl.
  destruct (Z.ltb_spec (currentShotIndex s) 0) as [? | _]; [lia |].
  rewrite Hat. simpl. rewrite Ha.
  set (s1 := match targetCamera s with
             | Some tc => emit (ProjectionUpdated (syncCamera tc (camera a)))
                               (set_targetCamera (Some (syncCamera tc (camera a))) s)
             | None => s
             end).
  assert (Hs1 : match targetCamera s with
                | Some tc => Ok (emit (ProjectionUpdated (syncCamera tc (camera a)))
                                   (set_targetCamera (Some (syncCamera tc (camera a))) s))
                | None => Ok s
                end = Ok s1) by (subst s1; destruct (targetCamera s); reflexivity).
  rewrite Hs1. clear Hs1.
  assert (Hidx1 : currentShotIndex s1 = currentShotIndex s)
    by (subst s1; destruct (targetCamera s); reflexivity).
  assert (Hph1 : playheadTime s1 = before)
    by (subst s1; destruct (targetCamera s); reflexivity).
  assert (Hfs1 : frameScripts s1 = frameScripts s)
    by (subst s1; destruct (targetCamera s); reflexivity).
  assert (Htc1 : targetCamera s1 = (fun tc => syncCamera tc (camera a)) <$> targetCamera s)
    by (subst s1; destruct (targetCamera s) eqn:E; simpl; rewrite ?E; reflexivity).
  assert (Htr1 : trace s1 = trace s ++ match targetCamera s with
                  | Some tc => [(before, ProjectionUpdated (syncCamera tc (camera a)))]
                  | None => []
                  end)
    by (subst s1; destruct (targetCamera s); simpl; rewrite ?app_nil_r; reflexivity).
  simpl. rewrite Hidx1.
  destruct (Z.ltb_spec (currentShotIndex s) (Z.of_nat (length seq))) as [_ | ?]; [| lia].
  rewrite Hat. unfold AnimatedCamera_update.
  set (s2 := set_playheadTime (add (playheadTime s1) delta) s1).
  destruct (mixer_update_advanced shot delta s2)
    as (evs & (_ & Bfs & Bph & Btc & _ & _ & Btr) & Hall).
  set (s3 := mixer_update shot delta s2) in *.
  rewrite check_scripts_spec. simpl.
  eexists; exists evs. split; [reflexivity |].
  simpl. rewrite Btc, Bph, Bfs, Btr. subst s2. simpl.
  rewrite Hph1, Hfs1, Htc1, Htr1. fold now.
  repeat split; try assumption.
  rewrite <- !app_assoc. simpl. reflexivity.
Qed.

(** *** Script calls over a session *)

Lemma fires_app k tr1 tr2 : fires k (tr1 ++ tr2) = (fires k tr1 + fires k tr2)%nat.
Proof. unfold fires. rewrite List.filter_app, length_app. reflexivity. Qed.

Lemma fires_no_script_call k (t : num) evs :
  forallb (fun e => negb (is_script_call e)) evs = true ->
  fires k (map (pair t) evs) = 0%nat.
Proof.
  induction evs as [| e evs IH]; [reflexivity |].
  simpl. intros H. apply andb_prop in H as [He H].
  unfold fires in *. simpl.
  destruct e; simpl in *; try discriminate; apply IH; assumption.
Qed.

Lemma shot_events_no_script_call evs :
  forallb is_shot_event evs = true ->
  forallb (fun e => negb (is_script_call e)) evs = true.
Proof.
  induction evs as [| e evs IH]; [reflexivity |].
  simpl. intros H. apply andb_prop in H as [He H].
  rewrite IH by assumption. destruct e; try discriminate; reflexivity.
Qed.

Lemma fires_fired_calls_from k (t : num) j now fs :
  fires k (map (pair t) (fired_calls_from j now fs))
  = if decide (j <= k)%nat
    then match fs !! (k - j)%nat with
         | Some f => if due now f then 1%nat else 0%nat
         | None => 0%nat
         end
    else 0%nat.
Proof.
  revert j. induction fs as [| f fs IH]; intros j.
  - destruct (decide (j <= k)%nat); reflexivity.
  - rewrite fired_calls_from_cons, map_app, fires_app, IH.
    destruct (decide (j <= k)%nat) as [Hle | Hgt].
    + destruct (decide (j = k)) as [-> | Hne].
      * replace (k - k)%nat with 0%nat by lia. simpl.
        destruct (decide (S k <= k)%nat); [lia |].
        destruct (due now f); unfold fires; simpl; rewrite ?Nat.eqb_refl; reflexivity.
      * destruct (decide (S j <= k)%nat); [| lia].
        replace (k - j)%nat with (S (k - S j)) by lia. simpl.
        assert (Hkj : Nat.eqb k j = false) by (apply Nat.eqb_neq; lia).
        destruct (due now f); unfold fires; simpl; rewrite ?Hkj; reflexivity.
    + destruct (decide (S j <= k)%nat); [lia |].
      assert (Hkj : Nat.eqb k j = false) by (apply Nat.eqb_neq; lia).
      destruct (due now f); unfold fires; simpl; rewrite ?Hkj; reflexivity.
Qed.

Lemma fires_fired_calls k (t : num) now fs :
  fires k (map (pair t) (fired_calls now fs))
  = match fs !! k with
    | Some f => if due now f then 1%nat else 0%nat
    | None => 0%nat
    end.
Proof.
  unfold fired_calls. rewrite fires_fired_calls_from.
  destruct (decide (0 <= k)%nat); [| lia].
  replace (k - 0)%nat with k by lia. reflexivity.
Qed.

Lemma is_called_mark now f : is_called (mark now f) = is_called f || due now f.
Proof.
  unfold mark. destruct (due now f) eqn:Hdue; [| rewrite orb_false_r; reflexivity].
  rewrite orb_true_r. reflexivity.
Qed.

(** What [update] does to the scripts, whatever the index: nothing at
    all, or the scripts due at the new playhead are marked and called, after
    effects that are no script calls. *)
Lemma update_scripts delta s s' :
  update delta s = Ok s' ->
  s' = s \/
  exists now pre,
    frameScripts s' = map (mark now) (frameScripts s) /\
    trace s' = trace s ++ pre ++ map (pair now) (fired_calls now (frameScripts s)) /\
    (forall k, fires k pre = 0%nat).
Proof.
  unfold update.
  destruct (isPlaying s); simpl; [| intros [= <-]; left; reflexivity].
  destruct (sequence s) as [seq |]; [| intros [= <-]; left; reflexivity].
  destruct (currentShotIndex s <? 0); [intros [= <-]; left; reflexivity |].
  set (synced := match targetCamera s with Some _ => _ | None => _ end).
  assert (Hsync : synced = TypeError \/
            exists s1 pre1, synced = Ok s1 /\ frameScripts s1 = frameScripts s /\
                            trace s1 = trace s ++ pre1 /\ (forall k, fires k pre1 = 0%nat)).
  { subst synced. destruct (targetCamera s) as [tc |].
    - destruct (at_index seq (currentShotIndex s) ≫= _) as [a |]; [| left; reflexivity].
      right. do 2 eexists. split; [reflexivity |]. simpl.
      split; [reflexivity |]. split; [reflexivity |]. intros k. reflexivity.
    - right. exists s, []. rewrite app_nil_r. repeat split. }
  destruct Hsync as [-> | (s1 & pre1 & -> & Hfs1 & Htr1 & Hpre1)]; [discriminate |].
  cbv zeta. intros [= <-]. right.
  set (s2 := set_playheadTime (add (playheadTime s1) delta) s1).
  set (s3 := if _ <? Z.of_nat (length seq) then _ else s2).
  assert (H3 : exists evs, advanced_by evs s2 s3 /\
                           forallb (fun e => negb (is_script_call e)) evs = true).
  { subst s3. destruct (_ <? Z.of_nat (length seq));
      [| exists []; split; [apply advanced_by_refl | reflexivity]].
    destruct (at_index seq _) as [shot |];
      [| exists []; split; [apply advanced_by_refl | reflexivity]].
    destruct (mixer_update_advanced shot delta s2) as (evs & Hadv & Hall).
    eexists. split; [exact Hadv |]. simpl. apply shot_events_no_script_call, Hall. }
  destruct H3 as (evs & (_ & Bfs & Bph & _ & _ & _ & Btr) & Hevs).
  rewrite check_scripts_spec. simpl.
  exists (playheadTime s3), (pre1 ++ map (pair (playheadTime s2)) evs).
  rewrite Bfs, Btr. subst s2. simpl. rewrite Hfs1, Htr1.
  repeat split.
  - rewrite <- !app_assoc. reflexivity.
  - intros k. rewrite fires_app, Hpre1, fires_no_script_call by assumption. reflexivity.
Qed.

(** *** What [scrub] does *)

Lemma set_shots_id s : set_shots (shots s) s = s.
Proof. destruct s; reflexivity. Qed.

Lemma on_shot_on_shot i f g s :
  on_shot i f (on_shot i g s) = on_shot i (f ∘ g) s.
Proof. unfold on_shot. simpl. rewrite list_alter_alter_eq. reflexivity. Qed.

Lemma foldl_on_shot_stop seq s :
  foldl (fun s shot => on_shot shot AnimatedCamera_stop s) s seq
  = set_shots (stop_all seq (shots s)) s.
Proof.
  revert s. induction seq as [| shot seq IH]; intros s; simpl.
  - symmetry. apply set_shots_id.
  - rewrite IH. reflexivity.
Qed.

Lemma scrub_binding_fields time a :
  let a' := scrub_binding time a in
  mixer_active a' = true /\ action_paused a' = true /\
  action_time a' = scrub_action_time time a /\
  clip a' = clip a /\ action_timeScale a' = action_timeScale a /\
  onFinishCallback a' = onFinishCallback a /\
  camera a' = apply_tracks (clip a) (add (scrub_action_time time a) (mul zero zero))
                           (camera a).
Proof.
  unfold scrub_binding, evaluate, action_play, action_reset. simpl.
  destruct (mixer_active a) eqn:E; simpl; repeat split; try reflexivity; exact E.
Qed.

Lemma action_play_active a : mixer_active (action_play a) = true.
Proof. unfold action_play. destruct (mixer_active a) eqn:E; [exact E | reflexivity]. Qed.

Lemma AnimatedCamera_scrubTo_spec self time s :
  AnimatedCamera_scrubTo self time s
  = emit (MixerUpdate self zero) (on_shot self (scrub_binding time) s).
Proof.
  unfold AnimatedCamera_scrubTo. rewrite !on_shot_on_shot.
  unfold mixer_update. simpl.
  rewrite list_lookup_alter_eq.
  destruct (shots s !! self) as [a |] eqn:Ha; simpl.
  - rewrite action_play_active, mul_zero_zero. simpl.
    unfold on_shot, emit, set_shots, set_trace. simpl. rewrite list_alter_alter_eq.
    f_equal. apply list_alter_ext; [| reflexivity].
    intros x Hx. rewrite Ha in Hx. injection Hx as <-.
    unfold scrub_binding, evaluate, scrub_action_time. simpl.
    unfold action_play, action_reset. simpl.
    destruct (mixer_active a); reflexivity.
  - unfold on_shot, emit, set_shots, set_trace. simpl. f_equal.
    apply list_eq. intros i. destruct (decide (self = i)) as [<- | Hne].
    + rewrite !list_lookup_alter_eq, Ha. reflexivity.
    + rewrite !list_lookup_alter_ne by assumption. reflexivity.
Qed.

(** Stopping, starting and scrubbing keep the clip and the time scale of a
    binding, hence its effective duration. *)
Lemma AnimatedCamera_stop_duration a :
  getEffectiveDuration (AnimatedCamera_stop a) = getEffectiveDuration a.
Proof.
  unfold AnimatedCamera_stop, action_stop, action_reset, getEffectiveDuration.
  destruct (mixer_active a); [destruct (mixer_original a) |]; reflexivity.
Qed.

Lemma effectiveDurationOf_alter f i l :
  (forall a, getEffectiveDuration (f a) = getEffectiveDuration a) ->
  forall shot, effectiveDurationOf (alter f i l) shot = effectiveDurationOf l shot.
Proof.
  intros Hf shot. unfold effectiveDurationOf.
  destruct (decide (i = shot)) as [<- | Hne].
  - rewrite list_lookup_alter_eq. destruct (l !! i); simpl; [apply Hf | reflexivity].
  - rewrite list_lookup_alter_ne by assumption. reflexivity.
Qed.

Lemma effectiveDurationOf_stop_all seq l shot :
  effectiveDurationOf (stop_all seq l) shot = effectiveDurationOf l shot.
Proof.
  revert l. induction seq as [| i seq IH]; intros l; [reflexivity |].
  unfold stop_all in *. simpl. rewrite IH.
  apply effectiveDurationOf_alter, AnimatedCamera_stop_duration.
Qed.

Lemma find_target_ext dur dur' seq k acc time :
  (forall shot, dur shot = dur' shot) ->
  find_target dur seq k acc time = find_target dur' seq k acc time.
Proof.
  intros Hd. revert k acc. induction seq as [| shot seq IH]; intros k acc; [reflexivity |].
  simpl. rewrite Hd, IH. reflexivity.
Qed.

Lemma scrub_target_ext dur dur' seq time :
  (forall shot, dur shot = dur' shot) ->
  scrub_target dur seq time = scrub_target dur' seq time.
Proof.
  intros Hd. unfold scrub_target.
  rewrite (find_target_ext dur dur') by assumption.
  destruct (find_target dur' seq 0 zero time); [reflexivity |].
  destruct (last seq); [rewrite Hd |]; reflexivity.
Qed.

Lemma scrub_target_is_Some dur seq time :
  seq <> [] -> is_Some (scrub_target dur seq time).
Proof.
  intros Hne. unfold scrub_target.
  destruct (find_target dur seq 0 zero time); [eexists; reflexivity |].
  destruct (last seq) eqn:Hl; [eexists; reflexivity |].
  apply last_None in Hl. contradiction.
Qed.

(** [scrub] in one piece, for a non-empty sequence: the target is chosen
    on the effective durations the shots have before the call. *)
Lemma scrub_spec s seq time cam :
  sequence s = Some seq ->
  seq <> [] ->
  exists k target scrubTime,
    scrub_target (effectiveDurationOf (shots s)) seq time = Some (k, target, scrubTime) /\
    let l' := scrubbed_shots seq target scrubTime (shots s) in
    let cam' := match l' !! target with
                | Some a => syncCamera cam (camera a)
                | None => cam
                end in
    scrub time cam s
    = (set_trace (trace s ++ (playheadTime s, MixerUpdate target zero) ::
                    match l' !! target with
                    | Some _ => [(playheadTime s, ProjectionUpdated cam')]
                    | None => []
                    end)
         (set_shots l' (set_isPlaying false s)), cam').
Proof.
  intros Hseq Hne.
  destruct (scrub_target_is_Some (effectiveDurationOf (shots s)) seq time Hne)
    as ([[k target] scrubTime] & Htarget).
  exists k, target, scrubTime. split; [exact Htarget |].
  unfold scrub. rewrite Hseq.
  destruct seq as [| shot0 seq0]; [contradiction |].
  rewrite foldl_on_shot_stop.
  cbv zeta.
  change (shots (set_shots (stop_all (shot0 :: seq0) (shots (set_isPlaying false s)))
                   (set_isPlaying false s)))
    with (stop_all (shot0 :: seq0) (shots s)).
  rewrite (scrub_target_ext _ (effectiveDurationOf (shots s)))
    by (intros; apply effectiveDurationOf_stop_all).
  rewrite Htarget, AnimatedCamera_scrubTo_spec.
  unfold scrubbed_shots. simpl.
  destruct (alter (scrub_binding scrubTime) target _ !! target) as [a |];
    unfold emit, on_shot; simpl; [| reflexivity].
  rewrite <- app_assoc. reflexivity.
Qed.

Ltac bookkeeping :=
  repeat split; first [lia | tauto | intros; reflexivity].

Lemma script_called_addFrameScript k frame cb baseFPS s :
  script_called k (addFrameScript frame cb baseFPS s) = script_called k s.
Proof.
  unfold script_called, addFrameScript. simpl.
  destruct (decide (k < length (frameScripts s))%nat) as [Hlt | Hge].
  - rewrite lookup_app_l by assumption. reflexivity.
  - rewrite lookup_app_r by lia.
    rewrite (lookup_ge_None_2 (frameScripts s) k) by lia.
    destruct (k - length (frameScripts s))%nat as [| n]; reflexivity.
Qed.

Lemma script_called_marked k now s s' :
  frameScripts s' = map (mark now) (frameScripts s) ->
  script_called k s'
  = script_called k s || match frameScripts s !! k with
                         | Some f => due now f
                         | None => false
                         end.
Proof.
  intros Hfs. unfold script_called. rewrite Hfs.
  change (map (mark now) (frameScripts s)) with (mark now <$> frameScripts s).
  rewrite list_lookup_fmap.
  destruct (frameScripts s !! k) as [f |]; simpl; [apply is_called_mark | reflexivity].
Qed.

Lemma due_not_called now f : due now f = true -> is_called f = false.
Proof.
  unfold due. intros H. apply andb_prop in H as [_ H].
  destruct (is_called f); [discriminate | reflexivity].
Qed.

(** A call other than [play] does not take a script call back, never
    gives a script more than its budget, and never clears a flag. *)
Lemma perform_scripts c s k :
  is_play c = false ->
  (fires k (trace s) <= fires k (trace (perform c s)))%nat /\
  (fires k (trace (perform c s)) + budget k (perform c s)
   <= fires k (trace s) + budget k s)%nat /\
  (script_called k s = true -> script_called k (perform c s) = true).
Proof.
  intros Hc. destruct c as [names | frame cb fps | name d | oc | time cam | delta | v | v];
    try discriminate; simpl.
  - unfold budget, script_called; simpl; bookkeeping.
  - unfold budget. rewrite script_called_addFrameScript. simpl.
    bookkeeping.
  - unfold setShotDuration.
    destruct (find_shot name (shots s) ≫= _) as [[shot a] |]; simpl;
      unfold budget, script_called; simpl; rewrite fires_app; simpl;
      (unfold fires; simpl; bookkeeping).
  - destruct (sequence s) as [[| shot0 seq0] |] eqn:Hseq.
    + rewrite scrub_unconfigured by (right; assumption). simpl.
      bookkeeping.
    + destruct (scrub_spec s (shot0 :: seq0) time cam Hseq ltac:(discriminate))
        as (j & target & scrubTime & _ & Heq).
      cbv zeta in Heq. rewrite Heq. simpl.
      unfold budget, script_called. simpl. rewrite fires_app.
      assert (Hz : forall l : list (num * Effect),
                 (exists e, l = [(playheadTime s, ProjectionUpdated e)]) \/ l = [] ->
                 fires k ((playheadTime s, MixerUpdate target zero) :: l) = 0%nat).
      { intros l [[e ->] | ->]; reflexivity. }
      rewrite Hz.
      * bookkeeping.
      * destruct (scrubbed_shots _ _ _ _ !! target); [left; eexists; reflexivity | right; reflexivity].
    + rewrite scrub_unconfigured by (left; assumption). simpl.
      bookkeeping.
  - destruct (update delta s) as [s' |] eqn:Hup; [| bookkeeping].
    apply update_scripts in Hup as [-> | (now & pre & Hfs & Htr & Hpre)];
      [bookkeeping |].
    unfold budget. rewrite (script_called_marked k now s s' Hfs), Htr.
    rewrite !fires_app, Hpre, fires_fired_calls.
    unfold script_called.
    destruct (frameScripts s !! k) as [f |]; simpl; [| bookkeeping].
    destruct (due now f) eqn:Hdue.
    + rewrite (due_not_called _ _ Hdue). simpl. bookkeeping.
    + rewrite orb_false_r. bookkeeping.
  - unfold budget, script_called; simpl; bookkeeping.
  - unfold budget, script_called; simpl; bookkeeping.
Qed.

Lemma perform_all_scripts cs s k :
  forallb (fun c => negb (is_play c)) cs = true ->
  (fires k (trace s) <= fires k (trace (perform_all cs s)))%nat /\
  (fires k (trace (perform_all cs s)) + budget k (perform_all cs s)
   <= fires k (trace s) + budget k s)%nat /\
  (script_called k s = true -> script_called k (perform_all cs s) = true).
Proof.
  revert s. induction cs as [| c cs IH]; intros s Hcs.
  - simpl. bookkeeping.
  - simpl in Hcs. apply andb_prop in Hcs as [Hc Hcs].
    apply negb_true_iff in Hc.
    destruct (perform_scripts c s k Hc) as (A1 & A2 & A3).
    destruct (IH (perform c s) Hcs) as (B1 & B2 & B3).
    unfold perform_all in *. simpl.
    bookkeeping.
Qed.

Lemma onShotFinished_frameScripts s : frameScripts (onShotFinished s) = frameScripts s.
Proof.
  destruct (advanced_by_onShotFinished s) as (evs & (_ & H & _) & _). exact H.
Qed.

Lemma no_fires_flag_set (pre : list (num * Effect)) :
  (forall k, fires k pre = 0%nat) -> forallb flag_set_at_call pre = true.
Proof.
  induction pre as [| [t e] pre IH]; intros Hnone; [reflexivity |].
  simpl. rewrite IH.
  - destruct e as [| | | | k cb flag |]; try reflexivity.
    specialize (Hnone k). unfold fires in Hnone. simpl in Hnone.
    rewrite Nat.eqb_refl in Hnone. discriminate Hnone.
  - intros k. specialize (Hnone k). unfold fires in *. simpl in Hnone.
    destruct (is_call_of k e); [discriminate Hnone | exact Hnone].
Qed.

Lemma fired_calls_flag_set (t : num) j now fs :
  forallb flag_set_at_call (map (pair t) (fired_calls_from j now fs)) = true.
Proof.
  revert j. induction fs as [| f fs IH]; intros j; [reflexivity |].
  rewrite fired_calls_from_cons, map_app, forallb_app, IH.
  destruct (due now f); reflexivity.
Qed.

(** The trace only grows, and every script call it gets is one made with
    the flag of the script already set. *)
Lemma perform_trace c s :
  exists ext, trace (perform c s) = trace s ++ ext /\ forallb flag_set_at_call ext = true.
Proof.
  destruct c as [names | frame cb fps | name d | oc | time cam | delta | v | v]; simpl.
  - exists []. rewrite app_nil_r. split; reflexivity.
  - exists []. rewrite app_nil_r. split; reflexivity.
  - unfold setShotDuration.
    destruct (find_shot name (shots s) ≫= _) as [[shot a] |]; simpl;
      eexists; (split; [reflexivity | reflexivity]).
  - unfold play. destruct (sequence s) as [[| shot0 seq0] |];
      try (eexists; split; [reflexivity | reflexivity]).
    set (s1 := set_currentShotIndex 0 _).
    destruct (advanced_by_playCurrentShot s1) as (_ & _ & _ & _ & _ & _ & Htr).
    exists []. rewrite Htr. split; reflexivity.
  - destruct (sequence s) as [[| shot0 seq0] |] eqn:Hseq.
    + rewrite scrub_unconfigured by (right; assumption).
      exists []. rewrite app_nil_r. split; reflexivity.
    + destruct (scrub_spec s (shot0 :: seq0) time cam Hseq ltac:(discriminate))
        as (j & target & scrubTime & _ & Heq).
      cbv zeta in Heq. rewrite Heq. simpl.
      eexists. split; [reflexivity |].
      destruct (scrubbed_shots _ _ _ _ !! target); reflexivity.
    + rewrite scrub_unconfigured by (left; assumption).
      exists []. rewrite app_nil_r. split; reflexivity.
  - destruct (update delta s) as [s' |] eqn:Hup;
      [| exists []; rewrite app_nil_r; split; reflexivity].
    apply update_scripts in Hup as [-> | (now & pre & _ & Htr & Hpre)];
      [exists []; rewrite app_nil_r; split; reflexivity |].
    eexists. split; [exact Htr |].
    rewrite forallb_app, (no_fires_flag_set pre Hpre). apply fired_calls_flag_set.
  - exists []. rewrite app_nil_r. split; reflexivity.
  - exists []. rewrite app_nil_r. split; reflexivity.
Qed.

Lemma perform_all_trace cs s :
  exists ext, trace (perform_all cs s) = trace s ++ ext /\
              forallb flag_set_at_call ext = true.
Proof.
  revert s. induction cs as [| c cs IH]; intros s.
  - exists []. simpl. rewrite app_nil_r. split; reflexivity.
  - destruct (perform_trace c s) as (ext1 & H1 & F1).
    destruct (IH (perform c s)) as (ext2 & H2 & F2).
    exists (ext1 ++ ext2). unfold perform_all in *. simpl.
    rewrite H2, H1, <- app_assoc, forallb_app, F1, F2. split; reflexivity.
Qed.

(** C6. In a session, that is over any calls that are not [play], the
    script at position [k] is called at most once; a script whose flag is
    set is not called again and keeps its flag; a script that was called
    has its flag set, and had it set already when its callback was
    entered. [play] on a non-empty sequence clears every flag, and
    [onShotFinished], which is where a looping sequence wraps around,
    leaves the scripts and their flags as they are. *)
Theorem script_fires_once_per_session (s : ShotsManager) (cs : list Call) (k : nat) :
  forallb (fun c => negb (is_play c)) cs = true ->
  let s' := perform_all cs s in
  (fires k (trace s') <= fires k (trace s) + 1)%nat /\
  (script_called k s = true ->
     script_called k s' = true /\ fires k (trace s') = fires k (trace s)) /\
  (fires k (trace s') = (fires k (trace s) + 1)%nat -> script_called k s' = true) /\
  (exists ext, trace s' = trace s ++ ext /\ forallb flag_set_at_call ext = true) /\
  (forall onCompleted first rest,
     sequence s' = Some (first :: rest) -> script_called k (play onCompleted s') = false) /\
  frameScripts (onShotFinished s') = frameScripts s'.
Proof.
  intros Hcs s'.
  destruct (perform_all_scripts cs s k Hcs) as (H1 & H2 & H3). fold s' in H1, H2, H3.
  unfold budget in H2.
  split; [| split; [| split; [| split; [| split]]]].
  - destruct (script_called k s'), (script_called k s); lia.
  - intros Hcalled. rewrite Hcalled in H2. split; [tauto |].
    destruct (script_called k s'); lia.
  - intros Hfired. destruct (script_called k s'); [reflexivity |].
    destruct (script_called k s); lia.
  - apply perform_all_trace.
  - intros oc first rest Hseq. unfold play. rewrite Hseq.
    set (s1 := set_currentShotIndex 0 _).
    destruct (advanced_by_playCurrentShot s1) as (_ & Hfs & _).
    unfold script_called. rewrite Hfs. subst s1. simpl.
    change (map (set_called (Some false)) (frameScripts s'))
      with (set_called (Some false) <$> frameScripts s').
    rewrite list_lookup_fmap. destruct (frameScripts s' !! k); reflexivity.
  - apply onShotFinished_frameScripts.
Qed.

Lemma restore_apply_tracks c t p : restore_tracks c p (apply_tracks c t p) = p.
Proof.
  destruct p, c as [? ? [?|] [?|] [?|]]; reflexivity.
Qed.

Lemma syncCamera_twice cam p : syncCamera (syncCamera cam p) p = syncCamera cam p.
Proof. reflexivity. Qed.

Lemma AnimatedCamera_stop_idem a :
  AnimatedCamera_stop (AnimatedCamera_stop a) = AnimatedCamera_stop a.
Proof.
  unfold AnimatedCamera_stop, action_stop, action_reset.
  destruct (mixer_active a); [destruct (mixer_original a) |]; reflexivity.
Qed.

Lemma AnimatedCamera_stop_inactive a : mixer_active (AnimatedCamera_stop a) = false.
Proof.
  unfold AnimatedCamera_stop, action_stop, action_reset.
  destruct (mixer_active a); [destruct (mixer_original a) |]; reflexivity.
Qed.

(** Scrubbing a stopped binding, stopping it and scrubbing it again gives
    what the first scrubbing gave: stopping restores the camera the mixer
    saved, and scrubbing saves it anew. *)
Lemma scrub_stop_scrub time a :
  let b := AnimatedCamera_stop a in
  scrub_binding time (AnimatedCamera_stop (scrub_binding time b)) = scrub_binding time b.
Proof.
  intros b.
  assert (Hb : mixer_active b = false) by apply AnimatedCamera_stop_inactive.
  assert (Hbt : action_time b = zero /\ action_paused b = false).
  { subst b. unfold AnimatedCamera_stop, action_stop, action_reset.
    destruct (mixer_active a); [destruct (mixer_original a) |]; split; reflexivity. }
  destruct Hbt as [Hbt Hbp].
  clearbody b. destruct b as [cam cl ts tm pa act orig cb]. simpl in *. subst.
  unfold scrub_binding, AnimatedCamera_stop, action_stop, action_play, action_reset,
    evaluate, scrub_action_time.
  simpl. rewrite restore_apply_tracks. reflexivity.
Qed.

Lemma stop_all_lookup seq l i :
  stop_all seq l !! i
  = (if decide (i ∈ seq) then AnimatedCamera_stop else id) <$> l !! i.
Proof.
  revert l. induction seq as [| i0 seq IH]; intros l.
  - simpl. destruct (decide (i ∈ [])) as [H | _]; [inversion H |].
    destruct (l !! i); reflexivity.
  - unfold stop_all in *. simpl. rewrite IH.
    destruct (decide (i0 = i)) as [-> | Hne].
    + rewrite list_lookup_alter_eq.
      destruct (decide (i ∈ i :: seq)) as [_ | Hn]; [| exfalso; apply Hn; left].
      destruct (l !! i) as [a |]; simpl; [| reflexivity].
      destruct (decide (i ∈ seq)); simpl; [rewrite AnimatedCamera_stop_idem |]; reflexivity.
    + rewrite list_lookup_alter_ne by assumption.
      destruct (decide (i ∈ seq)) as [Hin | Hnin].
      * destruct (decide (i ∈ i0 :: seq)) as [_ | Hn]; [reflexivity |].
        exfalso. apply Hn. right. assumption.
      * destruct (decide (i ∈ i0 :: seq)) as [Hin | _]; [| reflexivity].
        apply elem_of_cons in Hin as [-> | Hin]; contradiction.
Qed.

Lemma scrubbed_shots_lookup seq target scrubTime l i :
  target ∈ seq ->
  scrubbed_shots seq target scrubTime l !! i
  = (if decide (i = target) then scrub_binding scrubTime ∘ AnimatedCamera_stop
     else if decide (i ∈ seq) then AnimatedCamera_stop else id) <$> l !! i.
Proof.
  intros Hin. unfold scrubbed_shots.
  destruct (decide (i = target)) as [-> | Hne].
  - rewrite list_lookup_alter_eq, stop_all_lookup.
    destruct (decide (target ∈ seq)); [| contradiction].
    destruct (l !! target); reflexivity.
  - rewrite list_lookup_alter_ne by congruence. apply stop_all_lookup.
Qed.

Lemma scrub_binding_duration time a :
  getEffectiveDuration (scrub_binding time a) = getEffectiveDuration a.
Proof.
  destruct (scrub_binding_fields time a) as (_ & _ & _ & Hc & Hts & _).
  unfold getEffectiveDuration. rewrite Hc, Hts. reflexivity.
Qed.

Lemma effectiveDurationOf_scrubbed seq target scrubTime l shot :
  effectiveDurationOf (scrubbed_shots seq target scrubTime l) shot
  = effectiveDurationOf l shot.
Proof.
  unfold scrubbed_shots.
  rewrite effectiveDurationOf_alter by apply scrub_binding_duration.
  apply effectiveDurationOf_stop_all.
Qed.

Lemma scrubbed_shots_idem seq target scrubTime l :
  target ∈ seq ->
  scrubbed_shots seq target scrubTime (scrubbed_shots seq target scrubTime l)
  = scrubbed_shots seq target scrubTime l.
Proof.
  intros Hin. apply list_eq. intros i.
  rewrite (scrubbed_shots_lookup seq target scrubTime (scrubbed_shots _ _ _ _)) by assumption.
  rewrite scrubbed_shots_lookup by assumption.
  destruct (l !! i) as [a |]; [| reflexivity]. simpl.
  destruct (decide (i = target)) as [-> | Hne].
  - simpl. f_equal. apply scrub_stop_scrub.
  - destruct (decide (i ∈ seq)); simpl; [rewrite AnimatedCamera_stop_idem |]; reflexivity.
Qed.

Lemma find_target_lookup dur seq k0 acc time k target scrubTime :
  find_target dur seq k0 acc time = Some (k, target, scrubTime) ->
  (k0 <= k)%nat /\ seq !! (k - k0)%nat = Some target.
Proof.
  revert k0 acc. induction seq as [| shot seq IH]; intros k0 acc; [discriminate |].
  simpl. destruct (geb time acc && ltb time (add acc (dur shot))).
  - intros [= <- <- <-]. split; [lia |]. replace (k0 - k0)%nat with 0%nat by lia. reflexivity.
  - intros H. apply IH in H as [Hle Hl]. split; [lia |].
    replace (k - k0)%nat with (S (k - S k0)) by lia. exact Hl.
Qed.

Lemma scrub_target_lookup dur seq time k target scrubTime :
  scrub_target dur seq time = Some (k, target, scrubTime) ->
  seq !! k = Some target.
Proof.
  unfold scrub_target.
  destruct (find_target dur seq 0 zero time) as [r |] eqn:Hf.
  - intros [= ->]. apply find_target_lookup in Hf as [_ Hl].
    replace (k - 0)%nat with k in Hl by lia. exact Hl.
  - destruct (last seq) as [lastShot |] eqn:Hl; [| discriminate].
    intros [= <- <- <-]. rewrite <- last_lookup. exact Hl.
Qed.

(** C8, for a non-empty sequence. Two calls of [scrub] with the same time,
    one after the other on the same camera: the camera has the same
    position, quaternion and fov after the second call as after the first,
    and so have the shots; the playhead is never changed; the manager is
    left not playing; every shot of the sequence is left halted (the target
    paused, the others stopped); the index is not changed, and no finish
    callback, completion callback or script is called. *)
Theorem scrub_idempotent (s : ShotsManager) (seq : list nat) (time : num)
    (cam : PerspectiveCamera) :
  sequence s = Some seq ->
  seq <> [] ->
  let r1 := scrub time cam s in
  let r2 := scrub time (snd r1) (fst r1) in
  snd r2 = snd r1 /\
  shots (fst r2) = shots (fst r1) /\
  playheadTime (fst r1) = playheadTime s /\
  playheadTime (fst r2) = playheadTime s /\
  isPlaying (fst r1) = false /\
  isPlaying (fst r2) = false /\
  (forall shot a, shot ∈ seq -> shots (fst r1) !! shot = Some a -> halted a) /\
  currentShotIndex (fst r2) = currentShotIndex s /\
  exists evs,
    trace (fst r2) = trace s ++ map (pair (playheadTime s)) evs /\
    forallb (fun e => negb (is_shot_event e || is_script_call e)) evs = true.
Proof.
  intros Hseq Hne r1 r2.
  destruct (scrub_spec s seq time cam Hseq Hne) as (k & target & scrubTime & Htarget & H1).
  cbv zeta in H1.
  set (l1 := scrubbed_shots seq target scrubTime (shots s)) in *.
  set (cam1 := match l1 !! target with
               | Some a => syncCamera cam (camera a)
               | None => cam
               end) in *.
  set (s1 := set_trace _ _) in H1.
  assert (Hin : target ∈ seq).
  { apply scrub_target_lookup in Htarget. eapply list_elem_of_lookup_2. exact Htarget. }
  assert (Hseq1 : sequence s1 = Some seq) by exact Hseq.
  destruct (scrub_spec s1 seq time cam1 Hseq1 Hne) as (k' & target' & scrubTime' & Htarget' & H2).
  cbv zeta in H2.
  assert (Hsame : scrub_target (effectiveDurationOf (shots s1)) seq time
                  = Some (k, target, scrubTime)).
  { rewrite <- Htarget. apply scrub_target_ext.
    intros shot. subst s1 l1. simpl. apply effectiveDurationOf_scrubbed. }
  rewrite Hsame in Htarget'. injection Htarget' as <- <- <-.
  assert (Hl2 : scrubbed_shots seq target scrubTime (shots s1) = l1).
  { subst s1 l1. simpl. apply scrubbed_shots_idem. exact Hin. }
  rewrite Hl2 in H2.
  assert (Hcam : match l1 !! target with
                 | Some a => syncCamera cam1 (camera a)
                 | None => cam1
                 end = cam1).
  { subst cam1. destruct (l1 !! target); reflexivity. }
  rewrite Hcam in H2.
  assert (Hr1 : r1 = (s1, cam1)) by exact H1.
  assert (Hr2 : r2 = (set_trace
                        (trace s1 ++ (playheadTime s1, MixerUpdate target zero) ::
                           match l1 !! target with
                           | Some _ => [(playheadTime s1, ProjectionUpdated cam1)]
                           | None => []
                           end)
                        (set_shots l1 (set_isPlaying false s1)), cam1)).
  { subst r2. rewrite Hr1. exact H2. }
  rewrite Hr2, Hr1. simpl.
  repeat split.
  - intros shot a Hshot Ha. unfold l1 in Ha.
    rewrite scrubbed_shots_lookup in Ha by assumption.
    destruct (shots s !! shot) as [a0 |]; [| discriminate].
    simpl in Ha. injection Ha as <-.
    destruct (decide (shot = target)).
    + right. simpl.
      destruct (scrub_binding_fields scrubTime (AnimatedCamera_stop a0)) as (_ & Hp & _).
      exact Hp.
    + left. destruct (decide (shot ∈ seq)); [| contradiction].
      apply AnimatedCamera_stop_inactive.
  - destruct (l1 !! target).
    + exists [MixerUpdate target zero; ProjectionUpdated cam1;
              MixerUpdate target zero; ProjectionUpdated cam1].
      split; [| reflexivity]. simpl. rewrite <- app_assoc. reflexivity.
    + exists [MixerUpdate target zero; MixerUpdate target zero].
      split; [| reflexivity]. simpl. rewrite <- app_assoc. reflexivity.
Qed.

(** *** Which shot [scrub] selects *)

Lemma shot_start_S dur seq k shot :
  seq !! k = Some shot ->
  shot_start dur seq (S k) = add (shot_start dur seq k) (dur shot).
Proof.
  intros Hk. unfold shot_start. rewrite (take_S_r _ _ _ Hk), foldl_app. reflexivity.
Qed.

(** The search, started at position [length pre] of [pre ++ seq] with the
    time accumulated over [pre]. *)
Lemma find_target_first dur pre seq time k shot :
  seq !! k = Some shot ->
  in_interval dur (pre ++ seq) (length pre + k) shot time = true ->
  (forall j shot', (j < k)%nat -> seq !! j = Some shot' ->
                   in_interval dur (pre ++ seq) (length pre + j) shot' time = false) ->
  find_target dur seq (length pre) (shot_start dur (pre ++ seq) (length pre)) time
  = Some ((length pre + k)%nat, shot, sub time (shot_start dur (pre ++ seq) (length pre + k))).
Proof.
  revert pre k. induction seq as [| shot0 seq IH]; intros pre k Hk Hin Hbefore; [discriminate |].
  simpl. destruct k as [| k].
  - injection Hk as ->. replace (length pre + 0)%nat with (length pre) in * by lia.
    unfold in_interval in Hin. rewrite Hin. reflexivity.
  - pose proof (Hbefore 0%nat shot0 ltac:(lia) eq_refl) as H0.
    replace (length pre + 0)%nat with (length pre) in H0 by lia.
    unfold in_interval in H0. rewrite H0.
    assert (Hstart : add (shot_start dur (pre ++ shot0 :: seq) (length pre)) (dur shot0)
                     = shot_start dur ((pre ++ [shot0]) ++ seq) (length (pre ++ [shot0]))).
    { rewrite <- app_assoc. simpl. rewrite length_app. simpl.
      replace (length pre + 1)%nat with (S (length pre)) by lia.
      symmetry. apply shot_start_S.
      rewrite lookup_app_r by lia. replace (length pre - length pre)%nat with 0%nat by lia.
      reflexivity. }
    rewrite Hstart.
    replace (S (length pre)) with (length (pre ++ [shot0])) by (rewrite length_app; simpl; lia).
    assert (Hlist : pre ++ shot0 :: seq = (pre ++ [shot0]) ++ seq)
      by (rewrite <- app_assoc; reflexivity).
    assert (Hpos : forall j, (length pre + S j = length (pre ++ [shot0]) + j)%nat)
      by (intros j; rewrite length_app; simpl; lia).
    rewrite (IH (pre ++ [shot0]) k).
    + rewrite Hlist, Hpos. reflexivity.
    + exact Hk.
    + rewrite <- Hlist, <- Hpos. exact Hin.
    + intros j shot' Hj Hl. rewrite <- Hlist, <- Hpos.
      apply (Hbefore (S j)); [lia | exact Hl].
Qed.

Lemma find_target_none dur pre seq time :
  (forall j shot', seq !! j = Some shot' ->
                   in_interval dur (pre ++ seq) (length pre + j) shot' time = false) ->
  find_target dur seq (length pre) (shot_start dur (pre ++ seq) (length pre)) time = None.
Proof.
  revert pre. induction seq as [| shot0 seq IH]; intros pre Hnone; [reflexivity |].
  simpl.
  pose proof (Hnone 0%nat shot0 eq_refl) as H0.
  replace (length pre + 0)%nat with (length pre) in H0 by lia.
  unfold in_interval in H0. rewrite H0.
  assert (Hstart : add (shot_start dur (pre ++ shot0 :: seq) (length pre)) (dur shot0)
                   = shot_start dur ((pre ++ [shot0]) ++ seq) (length (pre ++ [shot0]))).
  { rewrite <- app_assoc. simpl. rewrite length_app. simpl.
    replace (length pre + 1)%nat with (S (length pre)) by lia.
    symmetry. apply shot_start_S.
    rewrite lookup_app_r by lia. replace (length pre - length pre)%nat with 0%nat by lia.
    reflexivity. }
  rewrite Hstart.
  replace (S (length pre)) with (length (pre ++ [shot0])) by (rewrite length_app; simpl; lia).
  apply IH. intros j shot' Hl.
  replace ((pre ++ [shot0]) ++ seq) with (pre ++ shot0 :: seq)
    by (rewrite <- app_assoc; reflexivity).
  replace (length (pre ++ [shot0]) + j)%nat with (length pre + S j)%nat
    by (rewrite length_app; simpl; lia).
  apply (Hnone (S j)). exact Hl.
Qed.

(** The target of [scrub]: the first position whose interval has [time],
    at [time - start]; the last position at its duration if there is none. *)
Lemma scrub_target_first dur seq time k shot :
  seq !! k = Some shot ->
  in_interval dur seq k shot time = true ->
  (forall j shot', (j < k)%nat -> seq !! j = Some shot' ->
                   in_interval dur seq j shot' time = false) ->
  scrub_target dur seq time = Some (k, shot, sub time (shot_start dur seq k)).
Proof.
  intros Hk Hin Hbefore. unfold scrub_target.
  pose proof (find_target_first dur [] seq time k shot Hk Hin Hbefore) as H.
  simpl in H. unfold shot_start at 1 in H. simpl in H. rewrite H. reflexivity.
Qed.

Lemma scrub_target_last dur seq time lastShot :
  last seq = Some lastShot ->
  (forall j shot', seq !! j = Some shot' -> in_interval dur seq j shot' time = false) ->
  scrub_target dur seq time = Some (Nat.pred (length seq), lastShot, dur lastShot).
Proof.
  intros Hlast Hnone. unfold scrub_target.
  pose proof (find_target_none dur [] seq time Hnone) as H.
  simpl in H. unfold shot_start in H. simpl in H. rewrite H, Hlast. reflexivity.
Qed.

Lemma scrub_selects_target s seq time cam k shot scrubTime a :
  sequence s = Some seq ->
  shots s !! shot = Some a ->
  scrub_target (effectiveDurationOf (shots s)) seq time = Some (k, shot, scrubTime) ->
  selects s time cam shot scrubTime.
Proof.
  intros Hseq Ha Htarget.
  assert (Hne : seq <> []).
  { intros ->. apply scrub_target_lookup in Htarget. discriminate. }
  assert (Hin : shot ∈ seq).
  { apply scrub_target_lookup in Htarget. eapply list_elem_of_lookup_2. exact Htarget. }
  destruct (scrub_spec s seq time cam Hseq Hne) as (k' & target & T & Htarget' & Heq).
  rewrite Htarget in Htarget'. injection Htarget' as <- <- <-.
  cbv zeta in Heq.
  assert (Hl : scrubbed_shots seq shot scrubTime (shots s) !! shot
               = Some (scrub_binding scrubTime (AnimatedCamera_stop a))).
  { rewrite scrubbed_shots_lookup by assumption. rewrite Ha.
    destruct (decide (shot = shot)); [reflexivity | contradiction]. }
  rewrite Hl in Heq. exists a. rewrite Heq. simpl. repeat split; assumption.
Qed.

Lemma called_positions_fired_calls j now fs :
  StronglySorted lt (called_positions (fired_calls_from j now fs)) /\
  Forall (le j) (called_positions (fired_calls_from j now fs)).
Proof.
  revert j. induction fs as [| f fs IH]; intros j.
  - split; constructor.
  - rewrite fired_calls_from_cons. destruct (IH (S j)) as [Hsorted Hge].
    assert (Hgt : Forall (lt j) (called_positions (fired_calls_from (S j) now fs))).
    { eapply Forall_impl; [exact Hge |]. intros x Hx. simpl in Hx. lia. }
    assert (Hge' : Forall (le j) (called_positions (fired_calls_from (S j) now fs))).
    { eapply Forall_impl; [exact Hge |]. intros x Hx. simpl in Hx. lia. }
    destruct (due now f); simpl.
    + split; constructor; [exact Hsorted | exact Hgt | lia | exact Hge'].
    + split; assumption.
Qed.

(** *** Reconfiguring during playback *)

(** [update] with the index past the end of the sequence: a fault if there
    is a target camera to write; else only the playhead and the scripts
    move. *)
Lemma update_past_end (s : ShotsManager) (seq : list nat) (delta : num) :
  isPlaying s = true ->
  sequence s = Some seq ->
  Z.of_nat (length seq) <= currentShotIndex s ->
  match targetCamera s with
  | Some _ => update delta s = TypeError
  | None =>
      exists s', update delta s = Ok s' /\
                 shots s' = shots s /\
                 currentShotIndex s' = currentShotIndex s /\
                 playheadTime s' = add (playheadTime s) delta
  end.
Proof.
  intros Hplay Hseq Hidx. unfold update. rewrite Hplay, Hseq. simpl.
  destruct (Z.ltb_spec (currentShotIndex s) 0) as [? | _]; [lia |].
  assert (Hnone : at_index seq (currentShotIndex s) = None).
  { unfold at_index. destruct (Z.ltb_spec (currentShotIndex s) 0); [reflexivity |].
    apply lookup_ge_None_2. lia. }
  destruct (targetCamera s) as [tc |].
  - rewrite Hnone. reflexivity.
  - simpl. destruct (Z.ltb_spec (currentShotIndex s) (Z.of_nat (length seq))); [lia |].
    eexists. split; [reflexivity |]. repeat split.
Qed.

Lemma find_shot_Some name l shot :
  find_shot name l = Some shot <->
  exists a, l !! shot = Some a /\ clip_name (clip a) = name /\
            forall j a', (j < shot)%nat -> l !! j = Some a' -> clip_name (clip a') <> name.
Proof.
  unfold find_shot. split.
  - destruct (list_find _ l) as [[i a] |] eqn:Hf; [| discriminate].
    simpl. intros [= ->]. apply list_find_Some in Hf as (Hl & Hn & Hb).
    exists a. repeat split; try assumption.
    intros j a' Hj Hl'. exact (Hb j a' Hl' Hj).
  - intros (a & Hl & Hn & Hb).
    assert (Hf : list_find (fun a => clip_name (clip a) = name) l = Some (shot, a)).
    { apply list_find_Some. repeat split; try assumption.
      intros j a' Hl' Hj. exact (Hb j a' Hj Hl'). }
    rewrite Hf. reflexivity.
Qed.

Lemma find_shot_None name l :
  find_shot name l = None <-> forall a, a ∈ l -> clip_name (clip a) <> name.
Proof.
  unfold find_shot. destruct (list_find _ l) as [[i a] |] eqn:Hf; simpl.
  - split; [discriminate |]. intros H. exfalso.
    apply list_find_Some in Hf as (Hl & Hn & _).
    exact (H a (list_elem_of_lookup_2 _ _ _ Hl) Hn).
  - split; [| reflexivity]. intros _.
    apply list_find_None in Hf. intros a Ha. rewrite Forall_forall in Hf. exact (Hf a Ha).
Qed.

(** *** Setting the duration of a shot *)

(** [setShotDuration] on the name of a clip: the first shot with that clip
    name gets the time scale [duration / newDuration], no other shot is
    touched, and [true] comes back. On any other name nothing is touched
    and [false] comes back. *)
Lemma setShotDuration_spec (s : ShotsManager) (shotName : string) (newDuration : num) :
  (forall shot a,
      shots s !! shot = Some a ->
      clip_name (clip a) = shotName ->
      (forall j a', (j < shot)%nat -> shots s !! j = Some a' ->
                    clip_name (clip a') <> shotName) ->
      let r := setShotDuration shotName newDuration s in
      snd r = true /\
      shots (fst r) = <[shot := setDuration newDuration a]> (shots s) /\
      action_timeScale (setDuration newDuration a) = div (duration (clip a)) newDuration /\
      getEffectiveDuration (setDuration newDuration a)
      = div (duration (clip a)) (div (duration (clip a)) newDuration)) /\
  ((forall a, a ∈ shots s -> clip_name (clip a) <> shotName) ->
   let r := setShotDuration shotName newDuration s in
   snd r = false /\ shots (fst r) = shots s).
Proof.
  split.
  - intros shot a Ha Hname Hfirst r.
    assert (Hf : find_shot shotName (shots s) = Some shot).
    { apply find_shot_Some. exists a. repeat split; assumption. }
    subst r. unfold setShotDuration. rewrite Hf. simpl. rewrite Ha. simpl.
    repeat split. apply alter_as_insert. exact Ha.
  - intros Hnone r.
    assert (Hf : find_shot shotName (shots s) = None) by (apply find_shot_None; exact Hnone).
    subst r. unfold setShotDuration. rewrite Hf. simpl. split; reflexivity.
Qed.

End Properties.

(** ** Binary64: the order and the sums

    What the comparisons and the sums of [scrub] need of IEEE 754
    binary64, from the specification of the primitive floats
    ([FloatAxioms], [SpecFloat]). *)

(** *** The order *)

Section SpecOrder.

Lemma compare_cont_Eq m1 m2 : Pos.compare_cont Eq m1 m2 = (m1 ?= m2)%positive.
Proof. reflexivity. Qed.

Lemma SFcompare_antisym x y :
  SFcompare y x = option_map CompOpp (SFcompare x y).
Proof.
  destruct x as [sx | sx | | sx mx ex], y as [sy | sy | | sy my ey]; simpl;
    try reflexivity; try (destruct sx, sy; reflexivity); try (destruct sx; reflexivity);
    try (destruct sy; reflexivity).
  rewrite !compare_cont_Eq.
  rewrite (Z.compare_antisym ex ey), (Pos.compare_antisym mx my).
  destruct sx, sy; simpl; try reflexivity;
    destruct (ex ?= ey); simpl; try reflexivity;
    destruct (mx ?= my)%positive; reflexivity.
Qed.

Lemma SFleb_refl_finite s m e : SFleb (S754_finite s m e) (S754_finite s m e) = true.
Proof.
  unfold SFleb. simpl. rewrite Z.compare_refl, compare_cont_Eq, Pos.compare_refl.
  destruct s; reflexivity.
Qed.

Lemma SFltb_SFleb x y : SFltb x y = true -> SFleb y x = false.
Proof.
  unfold SFltb, SFleb. rewrite (SFcompare_antisym x y).
  destruct (SFcompare x y) as [[] |]; simpl; congruence.
Qed.

Lemma SFleb_SFltb x y : SFleb x y = true -> SFltb y x = false.
Proof.
  unfold SFltb, SFleb. rewrite (SFcompare_antisym x y).
  destruct (SFcompare x y) as [[] |]; simpl; congruence.
Qed.

Lemma SFleb_total x y :
  x <> S754_nan -> y <> S754_nan -> SFltb x y = false -> SFleb y x = true.
Proof.
  intros Hx Hy. unfold SFltb, SFleb. rewrite (SFcompare_antisym x y).
  assert (H : SFcompare x y <> None).
  { destruct x, y; simpl; congruence. }
  destruct (SFcompare x y) as [[] |]; simpl; congruence.
Qed.

Ltac compare_cases :=
  repeat match goal with
  | H : context [(?a ?= ?b)%Z] |- _ => destruct (Z.compare_spec a b); try lia; try discriminate
  | |- context [(?a ?= ?b)%Z] => destruct (Z.compare_spec a b); try lia; try discriminate
  | H : context [Pos.compare_cont Eq ?a ?b] |- _ =>
      change (Pos.compare_cont Eq a b) with (a ?= b)%positive in *;
      destruct (Pos.compare_spec a b); try lia; try discriminate
  | |- context [Pos.compare_cont Eq ?a ?b] =>
      change (Pos.compare_cont Eq a b) with (a ?= b)%positive in *;
      destruct (Pos.compare_spec a b); try lia; try discriminate
  end.

Lemma SFleb_trans x y z : SFleb x y = true -> SFleb y z = true -> SFleb x z = true.
Proof.
  unfold SFleb.
  destruct x as [sx | sx | | sx mx ex], y as [sy | sy | | sy my ey],
           z as [sz | sz | | sz mz ez]; simpl;
    try discriminate; try reflexivity;
    try (destruct sx; try discriminate; try reflexivity);
    try (destruct sy; try discriminate; try reflexivity);
    try (destruct sz; try discriminate; try reflexivity);
    intros H1 H2; compare_cases; subst; compare_cases; try reflexivity.
Qed.

Lemma SFleb_not_nan x y : SFleb x y = true -> x <> S754_nan /\ y <> S754_nan.
Proof. unfold SFleb. destruct x, y; simpl; intros H; split; congruence. Qed.

Lemma SFleb_refl x : x <> S754_nan -> SFleb x x = true.
Proof.
  destruct x as [s | s | | s m e]; intros H; try (destruct s; reflexivity);
    [contradiction | apply SFleb_refl_finite].
Qed.

Lemma SFadd_not_nan prec emax x y :
  SFadd prec emax x y <> S754_nan -> x <> S754_nan /\ y <> S754_nan.
Proof. destruct x, y; simpl; intros H; split; congruence. Qed.

End SpecOrder.

(** *** Rounding does not go below a number of the format *)

Section Rounding.
Variables prec emax : Z.
Hypothesis Hprec : 0 < prec.

Lemma digits2_pos_log2 p : Zpos (digits2_pos p) = Z.log2 (Zpos p) + 1.
Proof.
  assert (H : forall q, digits2_pos q = Pos.size q).
  { induction q; simpl; congruence. }
  rewrite H. destruct p; cbn [Pos.size Z.log2]; rewrite ?Pos2Z.inj_succ; lia.
Qed.

Lemma digits2_bounds p :
  2 ^ (Zpos (digits2_pos p) - 1) <= Zpos p < 2 ^ Zpos (digits2_pos p).
Proof.
  rewrite digits2_pos_log2.
  replace (Z.log2 (Zpos p) + 1 - 1) with (Z.log2 (Zpos p)) by lia.
  replace (Z.log2 (Zpos p) + 1) with (Z.succ (Z.log2 (Zpos p))) by lia.
  apply Z.log2_spec. lia.
Qed.

Lemma iter_xO m d : Zpos (Pos.iter xO m d) = Zpos m * 2 ^ Zpos d.
Proof.
  induction d using Pos.peano_ind.
  - simpl. lia.
  - rewrite Pos.iter_succ, Pos2Z.inj_succ, Z.pow_succ_r by lia.
    rewrite (Pos2Z.inj_xO (Pos.iter xO m d)), IHd. lia.
Qed.

Lemma shl_align_spec mx ex ex' :
  snd (shl_align mx ex ex') = Z.min ex ex' /\
  Zpos (fst (shl_align mx ex ex')) = Zpos mx * 2 ^ (ex - Z.min ex ex').
Proof.
  unfold shl_align. destruct (ex' - ex) as [| d | d] eqn:E; cbn [fst snd].
  - replace (Z.min ex ex') with ex by lia. rewrite Z.sub_diag, Z.pow_0_r. split; lia.
  - replace (Z.min ex ex') with ex by lia. rewrite Z.sub_diag, Z.pow_0_r. split; lia.
  - replace (Z.min ex ex') with ex' by lia. split; [reflexivity |].
    rewrite iter_xO. f_equal. f_equal. pose proof (Pos2Z.opp_pos d). lia.
Qed.

Lemma shr_1_spec mrs : 0 <= shr_m mrs -> shr_m (shr_1 mrs) = shr_m mrs / 2.
Proof.
  destruct mrs as [m r s]. simpl. intros Hm.
  destruct m as [| p | p]; [reflexivity | | lia].
  destruct p as [p | p |]; simpl.
  - rewrite (Pos2Z.inj_xI p). apply Z.div_unique with 1; lia.
  - rewrite (Pos2Z.inj_xO p). apply Z.div_unique with 0; lia.
  - reflexivity.
Qed.

Lemma iter_shr_1_spec p mrs :
  0 <= shr_m mrs -> shr_m (SpecFloat.iter_pos shr_1 p mrs) = shr_m mrs / 2 ^ Zpos p.
Proof.
  revert mrs. induction p as [p IH | p IH |]; intros mrs Hm; simpl SpecFloat.iter_pos.
  - assert (Hp : 0 < 2 ^ Zpos p) by (apply Z.pow_pos_nonneg; lia).
    assert (H1 : 0 <= shr_m (shr_1 mrs)) by (rewrite shr_1_spec by lia; apply Z.div_pos; lia).
    assert (H2 : 0 <= shr_m (SpecFloat.iter_pos shr_1 p (shr_1 mrs)))
      by (rewrite IH by lia; apply Z.div_pos; lia).
    assert (Hpow : 2 ^ Zpos p~1 = 2 * 2 ^ Zpos p * 2 ^ Zpos p).
    { rewrite (Pos2Z.inj_xI p), Z.pow_add_r, (Z.mul_comm 2), Z.pow_mul_r, Z.pow_2_r by lia.
      rewrite Z.pow_1_r. lia. }
    rewrite IH, IH, shr_1_spec, Hpow by lia.
    rewrite !Z.div_div by lia. f_equal. lia.
  - assert (Hp : 0 < 2 ^ Zpos p) by (apply Z.pow_pos_nonneg; lia).
    assert (H2 : 0 <= shr_m (SpecFloat.iter_pos shr_1 p mrs))
      by (rewrite IH by lia; apply Z.div_pos; lia).
    assert (Hpow : 2 ^ Zpos p~0 = 2 ^ Zpos p * 2 ^ Zpos p).
    { rewrite (Pos2Z.inj_xO p), (Z.mul_comm 2), Z.pow_mul_r, Z.pow_2_r by lia. reflexivity. }
    rewrite IH, IH, Hpow by lia.
    rewrite !Z.div_div by lia. f_equal.
  - rewrite shr_1_spec by lia. reflexivity.
Qed.

Lemma shr_record_of_loc_m m l : shr_m (shr_record_of_loc m l) = m.
Proof. destruct l as [| []]; reflexivity. Qed.

Lemma shr_fexp_spec m e l :
  0 <= m ->
  let n := Z.max 0 (fexp prec emax (Zdigits2 m + e) - e) in
  shr_m (fst (shr_fexp prec emax m e l)) = m / 2 ^ n /\
  snd (shr_fexp prec emax m e l) = e + n.
Proof.
  intros Hm n. unfold shr_fexp, shr.
  destruct (fexp prec emax (Zdigits2 m + e) - e) as [| p | p] eqn:E; subst n; simpl.
  - rewrite shr_record_of_loc_m, Z.div_1_r. split; [reflexivity | lia].
  - rewrite iter_shr_1_spec by (rewrite shr_record_of_loc_m; lia).
    rewrite shr_record_of_loc_m. split; reflexivity.
  - rewrite shr_record_of_loc_m, Z.div_1_r. split; [reflexivity | lia].
Qed.

Lemma round_nearest_even_lower q l : q <= round_nearest_even q l.
Proof.
  unfold round_nearest_even. destruct l as [| []]; try lia.
  destruct (Z.even q); lia.
Qed.


Lemma pow2_pos z : 0 <= z -> 0 < 2 ^ z.
Proof. intros. apply Z.pow_pos_nonneg; lia. Qed.

Lemma pow2_split a b : 0 <= a -> 0 <= b -> 2 ^ (a + b) = 2 ^ a * 2 ^ b.
Proof. intros. apply Z.pow_add_r; assumption. Qed.

Lemma canonical_mantissa_spec m e :
  canonical_mantissa prec emax m e = true ->
  SpecFloat.emin prec emax <= e /\ Zpos (digits2_pos m) <= prec /\
  (SpecFloat.emin prec emax < e -> Zpos (digits2_pos m) = prec).
Proof.
  unfold canonical_mantissa, fexp. intros H. apply Z.eqb_eq in H. lia.
Qed.

(** Shifting a mantissa right to its canonical exponent, as [shr_fexp]
    does, does not take the value below a number of the format that is
    not above it. Values are scaled by [2 ^ - emin]. *)
Lemma floor_keeps_bound mx ex X E :
  canonical_mantissa prec emax mx ex = true ->
  0 < X -> SpecFloat.emin prec emax <= E ->
  Zpos mx * 2 ^ (ex - SpecFloat.emin prec emax) <= X * 2 ^ (E - SpecFloat.emin prec emax) ->
  let n := Z.max 0 (fexp prec emax (Zdigits2 X + E) - E) in
  Zpos mx * 2 ^ (ex - SpecFloat.emin prec emax)
  <= X / 2 ^ n * 2 ^ (E + n - SpecFloat.emin prec emax).
Proof.
  intros Hcan HX HE Hle n.
  apply canonical_mantissa_spec in Hcan as (Hex & Hdx & Hnorm).
  set (em := SpecFloat.emin prec emax) in *.
  destruct X as [| px | px]; try lia.
  assert (Hn : n = Z.max 0 (Z.max (Zpos (digits2_pos px) + E - prec) em - E))
    by reflexivity.
  clearbody n.
  pose proof (digits2_bounds px) as [HXlo HXhi].
  pose proof (digits2_bounds mx) as [_ Hmxhi].
  set (dX := Zpos (digits2_pos px)) in *. set (dx := Zpos (digits2_pos mx)) in *.
  assert (HdX : 0 < dX) by (subst dX; lia).
  destruct (Z_le_gt_dec n 0) as [Hn0 | Hnpos].
  { replace n with 0 by lia. rewrite Z.pow_0_r, Z.div_1_r, Z.add_0_r. exact Hle. }
  set (F := E + n) in *.
  assert (HF : F = Z.max (dX + E - prec) em) by lia.
  assert (H2n : 0 < 2 ^ n) by (apply pow2_pos; lia).
  destruct (Z_le_gt_dec F ex) as [HFex | HFex].
  - (* the bound is a multiple of the new unit *)
    assert (Ha : Zpos mx * 2 ^ (ex - em) = Zpos mx * 2 ^ (ex - F) * 2 ^ (F - em)).
    { replace (ex - em) with ((ex - F) + (F - em)) by lia.
      rewrite pow2_split by lia. lia. }
    assert (Hb : 2 ^ (F - em) = 2 ^ n * 2 ^ (E - em)).
    { replace (F - em) with (n + (E - em)) by lia. apply pow2_split; lia. }
    assert (HEpos : 0 < 2 ^ (E - em)) by (apply pow2_pos; lia).
    assert (Hk : Zpos mx * 2 ^ (ex - F) * 2 ^ n <= Zpos px).
    { apply (Z.mul_le_mono_pos_r _ _ (2 ^ (E - em))); [exact HEpos |].
      rewrite <- Z.mul_assoc, <- Hb, <- Ha. exact Hle. }
    rewrite Ha. apply Z.mul_le_mono_nonneg_r; [apply Z.lt_le_incl, pow2_pos; lia |].
    apply Z.div_le_lower_bound; [exact H2n | lia].
  - (* the rounded number has more digits than the bound *)
    assert (HFe : F = dX + E - prec) by lia.
    assert (Hnd : n = dX - prec) by lia.
    assert (Hq : 2 ^ (prec - 1) <= Zpos px / 2 ^ n).
    { apply Z.div_le_lower_bound; [exact H2n |].
      rewrite <- pow2_split by lia.
      replace (n + (prec - 1)) with (dX - 1) by lia. exact HXlo. }
    assert (Hfin : Zpos mx * 2 ^ (ex - em) <= 2 ^ (prec - 1) * 2 ^ (F - em)).
    { rewrite <- pow2_split by lia.
      apply Z.le_trans with (2 ^ dx * 2 ^ (ex - em)).
      - apply Z.mul_le_mono_nonneg_r; [apply Z.lt_le_incl, pow2_pos; lia | lia].
      - rewrite <- pow2_split by lia. apply Z.pow_le_mono_r; lia. }
    eapply Z.le_trans; [exact Hfin |].
    apply Z.mul_le_mono_nonneg_r; [apply Z.lt_le_incl, pow2_pos; lia | exact Hq].
Qed.

(** What [shr_fexp] returns has at most [prec] digits, at an exponent
    that is not below [emin]. *)
Lemma shr_fexp_digits X E :
  0 < X -> SpecFloat.emin prec emax <= E ->
  let n := Z.max 0 (fexp prec emax (Zdigits2 X + E) - E) in
  X / 2 ^ n < 2 ^ prec /\ SpecFloat.emin prec emax <= E + n.
Proof.
  intros HX HE n.
  set (em := SpecFloat.emin prec emax) in *.
  destruct X as [| px | px]; try lia.
  assert (Hn : n = Z.max 0 (Z.max (Zpos (digits2_pos px) + E - prec) em - E))
    by reflexivity.
  clearbody n.
  pose proof (digits2_bounds px) as [_ HXhi].
  set (dX := Zpos (digits2_pos px)) in *.
  assert (HdX : 0 < dX) by (subst dX; lia).
  split; [| lia].
  assert (H2n : 0 < 2 ^ n) by (apply pow2_pos; lia).
  apply Z.div_lt_upper_bound; [exact H2n |].
  rewrite <- pow2_split by lia.
  eapply Z.lt_le_trans; [exact HXhi |]. apply Z.pow_le_mono_r; lia.
Qed.

Lemma SFleb_finite_lex mx ex m e :
  canonical_mantissa prec emax mx ex = true ->
  SpecFloat.emin prec emax <= e ->
  Zpos m < 2 ^ prec ->
  Zpos mx * 2 ^ (ex - SpecFloat.emin prec emax) <= Zpos m * 2 ^ (e - SpecFloat.emin prec emax) ->
  SFleb (S754_finite false mx ex) (S754_finite false m e) = true.
Proof.
  intros Hcan He Hm Hle.
  apply canonical_mantissa_spec in Hcan as (Hex & Hdx & Hnorm).
  set (em := SpecFloat.emin prec emax) in *.
  pose proof (digits2_bounds mx) as [Hmxlo _].
  assert (Hee : ex <= e).
  { destruct (Z_le_gt_dec ex e) as [H | H]; [exact H | exfalso].
    rewrite (Hnorm ltac:(lia)) in Hmxlo.
    assert (H1 : 2 ^ prec * 2 ^ (e - em) <= Zpos mx * 2 ^ (ex - em)).
    { replace (ex - em) with ((ex - e - 1) + (1 + (e - em))) by lia.
      rewrite (pow2_split (ex - e - 1)), (pow2_split 1) by lia.
      replace prec with ((prec - 1) + 1) at 1 by lia.
      rewrite (pow2_split (prec - 1)) by lia.
      assert (HC : 0 < 2 ^ (ex - e - 1)) by (apply pow2_pos; lia).
      assert (HB : 0 < 2 ^ (e - em)) by (apply pow2_pos; lia).
      assert (HA : 0 < 2 ^ (prec - 1)) by (apply pow2_pos; lia).
      rewrite Z.pow_1_r. clear Hle Hm.
      generalize dependent (2 ^ (ex - e - 1)). generalize dependent (2 ^ (e - em)).
      generalize dependent (2 ^ (prec - 1)). intros A HA1 HA2 B HB C HC.
      assert (A * (2 * B) <= Z.pos mx * (2 * B)) by (apply Z.mul_le_mono_nonneg_r; lia).
      assert (Z.pos mx * (2 * B) * 1 <= Z.pos mx * (2 * B) * C)
        by (apply Z.mul_le_mono_nonneg_l; lia).
      lia. }
    assert (H2 : Zpos m * 2 ^ (e - em) < 2 ^ prec * 2 ^ (e - em)).
    { apply Z.mul_lt_mono_pos_r; [apply pow2_pos; lia | exact Hm]. }
    lia. }
  unfold SFleb. simpl.
  destruct (Z.compare_spec ex e) as [Heq | Hlt | Hgt]; [| reflexivity | lia].
  subst e. change (Pos.compare_cont Eq mx m) with (mx ?= m)%positive.
  destruct (Pos.compare_spec mx m) as [| | Hgt]; try reflexivity.
  exfalso.
  assert (0 < 2 ^ (ex - em)) by (apply pow2_pos; lia).
  nia.
Qed.

(** Rounding to nearest does not go below a number of the format that
    the rounded number is not below. *)
Lemma binary_round_aux_lower mx ex X E l :
  canonical_mantissa prec emax mx ex = true ->
  0 < X -> SpecFloat.emin prec emax <= E ->
  Zpos mx * 2 ^ (ex - SpecFloat.emin prec emax) <= X * 2 ^ (E - SpecFloat.emin prec emax) ->
  SFleb (S754_finite false mx ex) (binary_round_aux prec emax false X E l) = true.
Proof.
  intros Hcan HX HE Hle.
  set (em := SpecFloat.emin prec emax) in *.
  assert (Ha : 0 < Zpos mx * 2 ^ (ex - em)).
  { apply canonical_mantissa_spec in Hcan as (Hex & _).
    apply Z.mul_pos_pos; [lia | apply pow2_pos; fold em in Hex; lia]. }
  unfold binary_round_aux.
  destruct (shr_fexp_spec X E l ltac:(lia)) as [Hq He'].
  pose proof (floor_keeps_bound mx ex X E Hcan HX HE Hle) as Hb1.
  pose proof (shr_fexp_digits X E HX HE) as [_ He1].
  destruct (shr_fexp prec emax X E l) as [mrs' e']. cbn [fst snd] in Hq, He'.
  cbv zeta in Hb1, He1. rewrite <- Hq, <- He' in Hb1. rewrite <- He' in He1.
  fold em in Hb1, He1.
  set (r := round_nearest_even (shr_m mrs') (loc_of_shr_record mrs')).
  pose proof (round_nearest_even_lower (shr_m mrs') (loc_of_shr_record mrs')) as Hr.
  fold r in Hr.
  assert (He'pos : 0 < 2 ^ (e' - em)) by (apply pow2_pos; lia).
  assert (Hqpos : 0 < shr_m mrs') by nia.
  assert (Hrpos : 0 < r) by lia.
  assert (Hb2 : Zpos mx * 2 ^ (ex - em) <= r * 2 ^ (e' - em)) by nia.
  destruct (shr_fexp_spec r e' loc_Exact ltac:(lia)) as [Hq2 He2].
  pose proof (floor_keeps_bound mx ex r e' Hcan Hrpos He1 Hb2) as Hb3.
  pose proof (shr_fexp_digits r e' Hrpos He1) as [Hd3 He3].
  destruct (shr_fexp prec emax r e' loc_Exact) as [mrs'' e'']. cbn [fst snd] in Hq2, He2.
  cbv zeta in Hb3, Hd3, He3. rewrite <- Hq2, <- He2 in Hb3. rewrite <- Hq2 in Hd3.
  rewrite <- He2 in He3. fold em in Hb3, He3.
  assert (He''pos : 0 < 2 ^ (e'' - em)) by (apply pow2_pos; lia).
  destruct (shr_m mrs'') as [| m | m]; try nia.
  destruct (e'' <=? emax - prec); [| reflexivity].
  apply SFleb_finite_lex; assumption.
Qed.

Lemma binary_round_lower mx ex M E :
  canonical_mantissa prec emax mx ex = true ->
  SpecFloat.emin prec emax <= E ->
  Zpos mx * 2 ^ (ex - SpecFloat.emin prec emax) <= Zpos M * 2 ^ (E - SpecFloat.emin prec emax) ->
  SFleb (S754_finite false mx ex) (binary_round prec emax false M E) = true.
Proof.
  intros Hcan HE Hle. unfold binary_round.
  destruct (shl_align_spec M E (fexp prec emax (Zpos (digits2_pos M) + E))) as [He Hm].
  destruct (shl_align M E (fexp prec emax (Zpos (digits2_pos M) + E))) as [mz ez].
  cbn [fst snd] in He, Hm.
  set (em := SpecFloat.emin prec emax) in *.
  assert (Hez : em <= ez) by (unfold fexp in He; fold em in He; lia).
  apply binary_round_aux_lower; try assumption; [lia |]. fold em.
  rewrite Hm, <- Z.mul_assoc, <- pow2_split by lia.
  replace (E - Z.min E (fexp prec emax (Zpos (digits2_pos M) + E)) + (ez - em))
    with (E - em) by lia.
  exact Hle.
Qed.

(** Adding a number that is not negative to a number that is not
    negative does not give less. *)
Lemma SFadd_nonneg_lower x y :
  valid_binary prec emax x = true -> valid_binary prec emax y = true ->
  SFleb (S754_zero false) x = true -> SFleb (S754_zero false) y = true ->
  SFleb x (SFadd prec emax x y) = true.
Proof.
  intros Hvx Hvy Hx Hy.
  destruct x as [sx | sx | | sx mx ex], y as [sy | sy | | sy my ey];
    try discriminate;
    try (destruct sx; try discriminate); try (destruct sy; try discriminate);
    try reflexivity; try apply SFleb_refl_finite.
  simpl in Hvx, Hvy. unfold bounded in Hvx, Hvy.
  apply andb_prop in Hvx as [Hcx _]. apply andb_prop in Hvy as [Hcy _].
  pose proof (canonical_mantissa_spec _ _ Hcx) as (Hex & _).
  pose proof (canonical_mantissa_spec _ _ Hcy) as (Hey & _).
  unfold SFadd. cbv zeta. unfold cond_Zopp.
  destruct (shl_align_spec mx ex (Z.min ex ey)) as [_ Hmx'].
  destruct (shl_align_spec my ey (Z.min ex ey)) as [_ Hmy'].
  set (em := SpecFloat.emin prec emax) in *.
  set (ez := Z.min ex ey) in *.
  set (ax := fst (shl_align mx ex ez)) in *. set (ay := fst (shl_align my ey ez)) in *.
  change (Zpos ax + Zpos ay) with (Zpos (ax + ay)). unfold binary_normalize.
  apply binary_round_lower; [exact Hcx | fold em; lia |]. fold em.
  rewrite Pos2Z.inj_add, Z.mul_add_distr_r, Hmx'.
  replace (Z.min ex ez) with ez by lia.
  rewrite <- Z.mul_assoc, <- pow2_split by lia.
  replace (ex - ez + (ez - em)) with (ex - em) by lia.
  assert (0 < 2 ^ (ez - em)) by (apply pow2_pos; lia).
  nia.
Qed.

End Rounding.

(** *** The primitive floats *)

Section Binary64.

Lemma float_leb_trans x y z :
  PrimFloat.leb x y = true -> PrimFloat.leb y z = true -> PrimFloat.leb x z = true.
Proof. rewrite !leb_spec. apply SFleb_trans. Qed.

Lemma float_leb_not_ltb x y : PrimFloat.leb x y = true -> PrimFloat.ltb y x = false.
Proof. rewrite leb_spec, ltb_spec. apply SFleb_SFltb. Qed.

Lemma float_ltb_not_leb x y : PrimFloat.ltb x y = true -> PrimFloat.leb y x = false.
Proof. rewrite leb_spec, ltb_spec. apply SFltb_SFleb. Qed.

(** [x <= x] says that [x] is a number (not NaN). *)
Lemma float_number_iff x : PrimFloat.leb x x = true <-> Prim2SF x <> S754_nan.
Proof.
  rewrite leb_spec. split; [intros H; apply (SFleb_not_nan _ _ H) | apply SFleb_refl].
Qed.

Lemma float_leb_numbers x y :
  PrimFloat.leb x y = true -> PrimFloat.leb x x = true /\ PrimFloat.leb y y = true.
Proof.
  rewrite !float_number_iff, leb_spec. apply SFleb_not_nan.
Qed.

Lemma float_ltb_numbers x y :
  PrimFloat.ltb x y = true -> PrimFloat.leb x x = true /\ PrimFloat.leb y y = true.
Proof.
  rewrite !float_number_iff, ltb_spec. unfold SFltb.
  destruct (Prim2SF x), (Prim2SF y); simpl; intros H; split; congruence.
Qed.

Lemma float_add_numbers a d :
  PrimFloat.leb (PrimFloat.add a d) (PrimFloat.add a d) = true ->
  PrimFloat.leb a a = true /\ PrimFloat.leb d d = true.
Proof.
  rewrite !float_number_iff, add_spec. apply SFadd_not_nan.
Qed.

Lemma float_leb_total x y :
  PrimFloat.leb x x = true -> PrimFloat.leb y y = true ->
  PrimFloat.ltb x y = false -> PrimFloat.leb y x = true.
Proof.
  rewrite !float_number_iff, leb_spec, ltb_spec. apply SFleb_total.
Qed.

(** [a <= a + d] for [a] and [d] that are not negative, infinite or not:
    rounding a sum to nearest never takes it below one of its terms. *)
Lemma float_add_nonneg_lower a d :
  PrimFloat.leb 0 a = true -> PrimFloat.leb 0 d = true ->
  PrimFloat.leb a (PrimFloat.add a d) = true.
Proof.
  rewrite !leb_spec, add_spec. intros Ha Hd.
  apply SFadd_nonneg_lower; try apply Prim2SF_valid; try assumption.
  reflexivity.
Qed.

End Binary64.

(** ** The timeline of [scrub] on binary64 *)

Section BinaryTimeline.
#[local] Existing Instance FloatNumber.

(** Where no effective duration is negative, the starts of the shots are
    numbers that do not decrease, as far as they are numbers at all (a
    NaN duration makes every later start NaN). *)
Lemma shot_start_chain (dur : nat -> float) seq :
  (forall shot, shot ∈ seq -> PrimFloat.ltb (dur shot) 0 = false) ->
  forall k, (k <= length seq)%nat ->
  PrimFloat.leb (shot_start dur seq k) (shot_start dur seq k) = true ->
  forall j, (j <= k)%nat ->
    PrimFloat.leb 0 (shot_start dur seq j) = true /\
    PrimFloat.leb (shot_start dur seq j) (shot_start dur seq k) = true.
Proof.
  intros Hdur. induction k as [| k IH]; intros Hk Hnum j Hj.
  - replace j with 0%nat by lia. split; reflexivity.
  - destruct (lookup_lt_is_Some_2 seq k ltac:(lia)) as [shot Hshot].
    pose proof (shot_start_S (N := FloatNumber) dur seq k shot Hshot) as HS.
    simpl in HS. rewrite HS in Hnum |- *.
    destruct (float_add_numbers _ _ Hnum) as [Hnk Hnd].
    destruct (IH ltac:(lia) Hnk k (Nat.le_refl _)) as [H0k _].
    assert (Hd : PrimFloat.leb 0 (dur shot) = true).
    { apply float_leb_total; [exact Hnd | reflexivity |].
      apply Hdur. eapply list_elem_of_lookup_2, Hshot. }
    pose proof (float_add_nonneg_lower _ _ H0k Hd) as Hstep.
    destruct (decide (j = S k)) as [-> | Hne].
    + rewrite HS. split; [exact (float_leb_trans _ _ _ H0k Hstep) | exact Hnum].
    + destruct (IH ltac:(lia) Hnk j ltac:(lia)) as [H0j Hjk].
      split; [exact H0j | exact (float_leb_trans _ _ _ Hjk Hstep)].
Qed.

(** The intervals before the one that has [time] in it do not have it. *)
Lemma in_interval_first (dur : nat -> float) seq (time : float) k shot :
  (forall shot, shot ∈ seq -> PrimFloat.ltb (dur shot) 0 = false) ->
  seq !! k = Some shot ->
  in_interval dur seq k shot time = true ->
  forall j shot', (j < k)%nat -> seq !! j = Some shot' ->
                  in_interval dur seq j shot' time = false.
Proof.
  intros Hdur Hk Hin j shot' Hj Hl.
  unfold in_interval in Hin |- *. simpl in Hin |- *.
  apply andb_prop in Hin as [Hge _].
  destruct (float_leb_numbers _ _ Hge) as [Hnum _].
  destruct (shot_start_chain dur seq Hdur k
              (Nat.lt_le_incl _ _ (lookup_lt_Some _ _ _ Hk)) Hnum (S j) ltac:(lia))
    as [_ Hle].
  rewrite (shot_start_S (N := FloatNumber) dur seq j shot' Hl) in Hle. simpl in Hle.
  rewrite (float_leb_not_ltb _ _ (float_leb_trans _ _ _ Hle Hge)).
  apply andb_false_r.
Qed.

(** A [time] at or beyond the end of the last shot is in no interval. *)
Lemma in_interval_beyond (dur : nat -> float) seq (time : float) :
  (forall shot, shot ∈ seq -> PrimFloat.ltb (dur shot) 0 = false) ->
  PrimFloat.leb (shot_start dur seq (length seq)) time = true ->
  forall j shot, seq !! j = Some shot -> in_interval dur seq j shot time = false.
Proof.
  intros Hdur Hge j shot Hl.
  unfold in_interval. simpl.
  destruct (float_leb_numbers _ _ Hge) as [Hnum _].
  destruct (shot_start_chain dur seq Hdur (length seq) (Nat.le_refl _) Hnum (S j)
              (lookup_lt_Some _ _ _ Hl)) as [_ Hle].
  rewrite (shot_start_S (N := FloatNumber) dur seq j shot Hl) in Hle. simpl in Hle.
  rewrite (float_leb_not_ltb _ _ (float_leb_trans _ _ _ Hle Hge)).
  apply andb_false_r.
Qed.

(** A negative [time] is in no interval. *)
Lemma in_interval_negative (dur : nat -> float) seq (time : float) :
  (forall shot, shot ∈ seq -> PrimFloat.ltb (dur shot) 0 = false) ->
  PrimFloat.ltb time 0 = true ->
  forall j shot, seq !! j = Some shot -> in_interval dur seq j shot time = false.
Proof.
  intros Hdur Hneg j shot Hl.
  unfold in_interval. simpl.
  destruct (PrimFloat.leb (shot_start (N := FloatNumber) dur seq j) time) eqn:Hge; [| reflexivity].
  exfalso.
  destruct (float_leb_numbers _ _ Hge) as [Hnum _].
  destruct (shot_start_chain dur seq Hdur j
              (Nat.lt_le_incl _ _ (lookup_lt_Some _ _ _ Hl)) Hnum j (Nat.le_refl _))
    as [H0 _].
  pose proof (float_leb_not_ltb _ _ (float_leb_trans _ _ _ H0 Hge)) as H.
  congruence.
Qed.

(** A [time] from 0 to before the end of the last shot is in the interval
    of a position. *)
Lemma in_interval_exists (dur : nat -> float) seq (time : float) :
  (forall shot, shot ∈ seq -> PrimFloat.ltb (dur shot) 0 = false) ->
  PrimFloat.leb 0 time = true ->
  forall k, (k <= length seq)%nat ->
  PrimFloat.ltb time (shot_start dur seq k) = true ->
  exists j shot, (j < k)%nat /\ seq !! j = Some shot /\
                 in_interval dur seq j shot time = true.
Proof.
  intros Hdur H0 k. induction k as [| k IH]; intros Hk Hlt.
  - exfalso. pose proof (float_leb_not_ltb _ _ H0) as H.
    change (shot_start (N := FloatNumber) dur seq 0) with 0%float in Hlt. congruence.
  - destruct (lookup_lt_is_Some_2 seq k ltac:(lia)) as [shot Hshot].
    pose proof (shot_start_S (N := FloatNumber) dur seq k shot Hshot) as HS. simpl in HS.
    destruct (float_ltb_numbers _ _ Hlt) as [Ht Hnum].
    rewrite HS in Hnum. destruct (float_add_numbers _ _ Hnum) as [Hnk _].
    destruct (PrimFloat.ltb time (shot_start (N := FloatNumber) dur seq k)) eqn:Hbefore.
    + destruct (IH ltac:(lia) eq_refl) as (j & shot' & Hj & Hl & Hin).
      exists j, shot'. split; [lia |]. split; assumption.
    + exists k, shot. split; [lia |]. split; [exact Hshot |].
      unfold in_interval. simpl.
      rewrite (float_leb_total _ _ Ht Hnk Hbefore). rewrite <- HS. exact Hlt.
Qed.

End BinaryTimeline.

(** ** Exact arithmetic *)

Section ExactArithmetic.
#[local] Existing Instance IdealNumber.
Open Scope Q_scope.

(** In exact arithmetic a clip that has a duration gets the duration that
    was asked for. *)
Lemma setDuration_exact a newDuration :
  ~ duration (clip a) == 0 ->
  ~ newDuration == 0 ->
  getEffectiveDuration (setDuration newDuration a) == newDuration.
Proof.
  intros Hd Hn. unfold getEffectiveDuration, setDuration. simpl.
  field. split; assumption.
Qed.

End ExactArithmetic.

(** ** The timeline of [scrub] *)

(** C1, as the code has it. [scrub] selects the first shot of the sequence
    whose interval [start, start + effective duration) has [time] in it, at
    the local time [time - start]; when no interval has [time] in it, it
    selects the last shot at its full effective duration; this for any
    numbers. On binary64, the numbers of the program, when no shot of the
    sequence has a negative effective duration: the shot whose interval
    has [time] in it is the one selected, since no earlier interval has
    it too, and a [time] at or beyond the end of the last shot is in no
    interval, so the last shot is selected at its full effective
    duration. The starts and the ends are the sums the loop computes, as
    it rounds them. *)
Theorem scrub_selects_by_interval :
  (forall (N : Number) (s : ShotsManager) (seq : list nat) (time : num)
          (cam : PerspectiveCamera),
      sequence s = Some seq ->
      Forall (fun shot => is_Some (shots s !! shot)) seq ->
      let dur := effectiveDurationOf (shots s) in
      (forall k shot,
          seq !! k = Some shot ->
          in_interval dur seq k shot time = true ->
          (forall j shot', (j < k)%nat -> seq !! j = Some shot' ->
                           in_interval dur seq j shot' time = false) ->
          selects s time cam shot (sub time (shot_start dur seq k))) /\
      (forall lastShot,
          last seq = Some lastShot ->
          (forall j shot', seq !! j = Some shot' ->
                           in_interval dur seq j shot' time = false) ->
          selects s time cam lastShot (dur lastShot))) /\
  (forall (s : @ShotsManager FloatNumber) (seq : list nat) (time : float)
          (cam : @PerspectiveCamera FloatNumber),
      sequence s = Some seq ->
      Forall (fun shot => is_Some (shots s !! shot)) seq ->
      let dur := effectiveDurationOf (shots s) in
      Forall (fun shot => PrimFloat.ltb (dur shot) 0 = false) seq ->
      (forall k shot,
          seq !! k = Some shot ->
          PrimFloat.leb (shot_start dur seq k) time = true ->
          PrimFloat.ltb time (PrimFloat.add (shot_start dur seq k) (dur shot)) = true ->
          selects s time cam shot (PrimFloat.sub time (shot_start dur seq k))) /\
      (forall lastShot,
          last seq = Some lastShot ->
          PrimFloat.leb (shot_start dur seq (length seq)) time = true ->
          selects s time cam lastShot (dur lastShot))).
Proof.
  split.
  - intros N s seq time cam Hseq Hvalid dur. rewrite Forall_forall in Hvalid. split.
    + intros k shot Hk Hin Hbefore.
      destruct (Hvalid shot (list_elem_of_lookup_2 _ _ _ Hk)) as [a Ha].
      eapply scrub_selects_target; [exact Hseq | exact Ha |].
      apply scrub_target_first; assumption.
    + intros lastShot Hlast Hnone.
      destruct (Hvalid lastShot (last_Some_elem_of _ _ Hlast)) as [a Ha].
      eapply scrub_selects_target; [exact Hseq | exact Ha |].
      apply scrub_target_last; assumption.
  - intros s seq time cam Hseq Hvalid dur Hdur.
    rewrite Forall_forall in Hvalid, Hdur. split.
    + intros k shot Hk Hge Hlt.
      assert (Hin : in_interval (N := FloatNumber) dur seq k shot time = true).
      { unfold in_interval. simpl. rewrite Hge, Hlt. reflexivity. }
      destruct (Hvalid shot (list_elem_of_lookup_2 _ _ _ Hk)) as [a Ha].
      eapply (scrub_selects_target (N := FloatNumber)); [exact Hseq | exact Ha |].
      apply (scrub_target_first (N := FloatNumber)); [exact Hk | exact Hin |].
      apply (in_interval_first dur seq time k shot Hdur Hk Hin).
    + intros lastShot Hlast Hbeyond.
      destruct (Hvalid lastShot (last_Some_elem_of _ _ Hlast)) as [a Ha].
      eapply (scrub_selects_target (N := FloatNumber)); [exact Hseq | exact Ha |].
      apply (scrub_target_last (N := FloatNumber)); [exact Hlast |].
      apply (in_interval_beyond dur seq time Hdur Hbeyond).
Qed.

(** Two shots of 2 s and 3 s: [scrub(2.5)] selects the second shot at
    0.5, [scrub(10)] selects it at 3. Three shots of 0.1 s, 0.7 s and 1 s:
    the second shot ends at 0.1 + 0.7, which on binary64 is not 0.8, and
    [scrub(0.1 + 0.7)] selects the third shot at 0. *)
Lemma scrub_selects_by_interval_witness :
  selects (N := FloatNumber) Demo.configured 2.5%float Demo.out 1 0.5%float /\
  selects (N := FloatNumber) Demo.configured 10%float Demo.out 1 3%float /\
  PrimFloat.eqb (PrimFloat.add Demo.tenth Demo.seven_tenths) Demo.eight_tenths = false /\
  selects (N := FloatNumber) Demo.tenths (PrimFloat.add Demo.tenth Demo.seven_tenths)
          Demo.out 2 0%float.
Proof.
  destruct scrub_selects_by_interval as [_ Hfloat].
  assert (Hvalid : Forall (fun shot => is_Some (shots Demo.configured !! shot)) [0; 1]%nat).
  { constructor; [eexists; reflexivity |]. constructor; [eexists; reflexivity |]. constructor. }
  assert (Hdur : Forall (fun shot => PrimFloat.ltb
                           (effectiveDurationOf (N := FloatNumber) (shots Demo.configured) shot)
                           0 = false) [0; 1]%nat).
  { constructor; [reflexivity |]. constructor; [reflexivity |]. constructor. }
  assert (Hvalid' : Forall (fun shot => is_Some (shots Demo.tenths !! shot)) [0; 1; 2]%nat).
  { repeat (constructor; [eexists; reflexivity |]). constructor. }
  assert (Hdur' : Forall (fun shot => PrimFloat.ltb
                            (effectiveDurationOf (N := FloatNumber) (shots Demo.tenths) shot)
                            0 = false) [0; 1; 2]%nat).
  { repeat (constructor; [reflexivity |]). constructor. }
  destruct (Hfloat Demo.configured [0; 1]%nat 2.5%float Demo.out eq_refl Hvalid Hdur)
    as [Hin _].
  destruct (Hfloat Demo.configured [0; 1]%nat 10%float Demo.out eq_refl Hvalid Hdur)
    as [_ Hlast].
  destruct (Hfloat Demo.tenths [0; 1; 2]%nat (PrimFloat.add Demo.tenth Demo.seven_tenths)
              Demo.out eq_refl Hvalid' Hdur') as [Hin' _].
  split; [| split; [| split]].
  - exact (Hin 1%nat 1%nat eq_refl eq_refl eq_refl).
  - exact (Hlast 1%nat eq_refl eq_refl).
  - reflexivity.
  - exact (Hin' 2%nat 2%nat eq_refl eq_refl eq_refl).
Defined.

(** C1 as stated fails when a shot runs backwards. Shot "b" was given the
    duration -3: the sequence ends at 2 + -3 = -1, the time 1.5 is beyond
    that end, and yet [scrub(1.5)] selects the first shot at 1.5, not the
    last shot at its effective duration. *)
Lemma scrub_beyond_reversed_end :
  sequence Demo.b_reversed = Some [0; 1]%nat /\
  Demo.dur_b_reversed 1%nat = (-3)%float /\
  PrimFloat.add (shot_start (N := FloatNumber) Demo.dur_b_reversed [0; 1]%nat 1) (Demo.dur_b_reversed 1%nat)
  = (-1)%float /\
  PrimFloat.leb (PrimFloat.add (shot_start (N := FloatNumber) Demo.dur_b_reversed [0; 1]%nat 1)
                               (Demo.dur_b_reversed 1%nat)) 1.5%float = true /\
  ~ selects (N := FloatNumber) Demo.b_reversed 1.5%float Demo.out 1 (Demo.dur_b_reversed 1%nat) /\
  selects (N := FloatNumber) Demo.b_reversed 1.5%float Demo.out 0 1.5%float.
Proof.
  repeat split.
  - intros (a & Ha & Hl & _).
    injection Ha as <-.
    apply (f_equal (fun o => action_paused <$> o)) in Hl.
    vm_compute in Hl. discriminate Hl.
  - eexists. repeat split.
Qed.

(** C10, as the code has it. On binary64, when no shot of the sequence
    has a negative effective duration, a negative [time] is in the
    interval of no shot, and [scrub] selects the last shot at its full
    effective duration. *)
Theorem scrub_negative_time (s : @ShotsManager FloatNumber) (seq : list nat)
    (time : float) (cam : @PerspectiveCamera FloatNumber) (lastShot : nat) :
  sequence s = Some seq ->
  Forall (fun shot => is_Some (shots s !! shot)) seq ->
  last seq = Some lastShot ->
  let dur := effectiveDurationOf (shots s) in
  Forall (fun shot => PrimFloat.ltb (dur shot) 0 = false) seq ->
  PrimFloat.ltb time 0 = true ->
  (forall j shot, seq !! j = Some shot -> in_interval dur seq j shot time = false) /\
  selects s time cam lastShot (dur lastShot).
Proof.
  intros Hseq Hvalid Hlast dur Hdur Hneg.
  rewrite Forall_forall in Hvalid, Hdur.
  pose proof (in_interval_negative dur seq time Hdur Hneg) as Hnone.
  split; [exact Hnone |].
  destruct (Hvalid lastShot (last_Some_elem_of _ _ Hlast)) as [a Ha].
  eapply (scrub_selects_target (N := FloatNumber)); [exact Hseq | exact Ha |].
  apply (scrub_target_last (N := FloatNumber)); assumption.
Qed.

(** The time -1 on the scene of two shots of 2 s and 3 s. *)
Lemma scrub_negative_time_witness :
  Forall (fun shot => PrimFloat.ltb
            (effectiveDurationOf (N := FloatNumber) (shots Demo.configured) shot) 0 = false)
         [0; 1]%nat /\
  PrimFloat.ltb (-1) 0 = true /\
  selects (N := FloatNumber) Demo.configured (-1)%float Demo.out 1 3%float.
Proof.
  assert (Hvalid : Forall (fun shot => is_Some (shots Demo.configured !! shot)) [0; 1]%nat).
  { constructor; [eexists; reflexivity |]. constructor; [eexists; reflexivity |]. constructor. }
  assert (Hdur : Forall (fun shot => PrimFloat.ltb
                           (effectiveDurationOf (N := FloatNumber) (shots Demo.configured) shot)
                           0 = false) [0; 1]%nat).
  { constructor; [reflexivity |]. constructor; [reflexivity |]. constructor. }
  split; [exact Hdur |]. split; [reflexivity |].
  exact (proj2 (scrub_negative_time Demo.configured [0; 1]%nat (-1)%float Demo.out 1%nat
                  eq_refl Hvalid eq_refl Hdur eq_refl)).
Defined.

(** C10 as stated fails when a shot runs backwards. Shot "a" was given the
    duration -2: the second shot starts at -2 and ends at 1, the time -1
    is in its interval, and [scrub(-1)] selects it at the local time 1, not
    at its full effective duration 3. *)
Lemma scrub_negative_time_in_interval :
  sequence Demo.a_reversed = Some [0; 1]%nat /\
  Demo.dur_a_reversed 0%nat = (-2)%float /\
  Demo.dur_a_reversed 1%nat = 3%float /\
  in_interval (N := FloatNumber) Demo.dur_a_reversed [0; 1]%nat 1 1 (-1)%float = true /\
  selects (N := FloatNumber) Demo.a_reversed (-1)%float Demo.out 1 1%float /\
  ~ selects (N := FloatNumber) Demo.a_reversed (-1)%float Demo.out 1 (Demo.dur_a_reversed 1%nat).
Proof.
  repeat split.
  - eexists. repeat split.
  - intros (a & Ha & Hl & _).
    injection Ha as <-.
    apply (f_equal (fun o => (fun b : @AnimatedCamera FloatNumber =>
                                   PrimFloat.eqb (action_time b) 3) <$> o)) in Hl.
    vm_compute in Hl. discriminate Hl.
Qed.

(** ** The duration of a shot *)

(** C7, as the code has it. [setShotDuration] on the name of a clip
    returns [true] and gives the first shot with that clip name the time
    scale [duration / newDuration]; the effective duration is then
    [duration / (duration / newDuration)]; on a name of no clip it returns
    [false] and no shot is changed. In exact arithmetic, for a clip whose
    duration is not 0 and a positive [newDuration], the effective duration
    is [newDuration]. *)
Theorem setShotDuration_round_trip :
  (forall (N : Number) (s : ShotsManager) (shotName : string) (newDuration : num),
      (forall shot a,
          shots s !! shot = Some a ->
          clip_name (clip a) = shotName ->
          (forall j a', (j < shot)%nat -> shots s !! j = Some a' ->
                        clip_name (clip a') <> shotName) ->
          let r := setShotDuration shotName newDuration s in
          snd r = true /\
          shots (fst r) = <[shot := setDuration newDuration a]> (shots s) /\
          action_timeScale (setDuration newDuration a) = div (duration (clip a)) newDuration /\
          getEffectiveDuration (setDuration newDuration a)
          = div (duration (clip a)) (div (duration (clip a)) newDuration)) /\
      ((forall a, a ∈ shots s -> clip_name (clip a) <> shotName) ->
       let r := setShotDuration shotName newDuration s in
       snd r = false /\ shots (fst r) = shots s)) /\
  (forall (a : @AnimatedCamera IdealNumber) (newDuration : Q),
      (~ duration (clip a) == 0)%Q ->
      (0 < newDuration)%Q ->
      (getEffectiveDuration (setDuration (N := IdealNumber) newDuration a) == newDuration)%Q).
Proof.
  split.
  - intros N s shotName newDuration. apply setShotDuration_spec.
  - intros a newDuration Hd Hn. apply setDuration_exact; [exact Hd |].
    intros H. rewrite H in Hn. apply (Qlt_irrefl 0 Hn).
Qed.

(** The 3 s clip given the duration 6, on binary64 and on exact numbers:
    time scale 0.5, effective duration 6. An unknown name is refused. *)
Lemma setShotDuration_round_trip_witness :
  snd (setShotDuration (N := FloatNumber) "b" 6%float Demo.fresh) = true /\
  shots (fst (setShotDuration (N := FloatNumber) "b" 6%float Demo.fresh))
  = [Demo.shotA; setDuration (N := FloatNumber) 6%float Demo.shotB; Demo.shotStill] /\
  action_timeScale (setDuration (N := FloatNumber) 6%float Demo.shotB) = 0.5%float /\
  getEffectiveDuration (setDuration (N := FloatNumber) 6%float Demo.shotB) = 6%float /\
  snd (setShotDuration (N := FloatNumber) "nope" 6%float Demo.fresh) = false /\
  shots (fst (setShotDuration (N := FloatNumber) "nope" 6%float Demo.fresh)) = shots Demo.fresh /\
  (getEffectiveDuration (setDuration (N := IdealNumber) 6%Q IdealDemo.shotB) == 6)%Q.
Proof.
  destruct setShotDuration_round_trip as [Hgen Hexact].
  destruct (Hgen FloatNumber Demo.fresh "b"%string 6%float) as [Hfound _].
  destruct (Hgen FloatNumber Demo.fresh "nope"%string 6%float) as [_ Hmissing].
  assert (Hfirst : forall (j : nat) (a' : @AnimatedCamera FloatNumber),
             (j < 1)%nat -> shots Demo.fresh !! j = Some a' ->
             clip_name (clip a') <> "b"%string).
  { intros [| j] a' Hj Hl; [injection Hl as <-; discriminate | lia]. }
  destruct (Hfound 1%nat Demo.shotB eq_refl eq_refl Hfirst) as (H1 & H2 & H3 & H4).
  assert (Hnone : forall a : @AnimatedCamera FloatNumber,
             a ∈ shots Demo.fresh -> clip_name (clip a) <> "nope"%string).
  { intros a Ha. apply list_elem_of_lookup in Ha as [[| [| [| i]]] Hi];
      try (injection Hi as <-; discriminate). discriminate Hi. }
  destruct (Hmissing Hnone) as [H5 H6].
  refine (conj H1 (conj H2 (conj H3 (conj H4 (conj H5 (conj H6 _)))))).
  apply (Hexact IdealDemo.shotB 6%Q); [vm_compute; discriminate | reflexivity].
Defined.

(** C7 as stated fails on binary64, in two ways. A clip of duration 0
    gets the time scale 0 / 6 = 0, and its effective duration is then
    0 / 0, which is NaN. And a clip of duration 1 given the duration 49 has
    the effective duration 1 / (1 / 49), which is not 49 but the next
    binary64 number after it. *)
Lemma setShotDuration_not_round_trip :
  snd (setShotDuration (N := FloatNumber) "still" 6%float Demo.fresh) = true /\
  (getEffectiveDuration (N := FloatNumber)
     <$> shots (fst (setShotDuration (N := FloatNumber) "still" 6%float
                                          Demo.fresh)) !! 2%nat)
  = Some PrimFloat.nan /\
  PrimFloat.eqb (getEffectiveDuration (setDuration (N := FloatNumber) 6%float Demo.shotStill))
                6%float = false /\
  PrimFloat.eqb (getEffectiveDuration (setDuration (N := FloatNumber) 49%float Demo.shotUnit))
                49%float = false /\
  getEffectiveDuration (setDuration (N := FloatNumber) 49%float Demo.shotUnit)
  = PrimFloat.next_up 49%float.
Proof. repeat split. Qed.

(** ** Reconfiguring during playback *)

(** C2 as stated fails. Shot "a" is playing; after [config(["b", "a"])]
    an [update(0.5)] gives the target camera the pose of the camera of "b"
    and leaves the action of "a" at time 0, where without the [config] the
    same [update] gives it the pose of the camera of "a" and advances the
    action of "a" to 0.5. *)
Lemma config_changes_playback :
  match update (N := FloatNumber) 0.5%float (config ["b"; "a"]%string Demo.playing),
        update (N := FloatNumber) 0.5%float Demo.playing with
  | Ok s1, Ok s2 =>
      (action_time (N := FloatNumber) <$> shots s1 !! 0%nat) = Some 0%float /\
      (action_time (N := FloatNumber) <$> shots s2 !! 0%nat) = Some 0.5%float /\
      (position (N := FloatNumber) <$> targetCamera s1) = Some (position Demo.camB) /\
      (position (N := FloatNumber) <$> targetCamera s2) = Some (position Demo.camA) /\
      trace s1 = [(0%float, @ProjectionUpdated FloatNumber (syncCamera Demo.out Demo.camB));
                  (0.5%float, @MixerUpdate FloatNumber 1 0.5%float)] /\
      trace s2 = [(0%float, @ProjectionUpdated FloatNumber (syncCamera Demo.out Demo.camA));
                  (0.5%float, @MixerUpdate FloatNumber 0 0.5%float)]
  | _, _ => False
  end.
Proof. vm_compute. repeat split. Qed.

(** ** The scenes, through the theorems *)

(** [play] and [scrub] on the manager as it is built. *)
Lemma unconfigured_play_scrub_noop_witness :
  unconfigured (N := FloatNumber) Demo.fresh /\
  same_but_trace Demo.fresh (play (Some 7%nat) Demo.fresh) /\
  scrub (N := FloatNumber) 2.5%float Demo.out Demo.fresh = (Demo.fresh, Demo.out) /\
  same_but_trace Demo.fresh
    (perform_all [@CallPlay FloatNumber None; @CallScrub FloatNumber 1%float Demo.out; CallPlay (Some 7%nat)] Demo.fresh).
Proof.
  assert (Hun : unconfigured (N := FloatNumber) Demo.fresh) by (left; reflexivity).
  destruct (unconfigured_play_scrub_noop Demo.fresh Hun) as (Hplay & Hscrub & Hall).
  split; [exact Hun |]. split; [apply Hplay |]. split; [apply Hscrub |].
  apply Hall. reflexivity.
Defined.

(** [play] on the sequence ["a", "b"]. *)
Lemma play_starts_first_shot_witness :
  sequence Demo.configured = Some [0; 1]%nat /\
  shots Demo.configured !! 0%nat = Some Demo.shotA /\
  playheadTime (play (N := FloatNumber) (Some 7%nat) Demo.configured) = 0%float /\
  isPlaying (play (N := FloatNumber) (Some 7%nat) Demo.configured) = true /\
  currentShotIndex (play (N := FloatNumber) (Some 7%nat) Demo.configured) = 0 /\
  shots (play (N := FloatNumber) (Some 7%nat) Demo.configured)
  = [AnimatedCamera_play CallOnShotFinished Demo.shotA; Demo.shotB; Demo.shotStill].
Proof.
  destruct (play_starts_first_shot (N := FloatNumber) Demo.configured (Some 7%nat)
              0%nat [1%nat] Demo.shotA eq_refl eq_refl)
    as (H1 & _ & _ & H4 & H5 & _ & _ & H8 & _).
  split; [reflexivity |]. split; [reflexivity |].
  split; [exact H1 |]. split; [exact H4 |]. split; [exact H5 | exact H8].
Defined.

(** The last shot finishes: of the sequence ["a", "b"] without [loop], and
    of the looping sequence ["a"]. *)
Lemma last_shot_finished_witness :
  (currentShotIndex Demo.in_last_shot = 1 /\ loop Demo.in_last_shot = false /\
   isPlaying (finishedListener (N := FloatNumber) 1 Demo.in_last_shot) = false /\
   shots (finishedListener (N := FloatNumber) 1 Demo.in_last_shot)
   = shots Demo.in_last_shot /\
   trace (finishedListener (N := FloatNumber) 1 Demo.in_last_shot)
   = trace Demo.in_last_shot
     ++ [(playheadTime Demo.in_last_shot, ShotFinish 1%nat);
         (playheadTime Demo.in_last_shot, CompletedCall 7%nat)]) /\
  (currentShotIndex Demo.looping = 0 /\ loop Demo.looping = true /\
   currentShotIndex (finishedListener (N := FloatNumber) 0 Demo.looping) = 0 /\
   isPlaying (finishedListener (N := FloatNumber) 0 Demo.looping) = true /\
   trace (finishedListener (N := FloatNumber) 0 Demo.looping)
   = trace Demo.looping ++ [(playheadTime Demo.looping, ShotFinish 0%nat)]).
Proof.
  destruct (last_shot_finished (N := FloatNumber) Demo.in_last_shot [0; 1]%nat 1%nat
              (AnimatedCamera_play CallOnShotFinished Demo.shotB)
              eq_refl eq_refl eq_refl eq_refl eq_refl) as [Hstop _].
  destruct (Hstop eq_refl) as (A1 & A2 & _ & A4 & _).
  destruct (last_shot_finished (N := FloatNumber) Demo.looping [0%nat] 0%nat
              (AnimatedCamera_play CallOnShotFinished Demo.shotA)
              eq_refl eq_refl eq_refl eq_refl eq_refl) as [_ Hloop].
  destruct (Hloop eq_refl 0%nat (AnimatedCamera_play CallOnShotFinished Demo.shotA)
              eq_refl eq_refl) as (B1 & B2 & _ & _ & B5 & _).
  split.
  - split; [reflexivity |]. split; [reflexivity |].
    split; [exact A1 |]. split; [exact A2 | exact A4].
  - split; [reflexivity |]. split; [reflexivity |].
    split; [exact B1 |]. split; [exact B2 | exact B5].
Defined.

(** A looping session: the script at half a second is called in the first
    round and in no later one. *)
Lemma script_fires_once_per_session_witness :
  forallb (fun c => negb (is_play (N := FloatNumber) c))
          [@CallUpdate FloatNumber 1%float; @CallUpdate FloatNumber 1.5%float; @CallUpdate FloatNumber 1%float; @CallUpdate FloatNumber 1.5%float]
  = true /\
  (fires 0 (trace (perform_all (N := FloatNumber)
                     [@CallUpdate FloatNumber 1%float; @CallUpdate FloatNumber 1.5%float; @CallUpdate FloatNumber 1%float;
                      @CallUpdate FloatNumber 1.5%float] Demo.looping))
   <= fires 0 (trace Demo.looping) + 1)%nat /\
  fires 0 (trace (perform_all (N := FloatNumber)
                    [@CallUpdate FloatNumber 1%float; @CallUpdate FloatNumber 1.5%float; @CallUpdate FloatNumber 1%float;
                     @CallUpdate FloatNumber 1.5%float] Demo.looping)) = 1%nat /\
  fires 0 (trace (perform_all (N := FloatNumber)
                    [@CallUpdate FloatNumber 1%float; @CallUpdate FloatNumber 1.5%float] Demo.looping)) = 1%nat.
Proof.
  destruct (script_fires_once_per_session (N := FloatNumber) Demo.looping
              [@CallUpdate FloatNumber 1%float; @CallUpdate FloatNumber 1.5%float; @CallUpdate FloatNumber 1%float;
               @CallUpdate FloatNumber 1.5%float] 0%nat eq_refl) as (H1 & _).
  split; [reflexivity |]. split; [exact H1 |]. split; reflexivity.
Defined.

(** [scrub(2.5)] twice on the sequence ["a", "b"]. *)
Lemma scrub_idempotent_witness :
  sequence Demo.configured = Some [0; 1]%nat /\
  snd (scrub (N := FloatNumber) 2.5%float
         (snd (scrub (N := FloatNumber) 2.5%float Demo.out Demo.configured))
         (fst (scrub (N := FloatNumber) 2.5%float Demo.out Demo.configured)))
  = snd (scrub (N := FloatNumber) 2.5%float Demo.out Demo.configured) /\
  position (snd (scrub (N := FloatNumber) 2.5%float Demo.out Demo.configured))
  = (0%float, 0.5%float, 0%float) /\
  fov (snd (scrub (N := FloatNumber) 2.5%float Demo.out Demo.configured)) = 40.5%float.
Proof.
  destruct (scrub_idempotent (N := FloatNumber) Demo.configured [0; 1]%nat 2.5%float Demo.out
              eq_refl ltac:(discriminate)) as (H1 & _).
  split; [reflexivity |]. split; [exact H1 |]. split; reflexivity.
Defined.

(** C8 as stated fails on a configured sequence that is empty. The
    sequence was emptied while "a" played: [scrub] returns at once, the
    manager is still playing and shot "a" is still active and not paused.
    And on a non-empty sequence it is the shots of the sequence that are
    halted: with the sequence cut down to ["b"] while "a" played, [scrub]
    leaves "b" active and paused, and "a" as it was, active and not
    paused. *)
Lemma scrub_empty_keeps_playing :
  sequence Demo.emptied = Some [] /\
  isPlaying Demo.emptied = true /\
  scrub (N := FloatNumber) 2.5%float Demo.out Demo.emptied = (Demo.emptied, Demo.out) /\
  isPlaying (fst (scrub (N := FloatNumber) 2.5%float Demo.out Demo.emptied)) = true /\
  (mixer_active (N := FloatNumber)
     <$> shots (fst (scrub (N := FloatNumber) 2.5%float Demo.out Demo.emptied)) !! 0%nat)
  = Some true /\
  (action_paused (N := FloatNumber)
     <$> shots (fst (scrub (N := FloatNumber) 2.5%float Demo.out Demo.emptied)) !! 0%nat)
  = Some false /\
  sequence Demo.narrowed = Some [1%nat] /\
  ((fun a => (mixer_active (N := FloatNumber) a, action_paused a))
     <$> shots (fst (scrub (N := FloatNumber) 2.5%float Demo.out Demo.narrowed)) !! 1%nat)
  = Some (true, true) /\
  ((fun a => (mixer_active (N := FloatNumber) a, action_paused a))
     <$> shots (fst (scrub (N := FloatNumber) 2.5%float Demo.out Demo.narrowed)) !! 0%nat)
  = Some (true, false).
Proof. repeat split. Qed.

(** The scenes are what the constructor builds. *)
Example fresh_is_built :
  ShotsManager_new (N := FloatNumber) [Demo.camA; Demo.camB; Demo.camStill]
                   [Demo.clipB; Demo.clipStill; Demo.clipA] = Some Demo.fresh /\
  ShotsManager_new (N := FloatNumber) [Demo.camA; Demo.out] [Demo.clipA; Demo.clipB] = None /\
  ShotsManager_new (N := IdealNumber) [IdealDemo.camA; IdealDemo.camB]
                   [IdealDemo.clipB; IdealDemo.clipA] = Some IdealDemo.fresh.
Proof. repeat split. Qed.

(** ** The steps of an update *)

Section UpdateSteps.
Context {N : Number}.

Lemma update_idle delta s : isPlaying s = false -> update delta s = Ok s.
Proof. intros H. unfold update. rewrite H. reflexivity. Qed.

Lemma update_steps delta s seq shot a :
  isPlaying s = true ->
  sequence s = Some seq ->
  at_index seq (currentShotIndex s) = Some shot ->
  shots s !! shot = Some a ->
  update delta s
  = Ok (run_scripts (mixer_update shot delta
                       (set_playheadTime (add (playheadTime s) delta) (mirror a s)))).
Proof.
  intros Hplay Hseq Hat Ha.
  pose proof Hat as Hat'. apply at_index_Some in Hat' as [Hidx Hshot].
  apply lookup_lt_Some in Hshot as Hlt.
  unfold update, mirror, run_scripts. rewrite Hplay, Hseq. simpl.
  destruct (Z.ltb_spec (currentShotIndex s) 0) as [? | _]; [lia |].
  rewrite Hat. simpl. rewrite Ha.
  destruct (targetCamera s) as [tc |]; simpl.
  - destruct (Z.ltb_spec (currentShotIndex s) (Z.of_nat (length seq))) as [_ | ?]; [| lia].
    rewrite Hat. reflexivity.
  - destruct (Z.ltb_spec (currentShotIndex s) (Z.of_nat (length seq))) as [_ | ?]; [| lia].
    rewrite Hat. reflexivity.
Qed.

(** Past the end of the sequence no shot is updated: without a target
    camera the playhead moves and the scripts are checked. *)
Lemma update_past_end_steps delta s seq :
  isPlaying s = true ->
  sequence s = Some seq ->
  Z.of_nat (length seq) <= currentShotIndex s ->
  targetCamera s = None ->
  update delta s = Ok (run_scripts (set_playheadTime (add (playheadTime s) delta) s)).
Proof.
  intros Hplay Hseq Hidx Htc.
  unfold update, run_scripts. rewrite Hplay, Hseq, Htc. simpl.
  destruct (Z.ltb_spec (currentShotIndex s) 0) as [? | _]; [lia |].
  destruct (Z.ltb_spec (currentShotIndex s) (Z.of_nat (length seq))) as [? | _]; [lia |].
  reflexivity.
Qed.

End UpdateSteps.

Section UpdateCases.
Context {N : Number}.

Lemma shot_events_app tr1 tr2 :
  shot_events (tr1 ++ tr2) = shot_events tr1 ++ shot_events tr2.
Proof. unfold shot_events. rewrite map_app, List.filter_app. reflexivity. Qed.

Lemma clock_moved_mirror delta a s :
  clock_moved delta s (set_playheadTime (add (playheadTime s) delta) (mirror a s)).
Proof.
  unfold clock_moved, mirror.
  destruct (targetCamera s); simpl; repeat split.
  rewrite shot_events_app. simpl. apply app_nil_r.
Qed.

Lemma clock_moved_plain delta s :
  clock_moved delta s (set_playheadTime (add (playheadTime s) delta) s).
Proof. unfold clock_moved. simpl. repeat split. Qed.

(** What an [update] that returns has done. *)
Lemma update_cases delta s s' :
  update delta s = Ok s' ->
  s' = s \/
  exists s0 seq,
    clock_moved delta s s0 /\ isPlaying s = true /\ sequence s = Some seq /\
    0 <= currentShotIndex s /\
    ((Z.of_nat (length seq) <= currentShotIndex s /\ s' = run_scripts s0) \/
     (exists shot, at_index seq (currentShotIndex s) = Some shot /\
                   s' = run_scripts (mixer_update shot delta s0))).
Proof.
  intros H.
  destruct (isPlaying s) eqn:Hplay.
  2: { rewrite update_idle in H by exact Hplay. injection H as <-. left. reflexivity. }
  destruct (sequence s) as [seq |] eqn:Hseq.
  2: { unfold update in H. rewrite Hplay, Hseq in H. injection H as <-. left. reflexivity. }
  destruct (Z.ltb_spec (currentShotIndex s) 0) as [Hneg | Hidx].
  { unfold update in H. rewrite Hplay, Hseq in H. simpl in H.
    destruct (Z.ltb_spec (currentShotIndex s) 0) as [_ | ?]; [| lia].
    injection H as <-. left. reflexivity. }
  right.
  destruct (at_index seq (currentShotIndex s)) as [shot |] eqn:Hat.
  - destruct (shots s !! shot) as [a |] eqn:Ha.
    + rewrite (update_steps delta s seq shot a) in H by assumption.
      injection H as <-.
      eexists; exists seq. split; [apply (clock_moved_mirror delta a) |].
      do 3 (split; [assumption || reflexivity |]).
      right. exists shot. split; [assumption | reflexivity].
    + pose proof Hat as Hat'. apply at_index_Some in Hat' as [_ Hshot].
      apply lookup_lt_Some in Hshot as Hlt.
      unfold update in H. rewrite Hplay, Hseq in H. simpl in H.
      destruct (Z.ltb_spec (currentShotIndex s) 0) as [? | _]; [lia |].
      rewrite Hat in H. simpl in H. rewrite Ha in H.
      destruct (targetCamera s) as [tc |] eqn:Htc; [discriminate |].
      simpl in H.
      destruct (Z.ltb_spec (currentShotIndex s) (Z.of_nat (length seq))) as [_ | ?]; [| lia].
      rewrite Hat in H. injection H as <-.
      eexists; exists seq. split; [apply (clock_moved_plain delta) |].
      do 3 (split; [assumption || reflexivity |]).
      right. exists shot. split; [assumption | reflexivity].
  - assert (Hpast : Z.of_nat (length seq) <= currentShotIndex s).
    { unfold at_index in Hat.
      destruct (Z.ltb_spec (currentShotIndex s) 0) as [? | _]; [lia |].
      apply lookup_ge_None in Hat. lia. }
    destruct (targetCamera s) as [tc |] eqn:Htc.
    + unfold update in H. rewrite Hplay, Hseq, Htc in H. simpl in H.
      destruct (Z.ltb_spec (currentShotIndex s) 0) as [? | _]; [lia |].
      rewrite Hat in H. simpl in H. discriminate.
    + rewrite (update_past_end_steps delta s seq) in H by assumption.
      injection H as <-.
      eexists; exists seq. split; [apply (clock_moved_plain delta) |].
      do 3 (split; [assumption || reflexivity |]).
      left. split; [assumption | reflexivity].
Qed.

End UpdateCases.

(** ** Relations between the shots before and after a call *)

(** Whatever relation between a binding before and after holds for each
    step an [AnimatedCamera] can take holds, shot by shot, for the calls
    that take those steps. *)
Section ShotRelation.
Context {N : Number}.
Variable R : AnimatedCamera -> AnimatedCamera -> Prop.
Hypothesis R_refl : forall a, R a a.
Hypothesis R_trans : forall a b c, R a b -> R b c -> R a c.
Hypothesis R_play : forall a, R a (AnimatedCamera_play CallOnShotFinished a).
Hypothesis R_evaluate : forall t a, R a (evaluate t a).
Hypothesis R_finish_end :
  forall a, R a (set_action_time (duration (clip a)) (set_action_paused true a)).
Hypothesis R_finish_start :
  forall a, R a (set_action_time zero (set_action_paused true a)).
Hypothesis R_advance :
  forall t a, geb t (duration (clip a)) = false -> ltb t zero = false ->
              R a (set_action_time t a).
Hypothesis R_stop : forall a, R a (AnimatedCamera_stop a).
Hypothesis R_setDuration : forall d a, R a (setDuration d a).
Hypothesis R_scrub : forall t a, R a (scrub_binding t a).

Lemma Forall2_R_refl l : Forall2 R l l.
Proof. induction l; constructor; auto. Qed.

Lemma Forall2_R_trans l1 l2 l3 : Forall2 R l1 l2 -> Forall2 R l2 l3 -> Forall2 R l1 l3.
Proof.
  intros H. revert l3. induction H; intros l3 H3; inversion H3; subst; constructor; eauto.
Qed.

Lemma Forall2_R_alter f i l :
  (forall a, l !! i = Some a -> R a (f a)) -> Forall2 R l (alter f i l).
Proof.
  revert i. induction l as [| x l IH]; intros i H; [constructor |].
  destruct i as [| i]; simpl.
  - constructor; [apply H; reflexivity | apply Forall2_R_refl].
  - constructor; [apply R_refl | apply IH; intros a Ha; apply H; exact Ha].
Qed.

Lemma on_shot_rel i f s :
  (forall a, shots s !! i = Some a -> R a (f a)) ->
  Forall2 R (shots s) (shots (on_shot i f s)).
Proof. intros H. simpl. apply Forall2_R_alter, H. Qed.

Lemma playCurrentShot_rel s : Forall2 R (shots s) (shots (playCurrentShot s)).
Proof.
  unfold playCurrentShot.
  destruct (sequence s) as [seq |]; [| apply Forall2_R_refl].
  destruct (Z.of_nat (length seq) <=? currentShotIndex s); [apply Forall2_R_refl |].
  destruct (at_index seq (currentShotIndex s)); [| apply Forall2_R_refl].
  apply on_shot_rel. intros a _. apply R_play.
Qed.

Lemma onShotFinished_rel s : Forall2 R (shots s) (shots (onShotFinished s)).
Proof.
  unfold onShotFinished. simpl.
  destruct (sequence s) as [seq |]; [| apply Forall2_R_refl].
  destruct (Z.of_nat (length seq) <=? currentShotIndex s + 1).
  - destruct (loop s).
    + apply (playCurrentShot_rel (set_currentShotIndex 0 (set_currentShotIndex _ s))).
    + simpl. destruct (onShotsCompleted s); apply Forall2_R_refl.
  - apply (playCurrentShot_rel (set_currentShotIndex _ s)).
Qed.

Lemma finishedListener_rel self s :
  Forall2 R (shots s) (shots (finishedListener self s)).
Proof.
  unfold finishedListener.
  destruct (shots s !! self) as [a |]; [| apply Forall2_R_refl].
  destruct (onFinishCallback a) as [[] |]; [| apply Forall2_R_refl].
  apply (onShotFinished_rel (emit (ShotFinish self) s)).
Qed.

Lemma finish_at_rel self endTime s :
  (forall a, shots s !! self = Some a ->
             R a (set_action_time endTime (set_action_paused true a))) ->
  Forall2 R (shots s) (shots (finish_at self endTime s)).
Proof.
  intros H. unfold finish_at.
  eapply Forall2_R_trans; [apply on_shot_rel; exact H |].
  eapply Forall2_R_trans; [apply finishedListener_rel |].
  apply on_shot_rel. intros a _. apply R_evaluate.
Qed.

Lemma mixer_update_rel self deltaTime s :
  Forall2 R (shots s) (shots (mixer_update self deltaTime s)).
Proof.
  unfold mixer_update.
  set (s0 := emit (MixerUpdate self deltaTime) s).
  change (shots s) with (shots s0).
  destruct (shots s0 !! self) as [a |] eqn:Ha; [| apply Forall2_R_refl].
  destruct (negb (mixer_active a)); [apply Forall2_R_refl |].
  destruct (seqb _ zero); [apply on_shot_rel; intros; apply R_evaluate |].
  destruct (geb _ _) eqn:Hge.
  { apply finish_at_rel. intros a' Ha'. rewrite Ha in Ha'. injection Ha' as <-.
    apply R_finish_end. }
  destruct (ltb _ zero) eqn:Hlt.
  { apply finish_at_rel. intros a' Ha'. apply R_finish_start. }
  match goal with
  | |- Forall2 R _ (shots (on_shot _ _ (on_shot ?j ?g ?x))) =>
      apply (Forall2_R_trans _ (shots (on_shot j g x)))
  end.
  - apply on_shot_rel. intros a' Ha'. rewrite Ha in Ha'. injection Ha' as <-.
    apply R_advance; assumption.
  - apply on_shot_rel. intros; apply R_evaluate.
Qed.

Lemma update_rel delta s s' :
  update delta s = Ok s' -> Forall2 R (shots s) (shots s').
Proof.
  intros H. apply update_cases in H.
  destruct H as [-> | (s0 & seq & Hc & _ & _ & _ & [[_ ->] | (shot & _ & ->)])].
  - apply Forall2_R_refl.
  - destruct Hc as (<- & _). apply Forall2_R_refl.
  - destruct Hc as (<- & _). apply (mixer_update_rel shot delta s0).
Qed.

Lemma stop_all_rel seq l : Forall2 R l (stop_all seq l).
Proof.
  revert l. induction seq as [| shot seq IH]; intros l; [apply Forall2_R_refl |].
  simpl. eapply Forall2_R_trans; [| apply IH].
  apply Forall2_R_alter. intros; apply R_stop.
Qed.

Lemma scrub_rel time cam s : Forall2 R (shots s) (shots (fst (scrub time cam s))).
Proof.
  destruct (sequence s) as [seq |] eqn:Hseq.
  2: { rewrite scrub_unconfigured by (left; exact Hseq). apply Forall2_R_refl. }
  destruct seq as [| shot0 seq].
  { rewrite scrub_unconfigured by (right; exact Hseq). apply Forall2_R_refl. }
  destruct (scrub_spec s (shot0 :: seq) time cam Hseq ltac:(discriminate))
    as (k & target & scrubTime & _ & Heq).
  cbv zeta in Heq. rewrite Heq. simpl.
  unfold scrubbed_shots.
  eapply Forall2_R_trans; [apply stop_all_rel |].
  apply Forall2_R_alter. intros; apply R_scrub.
Qed.

Lemma setShotDuration_rel shotName newDuration s :
  Forall2 R (shots s) (shots (fst (setShotDuration shotName newDuration s))).
Proof.
  unfold setShotDuration.
  destruct (find_shot shotName (shots s) ≫= _) as [[shot a] |]; simpl.
  - apply Forall2_R_alter. intros; apply R_setDuration.
  - apply Forall2_R_refl.
Qed.

Lemma play_rel onCompleted s : Forall2 R (shots s) (shots (play onCompleted s)).
Proof.
  unfold play.
  destruct (sequence s) as [[| shot0 seq] |] eqn:Hseq; try apply Forall2_R_refl.
  match goal with |- Forall2 R _ (shots (playCurrentShot ?x)) =>
    apply (playCurrentShot_rel x) end.
Qed.

Lemma perform_rel c s : Forall2 R (shots s) (shots (perform c s)).
Proof.
  destruct c; simpl.
  - apply Forall2_R_refl.
  - apply Forall2_R_refl.
  - apply setShotDuration_rel.
  - apply play_rel.
  - apply scrub_rel.
  - destruct (update delta s) eqn:E; [eapply update_rel; exact E | apply Forall2_R_refl].
  - apply Forall2_R_refl.
  - apply Forall2_R_refl.
Qed.

Lemma perform_all_rel cs s : Forall2 R (shots s) (shots (perform_all cs s)).
Proof.
  revert s. induction cs as [| c cs IH]; intros s; [apply Forall2_R_refl |].
  simpl. eapply Forall2_R_trans; [apply perform_rel | apply IH].
Qed.

End ShotRelation.

(** ** Which shot plays next *)

Section Control.
Context {N : Number}.

Lemma control_on_shot i f s : control (on_shot i f s) = control s.
Proof. reflexivity. Qed.

Lemma control_playCurrentShot s : control (playCurrentShot s) = control s.
Proof.
  unfold playCurrentShot.
  destruct (sequence s) as [seq |]; [| reflexivity].
  destruct (Z.of_nat (length seq) <=? currentShotIndex s); [reflexivity |].
  destruct (at_index seq (currentShotIndex s)); reflexivity.
Qed.

(** What [onShotFinished] does to the control fields. *)
Lemma control_onShotFinished s :
  control (onShotFinished s)
  = match sequence s with
    | None => (None, currentShotIndex s + 1, isPlaying s, loop s, onShotsCompleted s)
    | Some seq =>
        if Z.of_nat (length seq) <=? currentShotIndex s + 1 then
          if loop s then (Some seq, 0, isPlaying s, true, onShotsCompleted s)
          else (Some seq, currentShotIndex s + 1, false, false, onShotsCompleted s)
        else (Some seq, currentShotIndex s + 1, isPlaying s, loop s, onShotsCompleted s)
    end.
Proof.
  unfold onShotFinished. simpl.
  destruct (sequence s) as [seq |] eqn:Hseq.
  2: { unfold control. simpl. rewrite Hseq. reflexivity. }
  destruct (Z.of_nat (length seq) <=? currentShotIndex s + 1).
  - destruct (loop s) eqn:Hloop.
    + rewrite control_playCurrentShot. unfold control. simpl. rewrite Hseq, Hloop. reflexivity.
    + simpl. destruct (onShotsCompleted s) eqn:Hcb; unfold control; simpl;
        rewrite Hseq, Hloop, ?Hcb; reflexivity.
  - rewrite control_playCurrentShot. unfold control. simpl. rewrite Hseq. reflexivity.
Qed.

Lemma control_onShotFinished_ext s1 s2 :
  control s1 = control s2 -> control (onShotFinished s1) = control (onShotFinished s2).
Proof.
  intros H. rewrite !control_onShotFinished.
  unfold control in H. injection H as -> -> -> -> ->. reflexivity.
Qed.

Lemma control_finishedListener self s :
  control (finishedListener self s) = control s \/
  control (finishedListener self s) = control (onShotFinished s).
Proof.
  unfold finishedListener.
  destruct (shots s !! self) as [a |]; [| left; reflexivity].
  destruct (onFinishCallback a) as [[] |]; [| left; reflexivity].
  right. apply control_onShotFinished_ext. reflexivity.
Qed.

Lemma control_finish_at self endTime s :
  control (finish_at self endTime s) = control s \/
  control (finish_at self endTime s) = control (onShotFinished s).
Proof.
  unfold finish_at. rewrite control_on_shot.
  destruct (control_finishedListener self
              (on_shot self (fun a => set_action_time endTime (set_action_paused true a)) s))
    as [H | H]; rewrite H; [left; reflexivity | right].
  apply control_onShotFinished_ext. reflexivity.
Qed.

Lemma control_mixer_update self deltaTime s :
  control (mixer_update self deltaTime s) = control s \/
  control (mixer_update self deltaTime s) = control (onShotFinished s).
Proof.
  unfold mixer_update.
  set (s0 := emit (MixerUpdate self deltaTime) s).
  assert (Hfin : forall endTime,
            control (finish_at self endTime s0) = control s \/
            control (finish_at self endTime s0) = control (onShotFinished s)).
  { intros endTime. destruct (control_finish_at self endTime s0) as [H | H]; rewrite H.
    - left. reflexivity.
    - right. apply control_onShotFinished_ext. reflexivity. }
  destruct (shots s0 !! self) as [a |]; [| left; reflexivity].
  destruct (negb (mixer_active a)); [left; reflexivity |].
  destruct (seqb _ zero); [left; reflexivity |].
  destruct (geb _ _); [apply Hfin |].
  destruct (ltb _ zero); [apply Hfin |].
  left. reflexivity.
Qed.

Lemma control_run_scripts s : control (run_scripts s) = control s.
Proof. reflexivity. Qed.

Lemma control_clock_moved delta s s0 : clock_moved delta s s0 -> control s0 = control s.
Proof.
  intros (_ & H1 & H2 & H3 & _ & H4 & H5 & _). unfold control.
  rewrite H1, H2, H3, H4, H5. reflexivity.
Qed.

(** An [update] leaves the control fields alone, or changes them as
    [onShotFinished] does; the latter only while playing at a position of
    the sequence. *)
Lemma control_update delta s s' :
  update delta s = Ok s' ->
  control s' = control s \/
  (isPlaying s = true /\
   (exists seq shot, sequence s = Some seq /\
                     at_index seq (currentShotIndex s) = Some shot) /\
   control s' = control (onShotFinished s)).
Proof.
  intros H. apply update_cases in H.
  destruct H as [-> | (s0 & seq & Hc & Hplay & Hseq & Hidx &
                       [[_ ->] | (shot & Hat & ->)])].
  - left. reflexivity.
  - left. rewrite control_run_scripts. eapply control_clock_moved, Hc.
  - rewrite control_run_scripts. apply control_clock_moved in Hc.
    destruct (control_mixer_update shot delta s0) as [H | H]; rewrite H.
    + left. exact Hc.
    + right. split; [exact Hplay |]. split; [exists seq, shot; split; assumption |].
      apply control_onShotFinished_ext, Hc.
Qed.

Lemma length_shots_perform c s : length (shots (perform c s)) = length (shots s).
Proof.
  symmetry. eapply Forall2_length.
  apply (perform_rel (fun _ _ => True)); intros; exact I.
Qed.

Lemma control_scrub time cam s :
  control (fst (scrub time cam s)) = control s \/
  (exists seq, sequence s = Some seq /\ seq <> [] /\
   control (fst (scrub time cam s))
   = (Some seq, currentShotIndex s, false, loop s, onShotsCompleted s)).
Proof.
  destruct (sequence s) as [seq |] eqn:Hseq.
  2: { rewrite scrub_unconfigured by (left; exact Hseq). left. reflexivity. }
  destruct seq as [| shot0 seq].
  { rewrite scrub_unconfigured by (right; exact Hseq). left. reflexivity. }
  destruct (scrub_spec s (shot0 :: seq) time cam Hseq ltac:(discriminate))
    as (k & target & scrubTime & _ & Heq).
  cbv zeta in Heq. rewrite Heq. right. eexists. split; [reflexivity |].
  split; [discriminate |]. unfold control. simpl. rewrite Hseq. reflexivity.
Qed.

Lemma control_play onCompleted s :
  (unconfigured s /\ control (play onCompleted s) = control s) \/
  (exists seq, sequence s = Some seq /\ seq <> [] /\
   control (play onCompleted s) = (Some seq, 0, true, loop s, onCompleted)).
Proof.
  destruct (sequence s) as [seq |] eqn:Hseq.
  2: { left. split; [left; exact Hseq |].
       rewrite play_unconfigured by (left; exact Hseq). reflexivity. }
  destruct seq as [| shot0 seq].
  { left. split; [right; exact Hseq |].
    rewrite play_unconfigured by (right; exact Hseq). reflexivity. }
  right. eexists. split; [reflexivity |]. split; [discriminate |].
  unfold play. rewrite Hseq. rewrite control_playCurrentShot.
  unfold control. simpl. rewrite Hseq. reflexivity.
Qed.

Lemma control_setShotDuration shotName newDuration s :
  control (fst (setShotDuration shotName newDuration s)) = control s.
Proof.
  unfold setShotDuration.
  destruct (find_shot shotName (shots s) ≫= _) as [[shot a] |]; reflexivity.
Qed.

End Control.

(** ** Invariants of the manager *)

Section Invariants.
Context {N : Number}.

Lemma bindings_related l l' :
  Forall2 (fun a a' => clip a' = clip a /\ cam_name (camera a') = cam_name (camera a)) l l' ->
  bindings l' = bindings l.
Proof.
  induction 1 as [| a a' l l' [Hc Hn] _ IH]; [reflexivity |].
  unfold bindings in *. simpl. rewrite Hc, Hn, IH. reflexivity.
Qed.

Lemma action_stop_binding a :
  clip (action_stop a) = clip a /\
  cam_name (camera (action_stop a)) = cam_name (camera a) /\
  action_timeScale (action_stop a) = action_timeScale a.
Proof.
  unfold action_stop.
  destruct (mixer_active a); [destruct (mixer_original a) |]; repeat split.
Qed.

(** No call adds a shot, removes one, or gives a shot another clip or
    another camera: the names of the cameras and the clips of the shots
    are, position by position, what they were. *)
Theorem shots_never_rebound (cs : list Call) (s : ShotsManager) :
  bindings (shots (perform_all cs s)) = bindings (shots s) /\
  length (shots (perform_all cs s)) = length (shots s).
Proof.
  assert (H : bindings (shots (perform_all cs s)) = bindings (shots s)).
  { apply bindings_related. apply perform_all_rel.
    - intros a. split; reflexivity.
    - intros a b c [H1 H2] [H3 H4]. split; congruence.
    - intros a. destruct (AnimatedCamera_play_spec CallOnShotFinished a)
        as (_ & _ & _ & _ & Hc & Hcam & _). rewrite Hc, Hcam. split; reflexivity.
    - intros t a. split; reflexivity.
    - intros a. split; reflexivity.
    - intros a. split; reflexivity.
    - intros t a _ _. split; reflexivity.
    - intros a. destruct (action_stop_binding a) as (H1 & H2 & _). split; assumption.
    - intros d a. split; reflexivity.
    - intros t a. destruct (scrub_binding_fields t a) as (_ & _ & _ & Hc & _ & _ & Hcam).
      rewrite Hc, Hcam. split; reflexivity. }
  split; [exact H |].
  apply (f_equal length) in H. unfold bindings in H. rewrite !length_map in H. exact H.
Qed.

Lemma length_shots_perform_all cs s :
  length (shots (perform_all cs s)) = length (shots s).
Proof.
  revert s. induction cs as [| c cs IH]; intros s; [reflexivity |].
  simpl. rewrite IH. apply length_shots_perform.
Qed.

Lemma config_loop_valid l names :
  Forall (fun shot => (shot < length l)%nat) (config_loop l names).
Proof.
  induction names as [| n names IH]; simpl; [constructor |].
  destruct (find_shot n l) as [shot |] eqn:E; [| exact IH].
  constructor; [| exact IH].
  apply find_shot_Some in E as (a & Ha & _). eapply lookup_lt_Some, Ha.
Qed.

Lemma valid_sequence_kept s s' :
  length (shots s') = length (shots s) -> sequence s' = sequence s ->
  valid_sequence s -> valid_sequence s'.
Proof. unfold valid_sequence. intros Hl Hs H seq Hseq. rewrite Hl. apply H. congruence. Qed.

Lemma well_formed_kept s s' :
  length (shots s') = length (shots s) ->
  sequence s' = sequence s -> currentShotIndex s' = currentShotIndex s ->
  isPlaying s' = isPlaying s ->
  well_formed s -> well_formed s'.
Proof.
  intros Hl Hs Hi Hp (Hv & Hge & Hpl).
  split; [eapply valid_sequence_kept; eassumption |].
  rewrite Hi, Hp, Hs. split; assumption.
Qed.

Lemma steady_kept s s' :
  length (shots s') = length (shots s) ->
  sequence s' = sequence s -> currentShotIndex s' = currentShotIndex s ->
  isPlaying s' = isPlaying s ->
  steady s -> steady s'.
Proof.
  intros Hl Hs Hi Hp (Hv & Hr).
  split; [eapply valid_sequence_kept; eassumption |].
  unfold index_in_range. rewrite Hi, Hp, Hs. exact Hr.
Qed.

Lemma control_fields s s' :
  control s' = control s ->
  sequence s' = sequence s /\ currentShotIndex s' = currentShotIndex s /\
  isPlaying s' = isPlaying s /\ loop s' = loop s /\ onShotsCompleted s' = onShotsCompleted s.
Proof. unfold control. intros [= -> -> -> -> ->]. repeat split. Qed.

Lemma well_formed_perform c s : well_formed s -> well_formed (perform c s).
Proof.
  intros Hwf. pose proof (length_shots_perform c s) as Hlen.
  destruct c; simpl in *.
  - destruct Hwf as (Hv & Hge & Hpl).
    split; [| split; [exact Hge | intros Hp; split; [apply Hpl, Hp | eexists; reflexivity]]].
    intros seq [= <-]. apply config_loop_valid.
  - eapply well_formed_kept; [| | | | exact Hwf]; reflexivity.
  - pose proof (control_setShotDuration shotName newDuration s) as Hc.
    apply control_fields in Hc as (H1 & H2 & H3 & _).
    eapply well_formed_kept; eassumption.
  - destruct (control_play onCompleted s) as [[_ Hc] | (seq & Hseq & Hne & Hc)].
    + apply control_fields in Hc as (H1 & H2 & H3 & _).
      eapply well_formed_kept; eassumption.
    + unfold control in Hc. injection Hc as H1 H2 H3 _ _.
      destruct Hwf as (Hv & Hge & Hpl).
      split; [eapply valid_sequence_kept; [exact Hlen | congruence | exact Hv] |].
      rewrite H2, H1. split; [lia |]. intros _. split; [lia | eexists; reflexivity].
  - destruct (control_scrub time cam s) as [Hc | (seq & Hseq & Hne & Hc)].
    + apply control_fields in Hc as (H1 & H2 & H3 & _).
      eapply well_formed_kept; eassumption.
    + unfold control in Hc. injection Hc as H1 H2 H3 _ _.
      destruct Hwf as (Hv & Hge & Hpl).
      split; [eapply valid_sequence_kept; [exact Hlen | congruence | exact Hv] |].
      rewrite H2, H3. split; [exact Hge | discriminate].
  - destruct (update delta s) as [s' |] eqn:E; [| exact Hwf].
    destruct (control_update delta s s' E) as [Hc | (Hplay & (seq & shot & Hseq & Hat) & Hc)].
    + apply control_fields in Hc as (H1 & H2 & H3 & _).
      eapply well_formed_kept; eassumption.
    + rewrite control_onShotFinished, Hseq in Hc.
      destruct Hwf as (Hv & Hge & Hpl).
      apply at_index_Some in Hat as [Hidx _].
      assert (Hv' : valid_sequence s').
      { eapply valid_sequence_kept; [exact Hlen | | exact Hv].
        destruct (_ <=? _) in Hc; [destruct (loop s) |];
          unfold control in Hc; injection Hc as -> _ _ _ _; congruence. }
      split; [exact Hv' |].
      destruct (_ <=? _) in Hc; [destruct (loop s) |];
        unfold control in Hc; injection Hc as H1 H2 H3 _ _; rewrite H1, H2, H3;
        (split; [lia |]); intros Hp; try discriminate;
        (split; [lia | eexists; reflexivity]).
  - eapply well_formed_kept; [| | | | exact Hwf]; reflexivity.
  - eapply well_formed_kept; [| | | | exact Hwf]; reflexivity.
Qed.

Lemma well_formed_perform_all cs s : well_formed s -> well_formed (perform_all cs s).
Proof.
  revert s. induction cs as [| c cs IH]; intros s H; [exact H |].
  simpl. apply IH, well_formed_perform, H.
Qed.

Lemma build_shots_length clips cams l :
  build_shots clips cams = Some l -> length l = length cams.
Proof.
  revert l. induction cams as [| cam cams IH]; intros l; simpl.
  - intros [= <-]. reflexivity.
  - destruct (find_clip (cam_name cam) clips); [| discriminate].
    destruct (build_shots clips cams) as [l0 |]; [| discriminate].
    intros [= <-]. simpl. rewrite (IH l0); reflexivity.
Qed.

Lemma ShotsManager_new_fields cams clips m :
  ShotsManager_new cams clips = Some m ->
  build_shots clips cams = Some (shots m) /\
  sequence m = None /\ currentShotIndex m = -1 /\ isPlaying m = false /\
  targetCamera m = None /\ frameScripts m = [] /\ playheadTime m = zero /\
  onShotsCompleted m = None /\ loop m = false /\ trace m = [].
Proof.
  unfold ShotsManager_new.
  destruct (build_shots clips cams) as [l |]; [| discriminate].
  intros [= <-]. repeat split.
Qed.

Lemma well_formed_new cams clips m :
  ShotsManager_new cams clips = Some m -> well_formed m.
Proof.
  intros H. apply ShotsManager_new_fields in H as (_ & Hs & Hi & Hp & _).
  split; [| split].
  - intros seq Hseq. congruence.
  - lia.
  - intros Hp'. congruence.
Qed.

(** However a manager that was constructed is used, it has one shot for
    each camera it was given, every reference of the sequence is to one
    of them, the current index is at least -1, and while it plays there
    is a sequence and the index is not negative: [playCurrentShot] and
    [update] never read the sequence at a negative index. *)
Theorem constructed_manager_well_formed (cams : list PerspectiveCamera)
    (clips : list AnimationClip) (m : ShotsManager) (cs : list Call) :
  ShotsManager_new cams clips = Some m ->
  let s := perform_all cs m in
  length (shots s) = length cams /\
  valid_sequence s /\
  -1 <= currentShotIndex s /\
  (isPlaying s = true -> 0 <= currentShotIndex s /\ is_Some (sequence s)).
Proof.
  intros Hnew s. split.
  - subst s. rewrite length_shots_perform_all.
    apply ShotsManager_new_fields in Hnew as (Hb & _).
    eapply build_shots_length, Hb.
  - apply (well_formed_perform_all cs m), (well_formed_new cams clips m Hnew).
Qed.

End Invariants.

(** ** When [update] faults *)

Section Faults.
Context {N : Number}.

Lemma steady_perform c s :
  is_config c = false \/ isPlaying s = false -> steady s -> steady (perform c s).
Proof.
  intros Hidle Hst. pose proof (length_shots_perform c s) as Hlen.
  destruct c; simpl in *.
  - destruct Hidle as [? | Hp]; [discriminate |].
    split.
    + intros seq [= <-]. apply config_loop_valid.
    + intros Hp'. simpl in Hp'. congruence.
  - eapply steady_kept; [| | | | exact Hst]; reflexivity.
  - pose proof (control_setShotDuration shotName newDuration s) as Hc.
    apply control_fields in Hc as (H1 & H2 & H3 & _).
    eapply steady_kept; eassumption.
  - destruct (control_play onCompleted s) as [[_ Hc] | (seq & Hseq & Hne & Hc)].
    + apply control_fields in Hc as (H1 & H2 & H3 & _).
      eapply steady_kept; eassumption.
    + unfold control in Hc. injection Hc as H1 H2 H3 _ _.
      destruct Hst as (Hv & Hr).
      split; [eapply valid_sequence_kept; [exact Hlen | congruence | exact Hv] |].
      intros _. exists seq. split; [exact H1 |]. rewrite H2.
      destruct seq; [contradiction | simpl; lia].
  - destruct (control_scrub time cam s) as [Hc | (seq & Hseq & Hne & Hc)].
    + apply control_fields in Hc as (H1 & H2 & H3 & _).
      eapply steady_kept; eassumption.
    + unfold control in Hc. injection Hc as H1 H2 H3 _ _.
      destruct Hst as (Hv & Hr).
      split; [eapply valid_sequence_kept; [exact Hlen | congruence | exact Hv] |].
      intros Hp. congruence.
  - destruct (update delta s) as [s' |] eqn:E; [| exact Hst].
    destruct (control_update delta s s' E) as [Hc | (Hplay & _ & Hc)].
    + apply control_fields in Hc as (H1 & H2 & H3 & _).
      eapply steady_kept; eassumption.
    + destruct Hst as (Hv & Hr).
      destruct (Hr Hplay) as (seq & Hseq & Hidx).
      rewrite control_onShotFinished, Hseq in Hc.
      assert (Hv' : valid_sequence s').
      { eapply valid_sequence_kept; [exact Hlen | | exact Hv].
        destruct (_ <=? _) in Hc; [destruct (loop s) |];
          unfold control in Hc; injection Hc as -> _ _ _ _; congruence. }
      split; [exact Hv' |].
      destruct (Z.leb_spec (Z.of_nat (length seq)) (currentShotIndex s + 1));
        [destruct (loop s) |];
        unfold control in Hc; injection Hc as H1 H2 H3 _ _; intros Hp;
        try congruence; exists seq; (split; [exact H1 |]); rewrite H2; lia.
  - eapply steady_kept; [| | | | exact Hst]; reflexivity.
  - eapply steady_kept; [| | | | exact Hst]; reflexivity.
Qed.

Lemma steady_perform_all cs s :
  config_only_when_idle cs s = true -> steady s -> steady (perform_all cs s).
Proof.
  revert s. induction cs as [| c cs IH]; intros s Hidle Hst; [exact Hst |].
  simpl in *. apply andb_prop in Hidle as [Hc Hrest].
  apply IH; [exact Hrest |]. apply steady_perform; [| exact Hst].
  apply orb_prop in Hc as [Hc | Hc]; [left | right].
  - destruct (is_config c); [discriminate | reflexivity].
  - destruct (isPlaying s); [discriminate | reflexivity].
Qed.

Lemma steady_update_ok delta s : steady s -> exists s', update delta s = Ok s'.
Proof.
  intros (Hv & Hr).
  destruct (isPlaying s) eqn:Hplay.
  2: { exists s. apply update_idle, Hplay. }
  destruct (Hr Hplay) as (seq & Hseq & Hidx).
  destruct (lookup_lt_is_Some_2 seq (Z.to_nat (currentShotIndex s)) ltac:(lia))
    as (shot & Hshot).
  assert (Hat : at_index seq (currentShotIndex s) = Some shot)
    by (apply at_index_Some; split; [lia | exact Hshot]).
  pose proof (Hv seq Hseq) as Hall.
  rewrite Forall_forall in Hall.
  assert (Hin : shot ∈ seq) by (eapply list_elem_of_lookup_2, Hshot).
  apply Hall in Hin.
  destruct (lookup_lt_is_Some_2 (shots s) shot Hin) as (a & Ha).
  eexists. eapply update_steps; eassumption.
Qed.

Lemma steady_new cams clips m : ShotsManager_new cams clips = Some m -> steady m.
Proof.
  intros H. apply ShotsManager_new_fields in H as (_ & Hs & _ & Hp & _).
  split.
  - intros seq Hseq. congruence.
  - intros Hp'. congruence.
Qed.

(** [update] reads the camera of [sequence[currentShotIndex]] without
    checking the index. On a manager that was constructed and then used
    in any way, so long as [config] was never called while it was
    playing, that read finds a shot: [update] returns, whatever its
    argument, with or without a target camera. *)
Theorem update_never_faults_without_config_during_playback
    (cams : list PerspectiveCamera) (clips : list AnimationClip)
    (m : ShotsManager) (cs : list Call) (delta : num) :
  ShotsManager_new cams clips = Some m ->
  config_only_when_idle cs m = true ->
  exists s', update delta (perform_all cs m) = Ok s'.
Proof.
  intros Hnew Hidle. apply steady_update_ok, steady_perform_all; [exact Hidle |].
  eapply steady_new, Hnew.
Qed.

End Faults.

(** ** Construction and configuration *)

Section Setup.
Context {N : Number}.

Lemma find_clip_Some name clips cl :
  find_clip name clips = Some cl <->
  exists j, clips !! j = Some cl /\ clip_name cl = name /\
            forall j' cl', (j' < j)%nat -> clips !! j' = Some cl' -> clip_name cl' <> name.
Proof.
  unfold find_clip. split.
  - destruct (list_find _ clips) as [[j c] |] eqn:Hf; [| discriminate].
    simpl. intros [= ->]. apply list_find_Some in Hf as (Hl & Hn & Hb).
    exists j. repeat split; try assumption.
    intros j' cl' Hj Hl'. exact (Hb j' cl' Hl' Hj).
  - intros (j & Hl & Hn & Hb).
    assert (Hf : list_find (fun c => clip_name c = name) clips = Some (j, cl)).
    { apply list_find_Some. repeat split; try assumption.
      intros j' cl' Hl' Hj. exact (Hb j' cl' Hj Hl'). }
    rewrite Hf. reflexivity.
Qed.

Lemma find_clip_is_Some name clips :
  is_Some (find_clip name clips) <-> exists cl, cl ∈ clips /\ clip_name cl = name.
Proof.
  unfold find_clip. split.
  - intros [cl H]. destruct (list_find _ clips) as [[j c] |] eqn:Hf; [| discriminate].
    apply list_find_Some in Hf as (Hl & Hn & _).
    exists c. split; [eapply list_elem_of_lookup_2, Hl | exact Hn].
  - intros (cl & Hin & Hn).
    destruct (list_find (fun c => clip_name c = name) clips) as [[j c] |] eqn:Hf.
    + eexists. reflexivity.
    + apply list_find_None in Hf. rewrite Forall_forall in Hf.
      exfalso. exact (Hf cl Hin Hn).
Qed.

Lemma build_shots_is_Some clips cams :
  is_Some (build_shots clips cams)
  <-> Forall (fun cam => exists cl, cl ∈ clips /\ clip_name cl = cam_name cam) cams.
Proof.
  induction cams as [| cam cams IH]; simpl.
  - split; [constructor | eexists; reflexivity].
  - rewrite Forall_cons, <- IH, <- find_clip_is_Some.
    destruct (find_clip (cam_name cam) clips) as [cl |].
    + destruct (build_shots clips cams) as [l |].
      * split; [intros _; split; eexists; reflexivity | eexists; reflexivity].
      * split; [intros [? ?]; discriminate | intros [_ [? ?]]; discriminate].
    + split; [intros [? ?]; discriminate | intros [[? ?] _]; discriminate].
Qed.

Lemma build_shots_lookup clips cams l i cam :
  build_shots clips cams = Some l ->
  cams !! i = Some cam ->
  exists cl, find_clip (cam_name cam) clips = Some cl /\
             l !! i = Some (AnimatedCamera_new cam cl).
Proof.
  revert l i. induction cams as [| cam0 cams IH]; intros l i; simpl; [intros _ H; inversion H |].
  destruct (find_clip (cam_name cam0) clips) as [cl0 |] eqn:Hf; [| discriminate].
  destruct (build_shots clips cams) as [l0 |]; [| discriminate].
  intros [= <-] Hi. destruct i as [| i]; simpl in *.
  - injection Hi as <-. exists cl0. split; [exact Hf | reflexivity].
  - apply (IH l0 i eq_refl Hi).
Qed.

(** [new ShotsManager(cameras, clips)] builds a manager exactly when
    every camera has a clip of its name. The manager then has one shot
    for each camera, in the order of the cameras; the shot of a camera
    has the first clip of that name, time scale 1 and an action that is
    not scheduled; there is no sequence, nothing plays, the index is -1
    and there are no frame scripts. *)
Theorem constructor_binds_by_name (cams : list PerspectiveCamera)
    (clips : list AnimationClip) :
  (is_Some (ShotsManager_new cams clips)
   <-> Forall (fun cam => exists cl, cl ∈ clips /\ clip_name cl = cam_name cam) cams) /\
  (forall m,
      ShotsManager_new cams clips = Some m ->
      length (shots m) = length cams /\
      (forall i cam,
          cams !! i = Some cam ->
          exists j cl,
            clips !! j = Some cl /\ clip_name cl = cam_name cam /\
            (forall j' cl', (j' < j)%nat -> clips !! j' = Some cl' ->
                            clip_name cl' <> cam_name cam) /\
            shots m !! i = Some (AnimatedCamera_new cam cl)) /\
      sequence m = None /\ currentShotIndex m = -1 /\ isPlaying m = false /\
      targetCamera m = None /\ frameScripts m = [] /\ playheadTime m = zero /\
      onShotsCompleted m = None /\ loop m = false).
Proof.
  split.
  - rewrite <- build_shots_is_Some. unfold ShotsManager_new.
    destruct (build_shots clips cams); split; intros [? ?]; try discriminate; eexists; reflexivity.
  - intros m Hnew.
    apply ShotsManager_new_fields in Hnew
      as (Hb & Hs & Hi & Hp & Htc & Hfs & Hph & Hcb & Hloop & _).
    split; [eapply build_shots_length, Hb |].
    split; [| repeat split; assumption].
    intros i cam Hcam.
    destruct (build_shots_lookup clips cams (shots m) i cam Hb Hcam) as (cl & Hf & Hl).
    apply find_clip_Some in Hf as (j & Hj & Hn & Hfirst).
    exists j, cl. repeat split; assumption.
Qed.

Lemma config_loop_omap l names :
  config_loop l names = omap (fun n => find_shot n l) names.
Proof.
  induction names as [| n names IH]; [reflexivity |].
  simpl. rewrite IH. destruct (find_shot n l); reflexivity.
Qed.

Lemma config_loop_first_match l names :
  Forall (fun shot =>
            exists a, l !! shot = Some a /\ clip_name (clip a) ∈ names /\
                      forall j a', (j < shot)%nat -> l !! j = Some a' ->
                                   clip_name (clip a') <> clip_name (clip a))
         (config_loop l names).
Proof.
  induction names as [| n names IH]; simpl; [constructor |].
  assert (IH' : Forall (fun shot =>
            exists a, l !! shot = Some a /\ clip_name (clip a) ∈ n :: names /\
                      forall j a', (j < shot)%nat -> l !! j = Some a' ->
                                   clip_name (clip a') <> clip_name (clip a))
         (config_loop l names)).
  { eapply Forall_impl; [exact IH |]. intros shot (a & H1 & H2 & H3).
    exists a. repeat split; [exact H1 | right; exact H2 | exact H3]. }
  destruct (find_shot n l) as [shot |] eqn:E; [| exact IH'].
  constructor; [| exact IH'].
  apply find_shot_Some in E as (a & Ha & Hn & Hfirst).
  exists a. split; [exact Ha |]. split; [rewrite Hn; left |].
  rewrite Hn. exact Hfirst.
Qed.

Lemma config_loop_length l names : (length (config_loop l names) <= length names)%nat.
Proof.
  induction names as [| n names IH]; simpl; [lia |].
  destruct (find_shot n l); simpl; lia.
Qed.

Lemma config_loop_length_known l names :
  (forall n, n ∈ names -> exists a, a ∈ l /\ clip_name (clip a) = n) ->
  length (config_loop l names) = length names.
Proof.
  induction names as [| n names IH]; intros H; simpl; [reflexivity |].
  destruct (find_shot n l) as [shot |] eqn:E.
  - simpl. rewrite IH; [reflexivity |]. intros n' Hn'. apply H. right. exact Hn'.
  - exfalso. destruct (H n ltac:(left)) as (a & Ha & Hn).
    rewrite find_shot_None in E. exact (E a Ha Hn).
Qed.

(** [config(shotsNames)] resolves each name, in the order given, to the
    first shot whose clip has that name; a name of no clip is dropped, a
    name given twice gives two references to the same shot. Only the
    sequence changes, and the sequence configured before plays no part in
    the result. *)
Theorem config_resolves_names (shotsNames : list string) (s : ShotsManager) :
  let seq := config_loop (shots s) shotsNames in
  config shotsNames s = set_sequence (Some seq) s /\
  seq = omap (fun n => find_shot n (shots s)) shotsNames /\
  Forall (fun shot =>
            exists a, shots s !! shot = Some a /\ clip_name (clip a) ∈ shotsNames /\
                      forall j a', (j < shot)%nat -> shots s !! j = Some a' ->
                                   clip_name (clip a') <> clip_name (clip a)) seq /\
  (length seq <= length shotsNames)%nat /\
  ((forall n, n ∈ shotsNames -> exists a, a ∈ shots s /\ clip_name (clip a) = n) ->
   length seq = length shotsNames) /\
  (forall before, config shotsNames (config before s) = config shotsNames s).
Proof.
  intros seq. subst seq.
  split; [reflexivity |].
  split; [apply config_loop_omap |].
  split; [apply config_loop_first_match |].
  split; [apply config_loop_length |].
  split; [apply config_loop_length_known |].
  intros before. reflexivity.
Qed.

Lemma find_shot_alter name f i l :
  (forall a, clip (f a) = clip a) ->
  find_shot name (alter f i l) = find_shot name l.
Proof.
  intros Hf. unfold find_shot.
  revert i. induction l as [| x l IH]; intros i; [reflexivity |].
  destruct i as [| i]; simpl.
  - rewrite Hf. destruct (decide (clip_name (clip x) = name)); reflexivity.
  - destruct (decide (clip_name (clip x) = name)); [reflexivity |].
    specialize (IH i). change (alter f i l) with (list_alter f i l) in IH.
    destruct (list_find _ (list_alter f i l)) as [[j a] |],
             (list_find _ l) as [[j' a'] |]; simpl in *; congruence.
Qed.

Lemma config_loop_alter f i l names :
  (forall a, clip (f a) = clip a) ->
  config_loop (alter f i l) names = config_loop l names.
Proof.
  intros Hf. induction names as [| n names IH]; [reflexivity |].
  simpl. rewrite IH, find_shot_alter by exact Hf. reflexivity.
Qed.

(** [setShotDuration] and [config] can be called in either order: the
    manager is the same. And [setShotDuration] computes the time scale
    from the duration of the clip, not from the time scale the shot has:
    of two calls on the same name the second decides, as if the first had
    not been made. *)
Theorem setShotDuration_config_commute (shotName : string) (newDuration : num)
    (shotsNames : list string) (s : ShotsManager) :
  setShotDuration shotName newDuration (config shotsNames s)
  = (config shotsNames (fst (setShotDuration shotName newDuration s)),
     snd (setShotDuration shotName newDuration s)) /\
  (forall earlier,
      shots (fst (setShotDuration shotName newDuration
                    (fst (setShotDuration shotName earlier s))))
      = shots (fst (setShotDuration shotName newDuration s))).
Proof.
  split.
  - unfold setShotDuration. simpl.
    destruct (find_shot shotName (shots s) ≫= _) as [[shot a] |]; simpl.
    + unfold config. simpl. rewrite config_loop_alter by reflexivity. reflexivity.
    + reflexivity.
  - intros earlier. unfold setShotDuration.
    destruct (find_shot shotName (shots s)) as [shot |] eqn:Hf; simpl.
    2: { rewrite Hf. reflexivity. }
    destruct (shots s !! shot) as [a |] eqn:Ha; simpl.
    2: { rewrite Hf. simpl. rewrite Ha. reflexivity. }
    rewrite find_shot_alter by reflexivity. rewrite Hf. simpl.
    rewrite list_lookup_alter_eq, Ha. simpl.
    rewrite list_alter_alter_eq. apply list_alter_ext; [| reflexivity].
    intros; reflexivity.
Qed.

Lemma script_ids_map f fs :
  (forall x, script_time (f x) = script_time x /\ callback (f x) = callback x) ->
  script_ids (map f fs) = script_ids fs.
Proof.
  intros H. unfold script_ids. rewrite map_map. apply map_ext.
  intros x. destruct (H x) as [-> ->]. reflexivity.
Qed.

Lemma frameScripts_scrub time cam s :
  frameScripts (fst (scrub time cam s)) = frameScripts s.
Proof.
  destruct (sequence s) as [seq |] eqn:Hseq.
  2: { rewrite scrub_unconfigured by (left; exact Hseq). reflexivity. }
  destruct seq as [| shot0 seq].
  { rewrite scrub_unconfigured by (right; exact Hseq). reflexivity. }
  destruct (scrub_spec s (shot0 :: seq) time cam Hseq ltac:(discriminate))
    as (k & target & scrubTime & _ & Heq).
  cbv zeta in Heq. rewrite Heq. reflexivity.
Qed.

Lemma frameScripts_playCurrentShot s : frameScripts (playCurrentShot s) = frameScripts s.
Proof.
  destruct (advanced_by_playCurrentShot s) as (_ & H & _). exact H.
Qed.

Lemma script_ids_perform c s :
  script_ids (frameScripts (perform c s))
  = script_ids (frameScripts s) ++ added_scripts [c].
Proof.
  destruct c; simpl; rewrite ?app_nil_r.
  - reflexivity.
  - unfold script_ids. rewrite map_app. reflexivity.
  - unfold setShotDuration.
    destruct (find_shot shotName (shots s) ≫= _) as [[shot a] |]; reflexivity.
  - unfold play. destruct (sequence s) as [[| shot0 seq] |]; try reflexivity.
    rewrite frameScripts_playCurrentShot. simpl.
    apply script_ids_map. intros x. split; reflexivity.
  - rewrite frameScripts_scrub. reflexivity.
  - destruct (update delta s) as [s' |] eqn:E; [| reflexivity].
    apply update_scripts in E as [-> | (now & pre & Hfs & _)]; [reflexivity |].
    rewrite Hfs. apply script_ids_map. intros x. unfold mark.
    destruct (due now x); split; reflexivity.
  - reflexivity.
  - reflexivity.
Qed.

(** The frame scripts are never removed, reordered or re-timed: after any
    calls, the list holds the scripts it held, then one script for each
    [addFrameScript] call, in the order of the calls, at the time
    [frame / baseFPS], with 24 for [baseFPS] when it is not given. *)
Theorem frame_scripts_only_grow (cs : list Call) (s : ShotsManager) :
  script_ids (frameScripts (perform_all cs s))
  = script_ids (frameScripts s) ++ added_scripts cs.
Proof.
  revert s. induction cs as [| c cs IH]; intros s; simpl.
  - rewrite app_nil_r. reflexivity.
  - rewrite IH, script_ids_perform, <- app_assoc. f_equal.
    unfold added_scripts. simpl. destruct c; reflexivity.
Qed.

End Setup.

(** ** Playing through the shots *)

Section Playback.
Context {N : Number}.

(** The finish callback of a shot, while the index is not at the last
    position of the sequence: the index moves on by one and the shot at
    the new position is played from its start (reset to time 0,
    scheduled, not paused), whether it is another shot or the same one
    again. The manager goes on playing if it was, and the completion
    callback is not called. *)
Theorem shot_finished_starts_next (s : ShotsManager) (seq : list nat)
    (self next : nat) (a b : AnimatedCamera) :
  sequence s = Some seq ->
  at_index seq (currentShotIndex s + 1) = Some next ->
  shots s !! self = Some a ->
  onFinishCallback a = Some CallOnShotFinished ->
  shots s !! next = Some b ->
  let s' := finishedListener self s in
  currentShotIndex s' = currentShotIndex s + 1 /\
  isPlaying s' = isPlaying s /\
  shots s' = <[next := AnimatedCamera_play CallOnShotFinished b]> (shots s) /\
  trace s' = trace s ++ [(playheadTime s, ShotFinish self)] /\
  sequence s' = sequence s /\ frameScripts s' = frameScripts s /\
  playheadTime s' = playheadTime s /\ targetCamera s' = targetCamera s /\
  onShotsCompleted s' = onShotsCompleted s /\ loop s' = loop s.
Proof.
  intros Hseq Hat Ha Hcb Hb s'. subst s'.
  apply at_index_Some in Hat as [Hidx Hnext].
  apply lookup_lt_Some in Hnext as Hlt.
  unfold finishedListener. rewrite Ha, Hcb.
  unfold onShotFinished. simpl. rewrite Hseq.
  destruct (Z.leb_spec (Z.of_nat (length seq)) (currentShotIndex s + 1)) as [? | _]; [lia |].
  rewrite (playCurrentShot_at _ seq next) by (simpl; assumption).
  simpl. rewrite (alter_as_insert _ _ _ _ Hb). repeat split. exact Hseq.
Qed.

Lemma mixer_update_advances self deltaTime s a :
  shots s !! self = Some a ->
  mixer_active a = true ->
  action_paused a = false ->
  let time := add (action_time a) (mul deltaTime (action_timeScale a)) in
  seqb (mul deltaTime (action_timeScale a)) zero = false ->
  geb time (duration (clip a)) = false ->
  ltb time zero = false ->
  mixer_update self deltaTime s
  = on_shot self (evaluate time)
      (on_shot self (set_action_time time) (emit (MixerUpdate self deltaTime) s)).
Proof.
  intros Ha Hact Hp time Hz Hge Hlt. subst time.
  unfold mixer_update. simpl. rewrite Ha, Hact, Hp. simpl.
  rewrite Hz, Hge, Hlt. reflexivity.
Qed.

Lemma mixer_update_finishes self deltaTime s a :
  shots s !! self = Some a ->
  mixer_active a = true ->
  action_paused a = false ->
  seqb (mul deltaTime (action_timeScale a)) zero = false ->
  geb (add (action_time a) (mul deltaTime (action_timeScale a))) (duration (clip a)) = true ->
  mixer_update self deltaTime s
  = finish_at self (duration (clip a)) (emit (MixerUpdate self deltaTime) s).
Proof.
  intros Ha Hact Hp Hz Hge.
  unfold mixer_update. simpl. rewrite Ha, Hact, Hp. simpl.
  rewrite Hz, Hge. reflexivity.
Qed.

Lemma shot_events_no_shot_event (t : num) evs :
  forallb (fun e => negb (is_shot_event e)) evs = true ->
  shot_events (map (pair t) evs) = [].
Proof.
  unfold shot_events. induction evs as [| e evs IH]; [reflexivity |].
  simpl. intros H. apply andb_prop in H as [He Hevs].
  destruct (is_shot_event e); [discriminate | apply IH, Hevs].
Qed.

Lemma fired_calls_no_shot_event k now fs :
  forallb (fun e => negb (is_shot_event e)) (fired_calls_from k now fs) = true.
Proof.
  unfold fired_calls_from. induction (List.filter _ _) as [| x l IH]; [reflexivity |].
  simpl. exact IH.
Qed.

Lemma run_scripts_fields s :
  shots (run_scripts s) = shots s /\
  playheadTime (run_scripts s) = playheadTime s /\
  targetCamera (run_scripts s) = targetCamera s /\
  frameScripts (run_scripts s) = map (mark (playheadTime s)) (frameScripts s) /\
  trace (run_scripts s)
  = trace s ++ map (pair (playheadTime s)) (fired_calls (playheadTime s) (frameScripts s)) /\
  shot_events (trace (run_scripts s)) = shot_events (trace s).
Proof.
  unfold run_scripts. rewrite check_scripts_spec. simpl. repeat split.
  rewrite shot_events_app, shot_events_no_shot_event, app_nil_r;
    [reflexivity | apply fired_calls_no_shot_event].
Qed.

(** An [update] while the current shot plays and does not reach an end
    of its clip: the action of the current shot moves on by
    [delta * timeScale] and the pose of the new time is written on its
    camera; no other shot is touched, the index stays, the manager goes
    on playing and no shot finishes. *)
Theorem update_advances_current_shot (s : ShotsManager) (seq : list nat)
    (delta : num) (shot : nat) (a : AnimatedCamera) :
  isPlaying s = true ->
  sequence s = Some seq ->
  at_index seq (currentShotIndex s) = Some shot ->
  shots s !! shot = Some a ->
  mixer_active a = true ->
  action_paused a = false ->
  let time := add (action_time a) (mul delta (action_timeScale a)) in
  seqb (mul delta (action_timeScale a)) zero = false ->
  geb time (duration (clip a)) = false ->
  ltb time zero = false ->
  exists s',
    update delta s = Ok s' /\
    shots s' = <[shot := evaluate time (set_action_time time a)]> (shots s) /\
    currentShotIndex s' = currentShotIndex s /\
    isPlaying s' = true /\
    sequence s' = sequence s /\
    playheadTime s' = add (playheadTime s) delta /\
    shot_events (trace s') = shot_events (trace s).
Proof.
  intros Hplay Hseq Hat Ha Hact Hp time Hz Hge Hlt.
  eexists. split; [eapply update_steps; eassumption |].
  pose proof (clock_moved_mirror delta a s) as (H1 & H2 & H3 & H4 & _ & _ & _ & H5 & H6).
  remember (set_playheadTime (add (playheadTime s) delta) (mirror a s)) as s0 eqn:Es0.
  clear Es0.
  destruct (run_scripts_fields (mixer_update shot delta s0)) as (R1 & R2 & _ & _ & _ & R3).
  rewrite (mixer_update_advances shot delta s0 a) in * by (rewrite ?H1; assumption).
  fold time in R1, R2, R3 |- *.
  split.
  { rewrite R1. simpl. rewrite list_alter_alter_eq, H1.
    rewrite (alter_as_insert _ _ _ _ Ha). reflexivity. }
  split; [exact H3 |]. split; [rewrite <- Hplay; exact H4 |].
  split; [exact H2 |]. split; [rewrite R2; exact H5 |].
  rewrite R3. simpl. rewrite shot_events_app, H6. simpl. apply app_nil_r.
Qed.

(** A [scrub] on a sequence that is not empty stops the playback: every
    [update] after it returns at once and changes nothing, until [play]
    is called. *)
Theorem scrub_halts_playback (s : ShotsManager) (seq : list nat) (time : num)
    (cam : PerspectiveCamera) (deltas : list num) :
  sequence s = Some seq ->
  seq <> [] ->
  let s1 := fst (scrub time cam s) in
  isPlaying s1 = false /\
  (forall delta, update delta s1 = Ok s1) /\
  perform_all (map CallUpdate deltas) s1 = s1.
Proof.
  intros Hseq Hne s1.
  assert (Hp : isPlaying s1 = false).
  { subst s1. destruct (scrub_spec s seq time cam Hseq Hne)
      as (k & target & scrubTime & _ & Heq).
    cbv zeta in Heq. rewrite Heq. reflexivity. }
  split; [exact Hp |]. split; [intros delta; apply update_idle, Hp |].
  induction deltas as [| d deltas IH]; [reflexivity |].
  simpl. rewrite update_idle by exact Hp. exact IH.
Qed.

Lemma fires_cons k (p : num * Effect) tr :
  fires k (p :: tr) = ((if is_call_of k (snd p) then 1 else 0) + fires k tr)%nat.
Proof. unfold fires. simpl. destruct (is_call_of k (snd p)); reflexivity. Qed.

(** A script registered while the manager plays, with a time the
    playhead has passed already or passes now, is called by the next
    [update], once. *)
Theorem late_script_fires_on_next_update (s : ShotsManager) (seq : list nat)
    (delta : num) (shot : nat) (a : AnimatedCamera)
    (frame : num) (cb : Callback) (baseFPS : option num) :
  isPlaying s = true ->
  sequence s = Some seq ->
  at_index seq (currentShotIndex s) = Some shot ->
  shots s !! shot = Some a ->
  ltb (div frame (default (of_Z 24) baseFPS)) (add (playheadTime s) delta) = true ->
  let k := length (frameScripts s) in
  exists s',
    update delta (addFrameScript frame cb baseFPS s) = Ok s' /\
    fires k (trace s') = (fires k (trace s) + 1)%nat /\
    script_called k s' = true.
Proof.
  intros Hplay Hseq Hat Ha Hdue k.
  set (s1 := addFrameScript frame cb baseFPS s).
  destruct (update_at_valid_index s1 seq delta shot a Hplay Hseq Hat Ha)
    as (s' & evs & Hup & _ & _ & Htr & Hevs & Hfs).
  exists s'. split; [exact Hup |].
  assert (Hk : frameScripts s1 !! k
               = Some {| script_time := div frame (default (of_Z 24) baseFPS);
                         callback := cb; called := None |}).
  { subst s1 k. simpl. rewrite lookup_app_r by lia.
    rewrite Nat.sub_diag. reflexivity. }
  split.
  - rewrite Htr, !fires_app, fires_cons, fires_app.
    rewrite (fires_no_script_call k _ evs) by (apply shot_events_no_script_call, Hevs).
    rewrite fires_fired_calls, Hk.
    unfold due. simpl. rewrite Hdue. simpl.
    assert (Hmirror : fires k match targetCamera s with
                              | Some tc => [(playheadTime s,
                                             ProjectionUpdated (syncCamera tc (camera a)))]
                              | None => []
                              end = 0%nat)
      by (destruct (targetCamera s); reflexivity).
    rewrite Hmirror. lia.
  - unfold script_called. rewrite Hfs, list_lookup_fmap, Hk. simpl.
    unfold mark, due. simpl. rewrite Hdue. reflexivity.
Qed.

End Playback.

(** ** A shot reaches the end of its clip *)

Section Finishing.
Context {N : Number}.

Lemma onShotFinished_next s seq next :
  sequence s = Some seq ->
  at_index seq (currentShotIndex s + 1) = Some next ->
  onShotFinished s
  = on_shot next (AnimatedCamera_play CallOnShotFinished)
      (set_currentShotIndex (currentShotIndex s + 1) s).
Proof.
  intros Hseq Hat. apply at_index_Some in Hat as [Hidx Hnext].
  apply lookup_lt_Some in Hnext as Hlt.
  unfold onShotFinished. simpl. rewrite Hseq.
  destruct (Z.leb_spec (Z.of_nat (length seq)) (currentShotIndex s + 1)) as [? | _]; [lia |].
  apply (playCurrentShot_at _ seq next); simpl; assumption.
Qed.

Lemma onShotFinished_wrap s seq first :
  sequence s = Some seq ->
  Z.of_nat (length seq) <= currentShotIndex s + 1 ->
  loop s = true ->
  seq !! 0%nat = Some first ->
  onShotFinished s
  = on_shot first (AnimatedCamera_play CallOnShotFinished)
      (set_currentShotIndex 0 (set_currentShotIndex (currentShotIndex s + 1) s)).
Proof.
  intros Hseq Hlen Hloop Hfirst.
  unfold onShotFinished. simpl. rewrite Hseq, Hloop.
  destruct (Z.leb_spec (Z.of_nat (length seq)) (currentShotIndex s + 1)) as [_ | ?]; [| lia].
  apply (playCurrentShot_at _ seq first); simpl; try assumption. lia.
Qed.

Lemma onShotFinished_done s seq :
  sequence s = Some seq ->
  Z.of_nat (length seq) <= currentShotIndex s + 1 ->
  loop s = false ->
  onShotFinished s
  = let s2 := set_isPlaying false (set_currentShotIndex (currentShotIndex s + 1) s) in
    match onShotsCompleted s with
    | Some cb => emit (CompletedCall cb) s2
    | None => s2
    end.
Proof.
  intros Hseq Hlen Hloop.
  unfold onShotFinished. simpl. rewrite Hseq, Hloop.
  destruct (Z.leb_spec (Z.of_nat (length seq)) (currentShotIndex s + 1)) as [_ | ?]; [| lia].
  reflexivity.
Qed.

Lemma finish_at_callback self s a :
  shots s !! self = Some a ->
  onFinishCallback a = Some CallOnShotFinished ->
  finish_at self (duration (clip a)) s
  = on_shot self (evaluate (duration (clip a)))
      (onShotFinished (emit (ShotFinish self) (on_shot self clamped_at_end s))).
Proof.
  intros Ha Hcb. unfold finish_at.
  assert (Hs1 : on_shot self (fun a0 => set_action_time (duration (clip a))
                                          (set_action_paused true a0)) s
                = on_shot self clamped_at_end s).
  { unfold on_shot. f_equal. rewrite !(alter_as_insert _ _ _ _ Ha). reflexivity. }
  rewrite Hs1. unfold finishedListener. simpl.
  rewrite list_lookup_alter_eq, Ha. simpl. rewrite Hcb. reflexivity.
Qed.

(** The manager after an [update] that carries the current shot to the
    end of its clip. *)
Lemma update_finishes_steps delta s seq shot a :
  isPlaying s = true ->
  sequence s = Some seq ->
  at_index seq (currentShotIndex s) = Some shot ->
  shots s !! shot = Some a ->
  mixer_active a = true ->
  action_paused a = false ->
  onFinishCallback a = Some CallOnShotFinished ->
  seqb (mul delta (action_timeScale a)) zero = false ->
  geb (add (action_time a) (mul delta (action_timeScale a))) (duration (clip a)) = true ->
  update delta s
  = Ok (run_scripts
          (on_shot shot (evaluate (duration (clip a)))
             (onShotFinished
                (emit (ShotFinish shot)
                   (on_shot shot clamped_at_end
                      (emit (MixerUpdate shot delta)
                         (set_playheadTime (add (playheadTime s) delta) (mirror a s)))))))).
Proof.
  intros Hplay Hseq Hat Ha Hact Hp Hcb Hz Hge.
  rewrite (update_steps delta s seq shot a) by assumption.
  assert (Ha0 : shots (set_playheadTime (add (playheadTime s) delta) (mirror a s)) !! shot
                = Some a).
  { unfold mirror. destruct (targetCamera s); exact Ha. }
  rewrite (mixer_update_finishes shot delta _ a) by assumption.
  rewrite (finish_at_callback shot _ a) by assumption.
  reflexivity.
Qed.

Lemma started_evaluate t a : started a -> started (evaluate t a).
Proof. intros H. exact H. Qed.

Lemma started_play a : started (AnimatedCamera_play CallOnShotFinished a).
Proof.
  destruct (AnimatedCamera_play_spec CallOnShotFinished a) as (H1 & H2 & H3 & H4 & _).
  repeat split; assumption.
Qed.

Lemma same_pace_update delta s s' :
  update delta s = Ok s' -> Forall2 same_pace (shots s) (shots s').
Proof.
  apply update_rel.
  - intros a. split; reflexivity.
  - intros a b c [H1 H2] [H3 H4]. split; congruence.
  - intros a. destruct (AnimatedCamera_play_spec CallOnShotFinished a)
      as (_ & _ & _ & _ & Hc & _ & Hts). split; assumption.
  - intros t a. split; reflexivity.
  - intros a. split; reflexivity.
  - intros a. split; reflexivity.
  - intros t a _ _. split; reflexivity.
Qed.

Lemma same_pace_play onCompleted s : Forall2 same_pace (shots s) (shots (play onCompleted s)).
Proof.
  apply play_rel.
  - intros a. split; reflexivity.
  - intros a. destruct (AnimatedCamera_play_spec CallOnShotFinished a)
      as (_ & _ & _ & _ & Hc & _ & Hts). split; assumption.
Qed.

(** The shot the index comes to after a shot has finished is started. *)
Lemma played_then_evaluated (l : list AnimatedCamera) shot next t :
  (next < length l)%nat ->
  exists b, alter (evaluate t) shot (alter (AnimatedCamera_play CallOnShotFinished) next l)
            !! next = Some b /\ started b.
Proof.
  intros Hlt. destruct (lookup_lt_is_Some_2 l next Hlt) as (b & Hb).
  destruct (decide (shot = next)) as [-> | Hne].
  - rewrite !list_lookup_alter_eq, Hb. simpl. eexists. split; [reflexivity |].
    apply started_evaluate, started_play.
  - rewrite list_lookup_alter_ne by exact Hne.
    rewrite list_lookup_alter_eq, Hb. simpl. eexists. split; [reflexivity |].
    apply started_play.
Qed.

(** An [update] that carries the current shot to the end of its clip,
    field by field. *)
Lemma update_finishes delta s seq shot a :
  isPlaying s = true ->
  sequence s = Some seq ->
  at_index seq (currentShotIndex s) = Some shot ->
  shots s !! shot = Some a ->
  started a \/ (mixer_active a = true /\ action_paused a = false /\
                onFinishCallback a = Some CallOnShotFinished) ->
  seqb (mul delta (action_timeScale a)) zero = false ->
  geb (add (action_time a) (mul delta (action_timeScale a))) (duration (clip a)) = true ->
  exists s',
    update delta s = Ok s' /\
    sequence s' = sequence s /\ loop s' = loop s /\
    onShotsCompleted s' = onShotsCompleted s /\
    playheadTime s' = add (playheadTime s) delta /\
    Forall2 same_pace (shots s) (shots s') /\
    ((exists next,
         at_index seq (currentShotIndex s + 1) = Some next /\
         currentShotIndex s' = currentShotIndex s + 1 /\ isPlaying s' = true /\
         ((next < length (shots s))%nat ->
          exists b, shots s' !! next = Some b /\ started b) /\
         shot_events (trace s') = shot_events (trace s) ++ [ShotFinish shot]) \/
     (Z.of_nat (length seq) <= currentShotIndex s + 1 /\ loop s = true /\
      currentShotIndex s' = 0 /\ isPlaying s' = true /\
      (forall first, seq !! 0%nat = Some first -> (first < length (shots s))%nat ->
                     exists b, shots s' !! first = Some b /\ started b) /\
      shot_events (trace s') = shot_events (trace s) ++ [ShotFinish shot]) \/
     (Z.of_nat (length seq) <= currentShotIndex s + 1 /\ loop s = false /\
      currentShotIndex s' = currentShotIndex s + 1 /\ isPlaying s' = false /\
      shots s' = <[shot := evaluate (duration (clip a)) (clamped_at_end a)]> (shots s) /\
      shot_events (trace s')
      = shot_events (trace s) ++ ShotFinish shot ::
          match onShotsCompleted s with
          | Some cb => [CompletedCall cb]
          | None => []
          end)).
Proof.
  intros Hplay Hseq Hat Ha Hst Hz Hge.
  assert (Hact : mixer_active a = true /\ action_paused a = false /\
                 onFinishCallback a = Some CallOnShotFinished).
  { destruct Hst as [(H1 & H2 & _ & H4) | H]; [repeat split; assumption | exact H]. }
  destruct Hact as (Hact & Hp & Hcb).
  pose proof (update_finishes_steps delta s seq shot a Hplay Hseq Hat Ha Hact Hp Hcb Hz Hge)
    as Hup.
  pose proof (clock_moved_mirror delta a s)
    as (C1 & C2 & C3 & C4 & C5 & C6 & C7 & C8 & C9).
  remember (set_playheadTime (add (playheadTime s) delta) (mirror a s)) as s0 eqn:Es0.
  clear Es0.
  set (s1 := emit (ShotFinish shot)
               (on_shot shot clamped_at_end (emit (MixerUpdate shot delta) s0))) in *.
  assert (Hseq1 : sequence s1 = Some seq) by (simpl; congruence).
  assert (Hidx1 : currentShotIndex s1 = currentShotIndex s) by (simpl; exact C3).
  assert (Htr1 : shot_events (trace s1) = shot_events (trace s) ++ [ShotFinish shot]).
  { simpl. rewrite !shot_events_app, C9. simpl. rewrite app_nil_r. reflexivity. }
  assert (Hlen1 : length (shots s1) = length (shots s)).
  { simpl. rewrite length_alter, C1. reflexivity. }
  eexists. split; [exact Hup |].
  pose proof (same_pace_update delta s _ Hup) as Hpace.
  destruct (run_scripts_fields
              (on_shot shot (evaluate (duration (clip a))) (onShotFinished s1)))
    as (R1 & R2 & _ & _ & _ & R3).
  destruct (advanced_by_onShotFinished s1) as (evs & (A1 & _ & A3 & _ & A5 & A6 & _) & _).
  split; [simpl; rewrite A1; simpl; exact C2 |].
  split; [simpl; rewrite A6; simpl; exact C7 |].
  split; [simpl; rewrite A5; simpl; exact C6 |].
  split; [rewrite R2; simpl; rewrite A3; simpl; exact C8 |].
  split; [exact Hpace |].
  rewrite R1, R3. clear R1 R2 R3 Hup Hpace A1 A3 A5 A6 evs.
  destruct (at_index seq (currentShotIndex s + 1)) as [next |] eqn:Hnext.
  - left. exists next. split; [reflexivity |].
    rewrite (onShotFinished_next s1 seq next) by (rewrite ?Hidx1; assumption).
    simpl. split; [rewrite C3; reflexivity |]. split; [rewrite C4; exact Hplay |].
    split; [| rewrite <- Htr1; reflexivity].
    intros Hlt. apply played_then_evaluated.
    rewrite length_alter, C1. exact Hlt.
  - assert (Hpast : Z.of_nat (length seq) <= currentShotIndex s + 1).
    { apply at_index_Some in Hat as [Hidx _].
      unfold at_index in Hnext.
      destruct (Z.ltb_spec (currentShotIndex s + 1) 0) as [? | _]; [lia |].
      apply lookup_ge_None in Hnext. lia. }
    right. destruct (loop s) eqn:Hloop.
    + left. split; [exact Hpast |]. split; [reflexivity |].
      destruct (seq !! 0%nat) as [first |] eqn:Hfirst.
      2: { apply lookup_ge_None in Hfirst. apply at_index_Some in Hat as [Hidx Hl].
           apply lookup_lt_Some in Hl. lia. }
      rewrite (onShotFinished_wrap s1 seq first)
        by (rewrite ?Hidx1; simpl; congruence).
      simpl. split; [reflexivity |]. split; [rewrite C4; exact Hplay |].
      split; [| rewrite <- Htr1; reflexivity].
      intros first' [= <-] Hlt. apply played_then_evaluated.
      rewrite length_alter, C1. exact Hlt.
    + right. split; [exact Hpast |]. split; [reflexivity |].
      rewrite (onShotFinished_done s1 seq) by (rewrite ?Hidx1; simpl; congruence).
      cbv zeta.
      assert (Hcb1 : onShotsCompleted s1 = onShotsCompleted s) by (simpl; exact C6).
      rewrite Hcb1.
      destruct (onShotsCompleted s) as [cb |]; simpl.
      * split; [rewrite C3; reflexivity |]. split; [reflexivity |].
        split.
        { rewrite list_alter_alter_eq, C1.
          rewrite (alter_as_insert _ _ _ _ Ha). reflexivity. }
        rewrite shot_events_app. fold s1. simpl.
        change (trace s0 ++ [(playheadTime s0, MixerUpdate shot delta)]
                  ++ [(playheadTime s0, ShotFinish shot)])
          with (trace s1) in *.
        simpl in Htr1. rewrite <- app_assoc in Htr1. simpl in Htr1.
        rewrite <- app_assoc. simpl.
        rewrite Htr1. rewrite <- app_assoc. reflexivity.
      * split; [rewrite C3; reflexivity |]. split; [reflexivity |].
        split.
        { rewrite list_alter_alter_eq, C1.
          rewrite (alter_as_insert _ _ _ _ Ha). reflexivity. }
        simpl in Htr1. exact Htr1.
Qed.

End Finishing.

Section FinishingProperties.
Context {N : Number}.

(** An [update] whose delta carries the current shot to the end of its
    clip finishes the shot within that call: the shot is left paused at
    the end of its clip with the pose of the end on its camera, and its
    finish callback runs once. If the index was not at the last
    position, it moves on by one and the shot there is started; if it
    was and [loop] is set, the index wraps to 0 and the first shot is
    started; if it was and [loop] is not set, the manager stops playing
    and the completion callback, if any, is called once, after the
    finish callback. No clip and no time scale changes. *)
Theorem update_finishes_current_shot (s : ShotsManager) (seq : list nat)
    (delta : num) (shot : nat) (a : AnimatedCamera) :
  isPlaying s = true ->
  sequence s = Some seq ->
  at_index seq (currentShotIndex s) = Some shot ->
  shots s !! shot = Some a ->
  started a \/ (mixer_active a = true /\ action_paused a = false /\
                onFinishCallback a = Some CallOnShotFinished) ->
  seqb (mul delta (action_timeScale a)) zero = false ->
  geb (add (action_time a) (mul delta (action_timeScale a))) (duration (clip a)) = true ->
  exists s',
    update delta s = Ok s' /\
    sequence s' = sequence s /\ loop s' = loop s /\
    onShotsCompleted s' = onShotsCompleted s /\
    playheadTime s' = add (playheadTime s) delta /\
    Forall2 same_pace (shots s) (shots s') /\
    ((exists next,
         at_index seq (currentShotIndex s + 1) = Some next /\
         currentShotIndex s' = currentShotIndex s + 1 /\ isPlaying s' = true /\
         ((next < length (shots s))%nat ->
          exists b, shots s' !! next = Some b /\ started b) /\
         shot_events (trace s') = shot_events (trace s) ++ [ShotFinish shot]) \/
     (Z.of_nat (length seq) <= currentShotIndex s + 1 /\ loop s = true /\
      currentShotIndex s' = 0 /\ isPlaying s' = true /\
      (forall first, seq !! 0%nat = Some first -> (first < length (shots s))%nat ->
                     exists b, shots s' !! first = Some b /\ started b) /\
      shot_events (trace s') = shot_events (trace s) ++ [ShotFinish shot]) \/
     (Z.of_nat (length seq) <= currentShotIndex s + 1 /\ loop s = false /\
      currentShotIndex s' = currentShotIndex s + 1 /\ isPlaying s' = false /\
      shots s' = <[shot := evaluate (duration (clip a)) (clamped_at_end a)]> (shots s) /\
      shot_events (trace s')
      = shot_events (trace s) ++ ShotFinish shot ::
          match onShotsCompleted s with
          | Some cb => [CompletedCall cb]
          | None => []
          end)).
Proof. apply update_finishes. Qed.

Lemma trace_playCurrentShot s : trace (playCurrentShot s) = trace s.
Proof.
  destruct (advanced_by_playCurrentShot s) as (_ & _ & _ & _ & _ & _ & H).
  rewrite H. apply app_nil_r.
Qed.

Lemma onShotFinished_loop_trace s :
  loop s = true -> trace (onShotFinished s) = trace s.
Proof.
  intros Hloop. unfold onShotFinished. simpl.
  destruct (sequence s) as [seq |]; [| reflexivity].
  rewrite Hloop.
  destruct (Z.of_nat (length seq) <=? currentShotIndex s + 1);
    rewrite trace_playCurrentShot; reflexivity.
Qed.

Lemma finishedListener_loop_trace self s :
  loop s = true ->
  exists fin, shot_events (trace (finishedListener self s))
              = shot_events (trace s) ++ map ShotFinish fin.
Proof.
  intros Hloop. unfold finishedListener.
  destruct (shots s !! self) as [a |]; [| exists []; symmetry; apply app_nil_r].
  destruct (onFinishCallback a) as [[] |]; [| exists []; symmetry; apply app_nil_r].
  exists [self]. rewrite onShotFinished_loop_trace by exact Hloop.
  simpl. rewrite shot_events_app. reflexivity.
Qed.

Lemma mixer_update_loop_trace self deltaTime s :
  loop s = true ->
  exists fin, shot_events (trace (mixer_update self deltaTime s))
              = shot_events (trace s) ++ map ShotFinish fin.
Proof.
  intros Hloop. unfold mixer_update.
  set (s0 := emit (MixerUpdate self deltaTime) s).
  assert (H0 : shot_events (trace s0) = shot_events (trace s)).
  { subst s0. simpl. rewrite shot_events_app. simpl. apply app_nil_r. }
  assert (Hstay : exists fin, shot_events (trace s0) = shot_events (trace s) ++ map ShotFinish fin).
  { exists []. rewrite H0. symmetry. apply app_nil_r. }
  assert (Hfin : forall endTime,
            exists fin, shot_events (trace (finish_at self endTime s0))
                        = shot_events (trace s) ++ map ShotFinish fin).
  { intros endTime. unfold finish_at.
    destruct (finishedListener_loop_trace self
                (on_shot self (fun a => set_action_time endTime (set_action_paused true a)) s0)
                Hloop) as (fin & Hf).
    exists fin. simpl in *. rewrite Hf. rewrite H0. reflexivity. }
  destruct (shots s0 !! self) as [a |]; [| exact Hstay].
  destruct (negb (mixer_active a)); [exact Hstay |].
  destruct (seqb _ zero); [exact Hstay |].
  destruct (geb _ _); [apply Hfin |].
  destruct (ltb _ zero); [apply Hfin |].
  exact Hstay.
Qed.

Lemma update_loop delta s s' :
  loop s = true ->
  update delta s = Ok s' ->
  isPlaying s' = isPlaying s /\ loop s' = true /\
  exists fin, shot_events (trace s') = shot_events (trace s) ++ map ShotFinish fin.
Proof.
  intros Hloop Hup.
  assert (Hc : isPlaying s' = isPlaying s /\ loop s' = true).
  { destruct (control_update delta s s' Hup) as [Hc | (_ & _ & Hc)].
    - apply control_fields in Hc as (_ & _ & H3 & H4 & _). split; congruence.
    - rewrite control_onShotFinished, Hloop in Hc.
      destruct (sequence s) as [seq |];
        [destruct (_ <=? _) in Hc |];
        unfold control in Hc; injection Hc as _ _ H3 H4 _; split; assumption. }
  destruct Hc as [Hp Hl]. split; [exact Hp |]. split; [exact Hl |].
  apply update_cases in Hup.
  destruct Hup as [-> | (s0 & seq & Hm & _ & _ & _ & [[_ ->] | (shot & _ & ->)])].
  - exists []. symmetry. apply app_nil_r.
  - destruct (run_scripts_fields s0) as (_ & _ & _ & _ & _ & R).
    rewrite R. destruct Hm as (_ & _ & _ & _ & _ & _ & _ & _ & H9). rewrite H9.
    exists []. symmetry. apply app_nil_r.
  - destruct (run_scripts_fields (mixer_update shot delta s0)) as (_ & _ & _ & _ & _ & R).
    rewrite R. destruct Hm as (_ & _ & _ & _ & _ & _ & Hl0 & _ & H9).
    destruct (mixer_update_loop_trace shot delta s0 ltac:(congruence)) as (fin & Hf).
    exists fin. rewrite Hf, H9. reflexivity.
Qed.

(** With [loop] set, no number of updates ends the playback: a manager
    that plays goes on playing, and the completion callback is never
    called; the only shot events are finish callbacks of shots. *)
Theorem looping_sequence_never_completes (s : ShotsManager) (deltas : list num) :
  loop s = true ->
  let s' := perform_all (map CallUpdate deltas) s in
  isPlaying s' = isPlaying s /\ loop s' = true /\
  exists fin, shot_events (trace s') = shot_events (trace s) ++ map ShotFinish fin.
Proof.
  revert s. induction deltas as [| d deltas IH]; intros s Hloop s'.
  - subst s'. simpl. split; [reflexivity |]. split; [exact Hloop |].
    exists []. symmetry. apply app_nil_r.
  - subst s'. simpl.
    destruct (update d s) as [s1 |] eqn:E.
    + destruct (update_loop d s s1 Hloop E) as (Hp & Hl & fin1 & Hf1).
      destruct (IH s1 Hl) as (Hp2 & Hl2 & fin2 & Hf2).
      split; [congruence |]. split; [exact Hl2 |].
      exists (fin1 ++ fin2). rewrite Hf2, Hf1, map_app, app_assoc. reflexivity.
    + apply IH, Hloop.
Qed.

End FinishingProperties.

(** ** One tick of [update], with the bindings *)

Section Tick.
Context {N : Number}.

Lemma mixer_update_inactive self deltaTime s a :
  shots s !! self = Some a ->
  mixer_active a = false ->
  mixer_update self deltaTime s = emit (MixerUpdate self deltaTime) s.
Proof. intros Ha H. unfold mixer_update. simpl. rewrite Ha, H. reflexivity. Qed.

Lemma mixer_update_still self deltaTime s a :
  shots s !! self = Some a ->
  mixer_active a = true ->
  let step := mul deltaTime (if action_paused a then zero else action_timeScale a) in
  seqb step zero = true ->
  mixer_update self deltaTime s
  = on_shot self (evaluate (add (action_time a) step)) (emit (MixerUpdate self deltaTime) s).
Proof.
  intros Ha Hact step Hz. subst step.
  unfold mixer_update. simpl. rewrite Ha, Hact. simpl. rewrite Hz. reflexivity.
Qed.

Lemma mixer_update_moves self deltaTime s a :
  shots s !! self = Some a ->
  mixer_active a = true ->
  let step := mul deltaTime (if action_paused a then zero else action_timeScale a) in
  let time := add (action_time a) step in
  seqb step zero = false ->
  geb time (duration (clip a)) = false ->
  ltb time zero = false ->
  mixer_update self deltaTime s
  = on_shot self (evaluate time)
      (on_shot self (set_action_time time) (emit (MixerUpdate self deltaTime) s)).
Proof.
  intros Ha Hact step time Hz Hge Hlt. subst time step.
  unfold mixer_update. simpl. rewrite Ha, Hact. simpl. rewrite Hz, Hge, Hlt. reflexivity.
Qed.

Lemma mixer_update_ends self deltaTime s a endTime :
  shots s !! self = Some a ->
  mixer_active a = true ->
  let step := mul deltaTime (if action_paused a then zero else action_timeScale a) in
  let time := add (action_time a) step in
  seqb step zero = false ->
  (geb time (duration (clip a)) = true /\ endTime = duration (clip a)) \/
  (geb time (duration (clip a)) = false /\ ltb time zero = true /\ endTime = zero) ->
  mixer_update self deltaTime s
  = finish_at self endTime (emit (MixerUpdate self deltaTime) s).
Proof.
  intros Ha Hact step time Hz Hend. subst time step.
  unfold mixer_update. simpl. rewrite Ha, Hact. simpl. rewrite Hz.
  destruct Hend as [[Hge ->] | (Hge & Hlt & ->)]; rewrite Hge; [| rewrite Hlt]; reflexivity.
Qed.

(** The action reaches an end of its clip: the binding is paused there,
    its finish callback, if it has one, runs, then the pose of the end is
    written on its camera. *)
Lemma finish_at_steps self endTime s a :
  shots s !! self = Some a ->
  finish_at self endTime s
  = on_shot self (evaluate endTime)
      (match onFinishCallback a with
       | Some CallOnShotFinished =>
           onShotFinished (emit (ShotFinish self) (on_shot self (paused_at endTime) s))
       | None => on_shot self (paused_at endTime) s
       end).
Proof.
  intros Ha. unfold finish_at.
  change (fun a0 => set_action_time endTime (set_action_paused true a0))
    with (paused_at endTime).
  unfold finishedListener. simpl. rewrite list_lookup_alter_eq, Ha. simpl.
  destruct (onFinishCallback a) as [[] |]; reflexivity.
Qed.

(** The manager before the mixer update of a tick: the pose is copied and
    the playhead moved. *)
Lemma tick_start delta a s :
  let s0 := set_playheadTime (add (playheadTime s) delta) (mirror a s) in
  shots s0 = shots s /\ sequence s0 = sequence s /\
  currentShotIndex s0 = currentShotIndex s /\ isPlaying s0 = isPlaying s /\
  frameScripts s0 = frameScripts s /\ onShotsCompleted s0 = onShotsCompleted s /\
  loop s0 = loop s /\ playheadTime s0 = add (playheadTime s) delta /\
  targetCamera s0
  = (fun tc => {| cam_name := cam_name tc; position := position (camera a);
                  quaternion := quaternion (camera a); fov := fov (camera a) |})
      <$> targetCamera s /\
  trace s0
  = trace s ++ match targetCamera s with
               | Some tc =>
                   [(playheadTime s,
                     ProjectionUpdated
                       {| cam_name := cam_name tc; position := position (camera a);
                          quaternion := quaternion (camera a); fov := fov (camera a) |})]
               | None => []
               end.
Proof.
  unfold mirror. destruct (targetCamera s) as [tc |] eqn:Htc; simpl;
    rewrite ?Htc, ?app_nil_r; repeat split.
Qed.


(** The calls of one tick, put together: whatever the mixer update [m] of
    the current shot has done, with the effects [evs]. *)
Lemma tick_assemble s seq delta shot a m evs :
  isPlaying s = true ->
  sequence s = Some seq ->
  at_index seq (currentShotIndex s) = Some shot ->
  shots s !! shot = Some a ->
  let s0 := set_playheadTime (add (playheadTime s) delta) (mirror a s) in
  mixer_update shot delta s0 = m ->
  advanced_by (MixerUpdate shot delta :: evs) s0 m ->
  let before := playheadTime s in
  let now := add before delta in
  let pose := fun tc =>
    {| cam_name := cam_name tc; position := position (camera a);
       quaternion := quaternion (camera a); fov := fov (camera a) |} in
  update delta s = Ok (run_scripts m) /\
  targetCamera (run_scripts m) = pose <$> targetCamera s /\
  playheadTime (run_scripts m) = now /\
  trace (run_scripts m)
  = trace s
    ++ match targetCamera s with
       | Some tc => [(before, ProjectionUpdated (pose tc))]
       | None => []
       end
    ++ (now, MixerUpdate shot delta) :: map (pair now) evs
    ++ map (pair now) (fired_calls now (frameScripts s)) /\
  frameScripts (run_scripts m) = map (mark now) (frameScripts s) /\
  shots (run_scripts m) = shots m /\
  currentShotIndex (run_scripts m) = currentShotIndex m /\
  isPlaying (run_scripts m) = isPlaying m.
Proof.
  intros Hplay Hseq Hat Ha s0 Hm Hadv before now pose.
  pose proof (update_steps delta s seq shot a Hplay Hseq Hat Ha) as Hup.
  fold s0 in Hup. rewrite Hm in Hup.
  destruct (tick_start delta a s) as (_ & _ & _ & _ & T5 & _ & _ & T8 & T9 & T10).
  fold s0 in T5, T8, T9, T10.
  destruct Hadv as (_ & A2 & A3 & A4 & _ & _ & A7).
  destruct (run_scripts_fields m) as (R1 & R2 & R3 & R4 & R5 & _).
  destruct (control_fields _ _ (control_run_scripts m)) as (_ & Rc2 & Rc3 & _).
  split; [exact Hup |].
  split; [rewrite R3, A4; exact T9 |].
  split; [rewrite R2, A3; exact T8 |].
  split.
  { rewrite R5, A7, A3, A2, T5, T8, T10. simpl. fold before now.
    rewrite <- !app_assoc. reflexivity. }
  split; [rewrite R4, A3, A2, T5, T8; reflexivity |].
  split; [exact R1 |]. split; assumption.
Qed.

(** C5. One [update(delta)] while playing at a valid index. The target
    camera, if there is one, gets the position, the quaternion and the
    field of view the camera of the current shot has before the update,
    and the copy is made while the playhead still has its old value; then
    the playhead is advanced by [delta]; then the mixer of the shot is
    updated and the shot-finish effects [evs] happen, and last the scripts
    are called, all with the playhead already advanced. The scripts called
    are those due at the new playhead (time strictly before it, flag not
    set), each once, in the order of the array, and they are marked as
    called. What the update of the mixer does to the bindings, with
    [step = delta * timeScale] (0 for a paused action) and
    [time = action time + step]: nothing when the action of the shot is
    not scheduled; when [step] is 0 the pose of [time] is written on the
    camera of the shot; when [time] stays inside the clip the action
    moves to [time] and the pose of [time] is written; when [time] reaches
    an end of the clip ([time >= duration], or else [time < 0]) the action
    is paused at that end, the finish callback of the shot runs (the next
    shot of the sequence is started, or the first one again when the
    sequence is over and [loop] is set, or else the manager stops playing
    and the completion callback is called), and the pose of the end is
    written on the camera of the shot. *)
Theorem update_tick (s : ShotsManager) (seq : list nat) (delta : num)
    (shot : nat) (a : AnimatedCamera) :
  isPlaying s = true ->
  sequence s = Some seq ->
  at_index seq (currentShotIndex s) = Some shot ->
  shots s !! shot = Some a ->
  let before := playheadTime s in
  let now := add before delta in
  let pose := fun tc =>
    {| cam_name := cam_name tc; position := position (camera a);
       quaternion := quaternion (camera a); fov := fov (camera a) |} in
  let step := mul delta (if action_paused a then zero else action_timeScale a) in
  let time := add (action_time a) step in
  exists s' evs,
    update delta s = Ok s' /\
    targetCamera s' = pose <$> targetCamera s /\
    playheadTime s' = now /\
    trace s' = trace s
               ++ match targetCamera s with
                  | Some tc => [(before, ProjectionUpdated (pose tc))]
                  | None => []
                  end
               ++ (now, MixerUpdate shot delta) :: map (pair now) evs
               ++ map (pair now) (fired_calls now (frameScripts s)) /\
    forallb is_shot_event evs = true /\
    frameScripts s' = map (mark now) (frameScripts s) /\
    (forall k, fires k (map (pair now) (fired_calls now (frameScripts s)))
               = match frameScripts s !! k with
                 | Some f => if ltb (script_time f) now && negb (is_called f)
                             then 1%nat else 0%nat
                 | None => 0%nat
                 end) /\
    StronglySorted lt (called_positions (fired_calls now (frameScripts s))) /\
    let stays := fun l =>
      shots s' = l /\ evs = [] /\
      currentShotIndex s' = currentShotIndex s /\ isPlaying s' = true in
    (mixer_active a = false -> stays (shots s)) /\
    (mixer_active a = true -> seqb step zero = true ->
     stays (<[shot := evaluate time a]> (shots s))) /\
    (mixer_active a = true -> seqb step zero = false ->
     geb time (duration (clip a)) = false -> ltb time zero = false ->
     stays (<[shot := evaluate time (set_action_time time a)]> (shots s))) /\
    (mixer_active a = true -> seqb step zero = false ->
     forall endTime,
       (geb time (duration (clip a)) = true /\ endTime = duration (clip a)) \/
       (geb time (duration (clip a)) = false /\ ltb time zero = true /\ endTime = zero) ->
       match onFinishCallback a with
       | None => stays (<[shot := evaluate endTime (paused_at endTime a)]> (shots s))
       | Some CallOnShotFinished =>
           if Z.of_nat (length seq) <=? currentShotIndex s + 1 then
             if loop s then
               exists first,
                 seq !! 0%nat = Some first /\
                 shots s'
                 = alter (evaluate endTime) shot
                     (alter (AnimatedCamera_play CallOnShotFinished) first
                        (<[shot := paused_at endTime a]> (shots s))) /\
                 evs = [ShotFinish shot] /\
                 currentShotIndex s' = 0 /\ isPlaying s' = true
             else
               shots s' = <[shot := evaluate endTime (paused_at endTime a)]> (shots s) /\
               evs = ShotFinish shot :: match onShotsCompleted s with
                                        | Some cb => [CompletedCall cb]
                                        | None => []
                                        end /\
               currentShotIndex s' = currentShotIndex s + 1 /\ isPlaying s' = false
           else
             exists next,
               at_index seq (currentShotIndex s + 1) = Some next /\
               shots s'
               = alter (evaluate endTime) shot
                   (alter (AnimatedCamera_play CallOnShotFinished) next
                      (<[shot := paused_at endTime a]> (shots s))) /\
               evs = [ShotFinish shot] /\
               currentShotIndex s' = currentShotIndex s + 1 /\ isPlaying s' = true
       end).
Proof.
  intros Hplay Hseq Hat Ha before now pose step time.
  pose proof (tick_assemble s seq delta shot a) as Hasm.
  specialize (fun m evs => Hasm m evs Hplay Hseq Hat Ha).
  cbv zeta in Hasm.
  destruct (tick_start delta a s) as (T1 & T2 & T3 & T4 & _ & T6 & T7 & _).
  cbv zeta in T1, T2, T3, T4, T6, T7.
  remember (set_playheadTime (add (playheadTime s) delta) (mirror a s)) as s0 eqn:Es0.
  clear Es0. fold before now pose in Hasm.
  assert (Ha0 : shots s0 !! shot = Some a) by (rewrite T1; exact Ha).
  assert (Hscripts : forall k, fires k (map (pair now) (fired_calls now (frameScripts s)))
               = match frameScripts s !! k with
                 | Some f => if ltb (script_time f) now && negb (is_called f)
                             then 1%nat else 0%nat
                 | None => 0%nat
                 end) by (intros k; apply fires_fired_calls).
  pose proof (called_positions_fired_calls 0 now (frameScripts s)) as [Hsorted _].
  assert (Hwrap : forall m evs,
            mixer_update shot delta s0 = m ->
            advanced_by (MixerUpdate shot delta :: evs) s0 m ->
            forallb is_shot_event evs = true ->
            forall P : ShotsManager -> list Effect -> Prop,
              (forall s', shots s' = shots m -> currentShotIndex s' = currentShotIndex m ->
                          isPlaying s' = isPlaying m -> P s' evs) ->
              exists s' evs,
                update delta s = Ok s' /\
                targetCamera s' = pose <$> targetCamera s /\
                playheadTime s' = now /\
                trace s' = trace s
                           ++ match targetCamera s with
                              | Some tc => [(before, ProjectionUpdated (pose tc))]
                              | None => []
                              end
                           ++ (now, MixerUpdate shot delta) :: map (pair now) evs
                           ++ map (pair now) (fired_calls now (frameScripts s)) /\
                forallb is_shot_event evs = true /\
                frameScripts s' = map (mark now) (frameScripts s) /\
                (forall k, fires k (map (pair now) (fired_calls now (frameScripts s)))
                           = match frameScripts s !! k with
                             | Some f => if ltb (script_time f) now && negb (is_called f)
                                         then 1%nat else 0%nat
                             | None => 0%nat
                             end) /\
                StronglySorted lt (called_positions (fired_calls now (frameScripts s))) /\
                P s' evs).
  { intros m evs Hm Hadv Hall P HP.
    destruct (Hasm m evs Hm Hadv) as (H1 & H2 & H3 & H4 & H5 & H6 & H7 & H8).
    exists (run_scripts m), evs.
    repeat (split; [assumption |]). apply HP; assumption. }
  clear Hasm.
  destruct (mixer_active a) eqn:Hact.
  2: { (* the action is not scheduled *)
    eapply (Hwrap _ []);
      [apply (mixer_update_inactive shot delta s0 a Ha0 Hact)
      | apply advanced_by_emit | reflexivity |].
    intros s' S1 S2 S3. simpl in S1, S2, S3. cbv zeta.
    split; [| split; [| split]]; try (intros; discriminate).
    intros _. repeat split; congruence. }
  destruct (seqb step zero) eqn:Hz.
  { (* no time passes for the action *)
    eapply (Hwrap _ []);
      [apply (mixer_update_still shot delta s0 a Ha0 Hact Hz)
      | unfold advanced_by; simpl; repeat split | reflexivity |].
    intros s' S1 S2 S3. simpl in S1, S2, S3. cbv zeta.
    split; [| split; [| split]]; try (intros; discriminate).
    intros _ _. fold step time in S1.
    rewrite T1, (alter_as_insert _ _ _ _ Ha) in S1. repeat split; congruence. }
  destruct (geb time (duration (clip a))) eqn:Hge.
  2: destruct (ltb time zero) eqn:Hlt.
  3: { (* the action moves on inside the clip *)
    eapply (Hwrap _ []);
      [apply (mixer_update_moves shot delta s0 a Ha0 Hact Hz Hge Hlt)
      | unfold advanced_by; simpl; repeat split | reflexivity |].
    intros s' S1 S2 S3. simpl in S1, S2, S3. cbv zeta.
    split; [| split; [| split]]; try (intros; discriminate).
    - intros _ _ _ _. fold step time in S1.
      rewrite list_alter_alter_eq, T1, (alter_as_insert _ _ _ _ Ha) in S1.
      repeat split; first [exact S1 | congruence].
    - intros _ _ endTime [[? _] | (_ & ? & _)]; discriminate. }
  all: (* the action reaches an end of its clip *)
    lazymatch goal with
    | _ : geb _ _ = true |- _ => set (endT := duration (clip a))
    | _ => set (endT := @zero N)
    end;
    assert (Hend : (geb time (duration (clip a)) = true /\ endT = duration (clip a)) \/
                   (geb time (duration (clip a)) = false /\ ltb time zero = true /\
                    endT = zero))
      by (first [left; split; [assumption | reflexivity]
                | right; split; [assumption | split; [assumption | reflexivity]]]);
    pose proof (mixer_update_ends shot delta s0 a endT Ha0 Hact Hz Hend) as Hm;
    rewrite (finish_at_steps shot endT _ a) in Hm by (simpl; exact Ha0);
    clearbody endT.
  all: destruct (onFinishCallback a) as [[] |] eqn:Hcb.
  2,4: (* no finish callback *)
    eapply (Hwrap _ []);
      [exact Hm | unfold advanced_by; simpl; repeat split | reflexivity |];
    intros s' S1 S2 S3; simpl in S1, S2, S3; cbv zeta;
    (split; [| split; [| split]]); try (intros; discriminate);
    intros _ _ endTime He;
    assert (endTime = endT) as ->
      by (destruct He as [[? ?] | (? & ? & ?)]; first [assumption | discriminate]);
    rewrite list_alter_alter_eq, T1, (alter_as_insert _ _ _ _ Ha) in S1;
    repeat split; first [exact S1 | congruence].
  all: set (s1 := emit (ShotFinish shot)
                    (on_shot shot (paused_at endT) (emit (MixerUpdate shot delta) s0))) in Hm;
    assert (Hseq1 : sequence s1 = Some seq) by (simpl; congruence);
    assert (Hidx1 : currentShotIndex s1 = currentShotIndex s) by (simpl; exact T3);
    assert (Hloop1 : loop s1 = loop s) by (simpl; exact T7);
    assert (Hcb1 : onShotsCompleted s1 = onShotsCompleted s) by (simpl; exact T6);
    assert (Hsh1 : shots s1 = <[shot := paused_at endT a]> (shots s))
      by (simpl; rewrite T1; apply alter_as_insert; exact Ha);
    assert (Hsh1a : shots s1 = alter (paused_at endT) shot (shots s))
      by (simpl; rewrite T1; reflexivity);
    assert (Hpl1 : isPlaying s1 = true) by (simpl; congruence);
    assert (Hadv1 : advanced_by [MixerUpdate shot delta; ShotFinish shot] s0 s1)
      by (unfold advanced_by; simpl; rewrite <- app_assoc; repeat split);
    clearbody s1.
  all: destruct (Z.leb_spec (Z.of_nat (length seq)) (currentShotIndex s + 1)) as [Hpast | Hin].
  1,3: destruct (loop s) eqn:Hloop.
  1,3: (* the sequence starts over *)
    destruct (seq !! 0%nat) as [first |] eqn:Hfirst;
      [| apply lookup_ge_None in Hfirst; apply at_index_Some in Hat as [_ Hl];
         apply lookup_lt_Some in Hl; lia];
    rewrite (onShotFinished_wrap s1 seq first) in Hm
      by (rewrite ?Hidx1; first [assumption | congruence]);
    eapply (Hwrap _ [ShotFinish shot]);
      [exact Hm
      | destruct Hadv1 as (A1 & A2 & A3 & A4 & A5 & A6 & A7);
        unfold advanced_by; simpl; repeat split; assumption
      | reflexivity |];
    intros s' S1 S2 S3; simpl in S1, S2, S3; cbv zeta;
    (split; [| split; [| split]]); try (intros; discriminate);
    intros _ _ endTime He;
    assert (endTime = endT) as ->
      by (destruct He as [[? ?] | (? & ? & ?)]; first [assumption | discriminate]);
    exists first; rewrite Hsh1 in S1;
    repeat split; first [exact S1 | congruence].
  1,2: (* the sequence is over *)
    rewrite (onShotFinished_done s1 seq) in Hm
      by (rewrite ?Hidx1; first [assumption | congruence]);
    cbv zeta in Hm; rewrite Hcb1 in Hm;
    eapply (Hwrap _ (ShotFinish shot :: match onShotsCompleted s with
                                        | Some cb => [CompletedCall cb]
                                        | None => []
                                        end));
      [exact Hm
      | destruct Hadv1 as (A1 & A2 & A3 & A4 & A5 & A6 & A7);
        destruct (onShotsCompleted s); unfold advanced_by; simpl;
        rewrite ?A7, ?A3, <- ?app_assoc; repeat split; assumption
      | destruct (onShotsCompleted s); reflexivity |];
    intros s' S1 S2 S3; cbv zeta;
    (split; [| split; [| split]]); try (intros; discriminate);
    intros _ _ endTime He;
    assert (endTime = endT) as ->
      by (destruct He as [[? ?] | (? & ? & ?)]; first [assumption | discriminate]);
    destruct (onShotsCompleted s); simpl in S1, S2, S3;
    rewrite Hsh1a, list_alter_alter_eq, (alter_as_insert _ _ _ _ Ha) in S1;
    repeat split; first [exact S1 | congruence].
  all: (* the next shot starts *)
    destruct (at_index seq (currentShotIndex s + 1)) as [next |] eqn:Hnext;
      [| unfold at_index in Hnext; apply at_index_Some in Hat as [Hidx _];
         destruct (Z.ltb_spec (currentShotIndex s + 1) 0) as [? | _]; [lia |];
         apply lookup_ge_None in Hnext; lia];
    rewrite (onShotFinished_next s1 seq next) in Hm
      by (rewrite ?Hidx1; assumption);
    eapply (Hwrap _ [ShotFinish shot]);
      [exact Hm
      | destruct Hadv1 as (A1 & A2 & A3 & A4 & A5 & A6 & A7);
        unfold advanced_by; simpl; repeat split; assumption
      | reflexivity |];
    intros s' S1 S2 S3; simpl in S1, S2, S3; cbv zeta;
    (split; [| split; [| split]]); try (intros; discriminate);
    intros _ _ endTime He;
    assert (endTime = endT) as ->
      by (destruct He as [[? ?] | (? & ? & ?)]; first [assumption | discriminate]);
    exists next; rewrite Hsh1 in S1;
    repeat split; first [exact S1 | congruence].
Qed.

End Tick.

(** ** Updates after [config] during playback *)

Section Reconfigured.
Context {N : Number}.

(** An [update] at a binding whose action is not scheduled in its mixer
    (a shot that was not started): the pose is copied and the clock
    moves, and nothing else happens. *)
Lemma update_unscheduled s seq delta shot a :
  isPlaying s = true ->
  sequence s = Some seq ->
  at_index seq (currentShotIndex s) = Some shot ->
  shots s !! shot = Some a ->
  mixer_active a = false ->
  exists s',
    update delta s = Ok s' /\
    shots s' = shots s /\ sequence s' = sequence s /\
    currentShotIndex s' = currentShotIndex s /\ isPlaying s' = true /\
    playheadTime s' = add (playheadTime s) delta /\
    targetCamera s'
    = (fun tc => {| cam_name := cam_name tc; position := position (camera a);
                    quaternion := quaternion (camera a); fov := fov (camera a) |})
        <$> targetCamera s /\
    shot_events (trace s') = shot_events (trace s).
Proof.
  intros Hplay Hseq Hat Ha Hact.
  eexists. split; [eapply update_steps; eassumption |].
  destruct (tick_start delta a s) as (T1 & T2 & T3 & T4 & _ & _ & _ & T8 & T9 & _).
  pose proof (clock_moved_mirror delta a s) as (_ & _ & _ & _ & _ & _ & _ & _ & C9).
  cbv zeta in T1, T2, T3, T4, T8, T9.
  remember (set_playheadTime (add (playheadTime s) delta) (mirror a s)) as s0 eqn:Es0.
  clear Es0.
  rewrite (mixer_update_inactive shot delta s0 a) by (rewrite ?T1; assumption).
  destruct (run_scripts_fields (emit (MixerUpdate shot delta) s0))
    as (R1 & R2 & R3 & _ & _ & R6).
  destruct (control_fields _ _ (control_run_scripts (emit (MixerUpdate shot delta) s0)))
    as (Rc1 & Rc2 & Rc3 & _).
  split; [rewrite R1; exact T1 |]. split; [rewrite Rc1; exact T2 |].
  split; [rewrite Rc2; exact T3 |]. split; [rewrite Rc3; simpl; congruence |].
  split; [rewrite R2; exact T8 |]. split; [rewrite R3; exact T9 |].
  rewrite R6. simpl. rewrite shot_events_app, C9. simpl. apply app_nil_r.
Qed.

(** Updates at a binding that is not scheduled: the playback stalls. *)
Lemma updates_unscheduled deltas : forall s seq shot a,
  isPlaying s = true ->
  sequence s = Some seq ->
  at_index seq (currentShotIndex s) = Some shot ->
  shots s !! shot = Some a ->
  mixer_active a = false ->
  let s' := perform_all (map CallUpdate deltas) s in
  shots s' = shots s /\ sequence s' = sequence s /\
  currentShotIndex s' = currentShotIndex s /\ isPlaying s' = true /\
  playheadTime s' = foldl add (playheadTime s) deltas /\
  targetCamera s'
  = match deltas with
    | [] => targetCamera s
    | _ :: _ =>
        (fun tc => {| cam_name := cam_name tc; position := position (camera a);
                      quaternion := quaternion (camera a); fov := fov (camera a) |})
          <$> targetCamera s
    end /\
  shot_events (trace s') = shot_events (trace s).
Proof.
  induction deltas as [| d deltas IH]; intros s seq shot a Hplay Hseq Hat Ha Hact s'.
  - subst s'. simpl. repeat split. exact Hplay.
  - subst s'. simpl.
    destruct (update_unscheduled s seq d shot a Hplay Hseq Hat Ha Hact)
      as (s1 & H1 & H2 & H3 & H4 & H5 & H6 & H7 & H8).
    rewrite H1.
    destruct (IH s1 seq shot a H5 ltac:(congruence) ltac:(rewrite H4; exact Hat)
                ltac:(rewrite H2; exact Ha) Hact)
      as (I1 & I2 & I3 & I4 & I5 & I6 & I7).
    split; [congruence |]. split; [congruence |]. split; [congruence |].
    split; [exact I4 |]. split; [rewrite I5, H6; reflexivity |].
    split; [| congruence].
    rewrite I6, H7. destruct deltas; [reflexivity |].
    destruct (targetCamera s); reflexivity.
Qed.

(** Updates with the index past the end of the sequence and no target
    camera: only the clock moves and the scripts are checked. *)
Lemma updates_past_end deltas : forall s seq,
  isPlaying s = true ->
  sequence s = Some seq ->
  Z.of_nat (length seq) <= currentShotIndex s ->
  targetCamera s = None ->
  let s' := perform_all (map CallUpdate deltas) s in
  shots s' = shots s /\ sequence s' = sequence s /\
  currentShotIndex s' = currentShotIndex s /\ isPlaying s' = true /\
  playheadTime s' = foldl add (playheadTime s) deltas /\
  targetCamera s' = None /\
  shot_events (trace s') = shot_events (trace s).
Proof.
  induction deltas as [| d deltas IH]; intros s seq Hplay Hseq Hpast Htc s'.
  - subst s'. simpl. repeat split; assumption.
  - subst s'. simpl.
    rewrite (update_past_end_steps d s seq Hplay Hseq Hpast Htc).
    set (s0 := set_playheadTime (add (playheadTime s) d) s).
    destruct (run_scripts_fields s0) as (R1 & R2 & R3 & _ & _ & R6).
    destruct (control_fields _ _ (control_run_scripts s0)) as (Rc1 & Rc2 & Rc3 & _).
    destruct (IH (run_scripts s0) seq) as (I1 & I2 & I3 & I4 & I5 & I6 & I7).
    + rewrite Rc3. exact Hplay.
    + rewrite Rc1. exact Hseq.
    + rewrite Rc2. exact Hpast.
    + rewrite R3. exact Htc.
    + split; [rewrite I1, R1; reflexivity |]. split; [rewrite I2, Rc1; reflexivity |].
      split; [rewrite I3, Rc2; reflexivity |]. split; [exact I4 |].
      split; [rewrite I5, R2; reflexivity |]. split; [exact I6 |].
      rewrite I7, R6. reflexivity.
Qed.

(** An [update] during which no time passes for the action of the
    current shot (a paused action, or a step of 0): the pose of its time
    is written again, and nothing else happens to the bindings. *)
Lemma update_still s seq delta shot a :
  isPlaying s = true ->
  sequence s = Some seq ->
  at_index seq (currentShotIndex s) = Some shot ->
  shots s !! shot = Some a ->
  mixer_active a = true ->
  let step := mul delta (if action_paused a then zero else action_timeScale a) in
  seqb step zero = true ->
  exists s',
    update delta s = Ok s' /\
    shots s' = <[shot := evaluate (add (action_time a) step) a]> (shots s) /\
    sequence s' = sequence s /\
    currentShotIndex s' = currentShotIndex s /\ isPlaying s' = true /\
    playheadTime s' = add (playheadTime s) delta /\
    targetCamera s'
    = (fun tc => {| cam_name := cam_name tc; position := position (camera a);
                    quaternion := quaternion (camera a); fov := fov (camera a) |})
        <$> targetCamera s /\
    shot_events (trace s') = shot_events (trace s).
Proof.
  intros Hplay Hseq Hat Ha Hact step Hz.
  eexists. split; [eapply update_steps; eassumption |].
  destruct (tick_start delta a s) as (T1 & T2 & T3 & T4 & _ & _ & _ & T8 & T9 & _).
  pose proof (clock_moved_mirror delta a s) as (_ & _ & _ & _ & _ & _ & _ & _ & C9).
  cbv zeta in T1, T2, T3, T4, T8, T9.
  remember (set_playheadTime (add (playheadTime s) delta) (mirror a s)) as s0 eqn:Es0.
  clear Es0.
  rewrite (mixer_update_still shot delta s0 a) by (rewrite ?T1; assumption).
  fold step.
  set (m := on_shot shot (evaluate (add (action_time a) step))
              (emit (MixerUpdate shot delta) s0)).
  destruct (run_scripts_fields m) as (R1 & R2 & R3 & _ & _ & R6).
  destruct (control_fields _ _ (control_run_scripts m)) as (Rc1 & Rc2 & Rc3 & _).
  split.
  { rewrite R1. subst m. simpl. rewrite T1, (alter_as_insert _ _ _ _ Ha). reflexivity. }
  split; [rewrite Rc1; exact T2 |].
  split; [rewrite Rc2; exact T3 |]. split; [rewrite Rc3; simpl; congruence |].
  split; [rewrite R2; exact T8 |]. split; [rewrite R3; exact T9 |].
  rewrite R6. subst m. simpl. rewrite shot_events_app, C9. simpl. apply app_nil_r.
Qed.

(** An [update] that moves the current shot inside its clip. *)
Lemma update_moves s seq delta shot a :
  isPlaying s = true ->
  sequence s = Some seq ->
  at_index seq (currentShotIndex s) = Some shot ->
  shots s !! shot = Some a ->
  mixer_active a = true ->
  let step := mul delta (if action_paused a then zero else action_timeScale a) in
  let time := add (action_time a) step in
  seqb step zero = false ->
  geb time (duration (clip a)) = false ->
  ltb time zero = false ->
  exists s',
    update delta s = Ok s' /\
    shots s' = <[shot := evaluate time (set_action_time time a)]> (shots s) /\
    sequence s' = sequence s /\
    currentShotIndex s' = currentShotIndex s /\ isPlaying s' = true /\
    playheadTime s' = add (playheadTime s) delta /\
    targetCamera s'
    = (fun tc => {| cam_name := cam_name tc; position := position (camera a);
                    quaternion := quaternion (camera a); fov := fov (camera a) |})
        <$> targetCamera s /\
    shot_events (trace s') = shot_events (trace s).
Proof.
  intros Hplay Hseq Hat Ha Hact step time Hz Hge Hlt.
  eexists. split; [eapply update_steps; eassumption |].
  destruct (tick_start delta a s) as (T1 & T2 & T3 & T4 & _ & _ & _ & T8 & T9 & _).
  pose proof (clock_moved_mirror delta a s) as (_ & _ & _ & _ & _ & _ & _ & _ & C9).
  cbv zeta in T1, T2, T3, T4, T8, T9.
  remember (set_playheadTime (add (playheadTime s) delta) (mirror a s)) as s0 eqn:Es0.
  clear Es0.
  rewrite (mixer_update_moves shot delta s0 a) by (rewrite ?T1; assumption).
  fold step time.
  set (m := on_shot shot (evaluate time)
              (on_shot shot (set_action_time time) (emit (MixerUpdate shot delta) s0))).
  destruct (run_scripts_fields m) as (R1 & R2 & R3 & _ & _ & R6).
  destruct (control_fields _ _ (control_run_scripts m)) as (Rc1 & Rc2 & Rc3 & _).
  split.
  { rewrite R1. subst m. simpl.
    rewrite list_alter_alter_eq, T1, (alter_as_insert _ _ _ _ Ha). reflexivity. }
  split; [rewrite Rc1; exact T2 |].
  split; [rewrite Rc2; exact T3 |]. split; [rewrite Rc3; simpl; congruence |].
  split; [rewrite R2; exact T8 |]. split; [rewrite R3; exact T9 |].
  rewrite R6. subst m. simpl. rewrite shot_events_app, C9. simpl. apply app_nil_r.
Qed.

(** C2, as the code has it. [config] replaces the sequence and changes no
    other field. The playback in progress is not kept apart from it:
    every [update] reads the binding at the current index of the new
    sequence. If the action of that binding is not scheduled in its mixer
    (a shot that was not started), the playback stalls: whatever number
    of updates follow, no binding changes, the index and the playing flag
    stay, no shot finishes; only the playhead moves, and the target camera
    gets the pose of that binding's camera. If its action is scheduled
    (the shot that was playing is at that position of the new sequence
    too), an update moves it as before, and when it reaches the end of
    its clip the shot started next is the one at the next position of the
    new sequence. With the index past the end of the new sequence and no
    target camera, no binding changes either. *)
Theorem config_during_playback (s : ShotsManager) (shotsNames : list string) :
  let s' := config shotsNames s in
  let seq' := config_loop (shots s) shotsNames in
  (sequence s' = Some seq' /\ shots s' = shots s /\
   currentShotIndex s' = currentShotIndex s /\ isPlaying s' = isPlaying s /\
   targetCamera s' = targetCamera s /\ frameScripts s' = frameScripts s /\
   playheadTime s' = playheadTime s /\ onShotsCompleted s' = onShotsCompleted s /\
   loop s' = loop s /\ trace s' = trace s) /\
  (isPlaying s = true ->
   (forall shot a,
       at_index seq' (currentShotIndex s) = Some shot ->
       shots s !! shot = Some a ->
       let pose := fun tc =>
         {| cam_name := cam_name tc; position := position (camera a);
            quaternion := quaternion (camera a); fov := fov (camera a) |} in
       (mixer_active a = false ->
        forall deltas,
          let s'' := perform_all (map CallUpdate deltas) s' in
          shots s'' = shots s /\ sequence s'' = Some seq' /\
          currentShotIndex s'' = currentShotIndex s /\ isPlaying s'' = true /\
          playheadTime s'' = foldl add (playheadTime s) deltas /\
          targetCamera s'' = match deltas with
                             | [] => targetCamera s
                             | _ :: _ => pose <$> targetCamera s
                             end /\
          shot_events (trace s'') = shot_events (trace s)) /\
       (mixer_active a = true ->
        forall delta,
          let step := mul delta (if action_paused a then zero else action_timeScale a) in
          seqb step zero = true ->
          exists s'',
            update delta s' = Ok s'' /\
            shots s'' = <[shot := evaluate (add (action_time a) step) a]> (shots s) /\
            sequence s'' = Some seq' /\
            currentShotIndex s'' = currentShotIndex s /\ isPlaying s'' = true /\
            playheadTime s'' = add (playheadTime s) delta /\
            targetCamera s'' = pose <$> targetCamera s /\
            shot_events (trace s'') = shot_events (trace s)) /\
       (mixer_active a = true ->
        forall delta,
          let step := mul delta (if action_paused a then zero else action_timeScale a) in
          let time := add (action_time a) step in
          seqb step zero = false ->
          geb time (duration (clip a)) = false ->
          ltb time zero = false ->
          exists s'',
            update delta s' = Ok s'' /\
            shots s'' = <[shot := evaluate time (set_action_time time a)]> (shots s) /\
            sequence s'' = Some seq' /\
            currentShotIndex s'' = currentShotIndex s /\ isPlaying s'' = true /\
            playheadTime s'' = add (playheadTime s) delta /\
            targetCamera s'' = pose <$> targetCamera s /\
            shot_events (trace s'') = shot_events (trace s)) /\
       (mixer_active a = true -> action_paused a = false ->
        onFinishCallback a = Some CallOnShotFinished ->
        forall delta next,
          seqb (mul delta (action_timeScale a)) zero = false ->
          geb (add (action_time a) (mul delta (action_timeScale a))) (duration (clip a))
          = true ->
          at_index seq' (currentShotIndex s + 1) = Some next ->
          (next < length (shots s))%nat ->
          exists s'',
            update delta s' = Ok s'' /\
            sequence s'' = Some seq' /\
            currentShotIndex s'' = currentShotIndex s + 1 /\ isPlaying s'' = true /\
            (exists b, shots s'' !! next = Some b /\ started b) /\
            shot_events (trace s'') = shot_events (trace s) ++ [ShotFinish shot])) /\
   (Z.of_nat (length seq') <= currentShotIndex s ->
    targetCamera s = None ->
    forall deltas,
      let s'' := perform_all (map CallUpdate deltas) s' in
      shots s'' = shots s /\ sequence s'' = Some seq' /\
      currentShotIndex s'' = currentShotIndex s /\ isPlaying s'' = true /\
      playheadTime s'' = foldl add (playheadTime s) deltas /\
      shot_events (trace s'') = shot_events (trace s))).
Proof.
  intros s' seq'. split; [repeat split |].
  intros Hplay. split.
  - intros shot a Hat Ha pose. split; [| split; [| split]].
    + intros Hact deltas s''.
      destruct (updates_unscheduled deltas s' seq' shot a Hplay eq_refl Hat Ha Hact)
        as (H1 & H2 & H3 & H4 & H5 & H6 & H7).
      repeat split; assumption.
    + intros Hact delta step Hz.
      destruct (update_still s' seq' delta shot a Hplay eq_refl Hat Ha Hact Hz)
        as (s'' & H1 & H2 & H3 & H4 & H5 & H6 & H7 & H8).
      exists s''. repeat split; assumption.
    + intros Hact delta step time Hz Hge Hlt.
      destruct (update_moves s' seq' delta shot a Hplay eq_refl Hat Ha Hact Hz Hge Hlt)
        as (s'' & H1 & H2 & H3 & H4 & H5 & H6 & H7 & H8).
      exists s''. repeat split; assumption.
    + intros Hact Hp Hcb delta next Hz Hge Hnext Hlt.
      destruct (update_finishes delta s' seq' shot a Hplay eq_refl Hat Ha
                  (or_intror (conj Hact (conj Hp Hcb))) Hz Hge)
        as (s'' & H1 & H2 & _ & _ & _ & _ & Hcases).
      exists s''. split; [exact H1 |]. split; [exact H2 |].
      assert (Hin : currentShotIndex s + 1 < Z.of_nat (length seq')).
      { apply at_index_Some in Hnext as [_ Hl]. apply lookup_lt_Some in Hl. lia. }
      destruct Hcases as [(next' & Hn & C1 & C2 & C3 & C4)
                         | [(Hpast & _) | (Hpast & _)]];
        [| simpl in Hpast; lia | simpl in Hpast; lia].
      simpl in Hn. rewrite Hnext in Hn. injection Hn as <-.
      split; [exact C1 |]. split; [exact C2 |]. split; [apply C3, Hlt | exact C4].
  - intros Hpast Htc deltas s''.
    destruct (updates_past_end deltas s' seq' Hplay eq_refl Hpast Htc)
      as (H1 & H2 & H3 & H4 & H5 & _ & H7).
    repeat split; assumption.
Qed.

End Reconfigured.

(** ** The timeline from 0 to the end of the last shot *)

(** On binary64, where no shot of the sequence has a negative effective
    duration, the intervals of the shots partition the timeline from 0 to
    the end of the last shot: every time in that range is in the interval
    of exactly one position of the sequence, and [scrub] selects the shot
    there at the local time [time - start]. *)
Theorem timeline_partition (s : @ShotsManager FloatNumber) (seq : list nat)
    (time : float) (cam : @PerspectiveCamera FloatNumber) :
  sequence s = Some seq ->
  Forall (fun shot => is_Some (shots s !! shot)) seq ->
  let dur := effectiveDurationOf (shots s) in
  Forall (fun shot => PrimFloat.ltb (dur shot) 0 = false) seq ->
  PrimFloat.leb 0 time = true ->
  PrimFloat.ltb time (shot_start dur seq (length seq)) = true ->
  exists k shot,
    seq !! k = Some shot /\
    in_interval dur seq k shot time = true /\
    (forall j shot', seq !! j = Some shot' ->
                     in_interval dur seq j shot' time = true -> j = k) /\
    selects s time cam shot (PrimFloat.sub time (shot_start dur seq k)).
Proof.
  intros Hseq Hvalid dur Hdur H0 Hend.
  rewrite Forall_forall in Hvalid, Hdur.
  destruct (in_interval_exists dur seq time Hdur H0 (length seq) (Nat.le_refl _) Hend)
    as (k & shot & _ & Hk & Hin).
  exists k, shot. split; [exact Hk |]. split; [exact Hin |].
  pose proof (in_interval_first dur seq time k shot Hdur Hk Hin) as Hbefore.
  split.
  - intros j shot' Hl Hin'.
    destruct (Nat.lt_trichotomy j k) as [Hlt | [Heq | Hgt]]; [| exact Heq |].
    + rewrite (Hbefore j shot' Hlt Hl) in Hin'. discriminate.
    + rewrite (in_interval_first dur seq time j shot' Hdur Hl Hin' k shot Hgt Hk) in Hin.
      discriminate.
  - destruct (Hvalid shot (list_elem_of_lookup_2 _ _ _ Hk)) as [a Ha].
    eapply (scrub_selects_target (N := FloatNumber)); [exact Hseq | exact Ha |].
    apply (scrub_target_first (N := FloatNumber)); assumption.
Qed.

(** ** Playing a sequence to its end *)

Section Run.
Context {N : Number}.

Lemma same_pace_trans l1 l2 l3 :
  Forall2 same_pace l1 l2 -> Forall2 same_pace l2 l3 -> Forall2 same_pace l1 l3.
Proof.
  apply Forall2_R_trans. intros a b c [H1 H2] [H3 H4]. split; congruence.
Qed.

(** One update that carries the current shot to its end, on a manager
    whose shots run at the pace of the manager [m]. *)
Lemma carries_to_end_finishes (m s : ShotsManager) shot a delta :
  Forall2 same_pace (shots m) (shots s) ->
  shots s !! shot = Some a ->
  started a ->
  carries_to_end (shots m) shot delta ->
  seqb (mul delta (action_timeScale a)) zero = false /\
  geb (add (action_time a) (mul delta (action_timeScale a))) (duration (clip a)) = true.
Proof.
  intros Hpace Ha Hst (a0 & Ha0 & Hz & Hge).
  destruct (Forall2_lookup_l _ _ _ _ _ Hpace Ha0) as (a' & Ha' & Hc & Hts).
  rewrite Ha in Ha'. injection Ha' as <-.
  destruct Hst as (_ & _ & Ht & _). rewrite Ht, Hc, Hts. split; assumption.
Qed.

Lemma play_starts m seq first rest onCompleted :
  sequence m = Some seq ->
  seq = first :: rest ->
  (first < length (shots m))%nat ->
  let s := play onCompleted m in
  isPlaying s = true /\ sequence s = Some seq /\ currentShotIndex s = 0%Z /\
  loop s = loop m /\ onShotsCompleted s = onCompleted /\
  trace s = trace m /\
  Forall2 same_pace (shots m) (shots s) /\
  exists a, shots s !! first = Some a /\ started a.
Proof.
  intros Hseq -> Hlt s.
  assert (Hs : s = on_shot first (AnimatedCamera_play CallOnShotFinished)
                 (set_currentShotIndex 0
                    (set_isPlaying true
                       (set_frameScripts (map (set_called (Some false)) (frameScripts m))
                          (set_onShotsCompleted onCompleted (set_playheadTime zero m)))))).
  { subst s. unfold play. rewrite Hseq.
    apply (playCurrentShot_at _ (first :: rest) first); simpl; [exact Hseq | lia | reflexivity]. }
  split; [rewrite Hs; reflexivity |].
  split; [rewrite Hs; exact Hseq |].
  split; [rewrite Hs; reflexivity |].
  split; [rewrite Hs; reflexivity |].
  split; [rewrite Hs; reflexivity |].
  split; [rewrite Hs; reflexivity |].
  split; [apply same_pace_play |].
  destruct (lookup_lt_is_Some_2 (shots m) first Hlt) as (a0 & Ha0).
  rewrite Hs. simpl. rewrite list_lookup_alter_eq, Ha0. simpl.
  eexists. split; [reflexivity | apply started_play].
Qed.

Lemma run_to_completion (m : ShotsManager) seq onCompleted :
  forall deltas k s shot a,
    Forall2 same_pace (shots m) (shots s) ->
    isPlaying s = true -> sequence s = Some seq ->
    currentShotIndex s = Z.of_nat k -> loop s = false ->
    onShotsCompleted s = onCompleted ->
    seq !! k = Some shot -> shots s !! shot = Some a -> started a ->
    Forall2 (carries_to_end (shots m)) (drop k seq) deltas ->
    let s' := perform_all (map CallUpdate deltas) s in
    isPlaying s' = false /\
    currentShotIndex s' = Z.of_nat (length seq) /\
    shot_events (trace s')
    = shot_events (trace s) ++ map ShotFinish (drop k seq)
        ++ match onCompleted with
           | Some cb => [CompletedCall cb]
           | None => []
           end.
Proof.
  induction deltas as [| delta deltas IH];
    intros k s shot a Hpace Hplay Hseq Hidx Hloop Hcb Hk Ha Hst Hall s'.
  { apply Forall2_nil_inv_r in Hall. apply (f_equal length) in Hall.
    rewrite length_drop in Hall. apply lookup_lt_Some in Hk. simpl in Hall. lia. }
  rewrite (drop_S _ _ _ Hk) in Hall |- *.
  apply Forall2_cons_1 in Hall as [Hthrough Hrest].
  destruct (carries_to_end_finishes m s shot a delta Hpace Ha Hst Hthrough) as [Hz Hge].
  assert (Hat : at_index seq (currentShotIndex s) = Some shot).
  { apply at_index_Some. rewrite Hidx, Nat2Z.id. split; [lia | exact Hk]. }
  destruct (update_finishes delta s seq shot a Hplay Hseq Hat Ha (or_introl Hst) Hz Hge)
    as (s1 & Hup & Hseq1 & Hloop1 & Hcb1 & _ & Hpace1 & Hcases).
  assert (Es' : s' = perform_all (map CallUpdate deltas) s1)
    by (subst s'; simpl; rewrite Hup; reflexivity).
  rewrite Es'. clear Es' s'.
  pose proof (same_pace_trans _ _ _ Hpace Hpace1) as Hpace'.
  destruct Hcases as [(next & Hnext & Hidx1 & Hplay1 & Hstarted & Htr)
                     | [(_ & Hl & _) | (Hpast & _ & Hidx1 & Hplay1 & _ & Htr)]].
  - apply at_index_Some in Hnext as [_ Hnext].
    rewrite Hidx in Hnext.
    replace (Z.to_nat (Z.of_nat k + 1)) with (S k) in Hnext by lia.
    assert (Hlt : (next < length (shots s))%nat).
    { rewrite <- (Forall2_length _ _ _ Hpace).
      rewrite (drop_S _ _ _ Hnext) in Hrest.
      destruct deltas as [| d ds]; [apply Forall2_nil_inv_r in Hrest; discriminate |].
      apply Forall2_cons_1 in Hrest as [(a0 & Ha0 & _) _].
      eapply lookup_lt_Some, Ha0. }
    destruct (Hstarted Hlt) as (b & Hb & Hstb).
    destruct (IH (S k) s1 next b Hpace' Hplay1 ltac:(congruence) ltac:(lia)
                ltac:(congruence) ltac:(congruence) Hnext Hb Hstb Hrest)
      as (R1 & R2 & R3).
    split; [exact R1 |]. split; [exact R2 |].
    rewrite R3, Htr, <- app_assoc. reflexivity.
  - congruence.
  - assert (Hend : drop (S k) seq = []).
    { apply drop_ge. apply lookup_lt_Some in Hk. lia. }
    rewrite Hend in Hrest |- *. apply Forall2_nil_inv_l in Hrest. subst deltas.
    simpl. split; [exact Hplay1 |].
    split.
    + rewrite Hidx1, Hidx. apply lookup_lt_Some in Hk. lia.
    + rewrite Htr, Hcb. reflexivity.
Qed.

(** A sequence played without [loop] runs to its end when each update
    carries the shot it meets to the end of its clip: after
    [play(onCompleted)] and one such update for each position of the
    sequence, every shot of the sequence has finished once, in the order
    of the sequence, then the completion callback, if one was given, has
    been called once; the manager has stopped playing and the index is
    the length of the sequence. *)
Theorem sequence_plays_to_completion (s : ShotsManager) (seq : list nat)
    (onCompleted : option Callback) (deltas : list num) :
  sequence s = Some seq ->
  seq <> [] ->
  loop s = false ->
  Forall2 (carries_to_end (shots s)) seq deltas ->
  let s' := perform_all (map CallUpdate deltas) (play onCompleted s) in
  isPlaying s' = false /\
  currentShotIndex s' = Z.of_nat (length seq) /\
  shot_events (trace s')
  = shot_events (trace s) ++ map ShotFinish seq
      ++ match onCompleted with
         | Some cb => [CompletedCall cb]
         | None => []
         end.
Proof.
  intros Hseq Hne Hloop Hall s'.
  destruct seq as [| first rest] eqn:Eseq; [contradiction |].
  assert (Hlt : (first < length (shots s))%nat).
  { destruct deltas as [| d ds]; [apply Forall2_nil_inv_r in Hall; discriminate |].
    apply Forall2_cons_1 in Hall as [(a0 & Ha0 & _) _].
    eapply lookup_lt_Some, Ha0. }
  destruct (play_starts s (first :: rest) first rest onCompleted Hseq eq_refl Hlt)
    as (P1 & P2 & P3 & P4 & P5 & P6 & P7 & a & Ha & Hst).
  destruct (run_to_completion s (first :: rest) onCompleted deltas 0
              (play onCompleted s) first a P7 P1 P2 P3 ltac:(congruence) P5
              eq_refl Ha Hst Hall) as (R1 & R2 & R3).
  subst s'. split; [exact R1 |]. split; [exact R2 |].
  rewrite R3, P6. reflexivity.
Qed.

End Run.

(** * The connection to Blender *)

Section ConnectionProperties.
Variable Data : Type.
Variable JSON_parse : string -> option Data.

Lemma closed_or_not (r : ReadyState) : r = CLOSED \/ r <> CLOSED.
Proof. destruct r; [right | right | right | left]; congruence. Qed.

Lemma one_connection_connect throws (st : Sync Data) :
  one_connection st ->
  shouldReconnect st = true ->
  pending st = [] \/ (exists handle, pending st = [handle] /\ reconnectTimeout st = Some handle) ->
  Forall (fun r => r = CLOSED) (sockets st) ->
  one_connection (connect throws st) /\ shouldReconnect (connect throws st) = true.
Proof.
  intros (I1 & I2 & I3) Hre Hpend Hclosed.
  unfold connect.
  set (st1 := match reconnectTimeout st with
              | Some handle => set_reconnectTimeout None (clearTimeout handle st)
              | None => st
              end).
  assert (H1 : sockets st1 = sockets st /\ ws st1 = ws st /\
               shouldReconnect st1 = true /\ pending st1 = []).
  { subst st1. destruct (reconnectTimeout st) as [handle |] eqn:E; simpl.
    - repeat split; try assumption.
      destruct Hpend as [-> | (h & -> & Hh)]; [reflexivity |].
      injection Hh as ->. simpl. rewrite Nat.eqb_refl. reflexivity.
    - repeat split; try assumption.
      destruct Hpend as [-> | (h & _ & Hh)]; [reflexivity | discriminate]. }
  destruct H1 as (Hs & Hw & Hr & Hp).
  destruct throws; simpl.
  - rewrite Hr. simpl. split; [| exact Hr].
    split; [| split]; simpl.
    + rewrite Hs. intros i r Hi Hne. rewrite Forall_forall in Hclosed.
      exfalso. apply Hne, Hclosed. eapply list_elem_of_lookup_2, Hi.
    + rewrite Hs, Hw. exact I2.
    + right. exists (next_timer st1). rewrite Hp, Hs. repeat split; assumption.
  - split; [| exact Hr].
    split; [| split]; simpl.
    + rewrite Hs. intros i r Hi Hne.
      destruct (decide (i = length (sockets st))) as [-> | Hi']; [reflexivity |].
      rewrite lookup_app_l in Hi.
      * rewrite Forall_forall in Hclosed.
        exfalso. apply Hne, Hclosed. eapply list_elem_of_lookup_2, Hi.
      * apply lookup_lt_Some in Hi. rewrite length_app in Hi. simpl in Hi. lia.
    + rewrite Hs. intros i [= <-]. rewrite length_app. simpl. lia.
    + left. exact Hp.
Qed.

Lemma one_connection_start throws : one_connection (syncWithBlender Data throws).
Proof.
  apply one_connection_connect.
  - split; [| split]; simpl.
    + intros i r Hi. inversion Hi.
    + intros i Hi. discriminate.
    + left. reflexivity.
  - reflexivity.
  - left. reflexivity.
  - constructor.
Qed.

Lemma alive_no_timer (st : Sync Data) i r :
  one_connection st -> sockets st !! i = Some r -> r <> CLOSED ->
  pending st = [] /\ ws st = Some i /\
  forall j r', j <> i -> sockets st !! j = Some r' -> r' = CLOSED.
Proof.
  intros (I1 & I2 & I3) Hi Hne.
  split; [| split].
  - destruct I3 as [H | (h & _ & _ & _ & Hall)]; [exact H |].
    rewrite Forall_forall in Hall. exfalso. apply Hne, Hall.
    eapply list_elem_of_lookup_2, Hi.
  - apply (I1 i r Hi Hne).
  - intros j r' Hj Hj'. destruct (closed_or_not r') as [-> | Hne']; [reflexivity |].
    pose proof (I1 i r Hi Hne) as H1. pose proof (I1 j r' Hj' Hne') as H2.
    congruence.
Qed.

Lemma one_connection_set_socket (st : Sync Data) i r r' :
  one_connection st -> sockets st !! i = Some r -> r <> CLOSED -> r' <> CLOSED ->
  one_connection (set_socket i r' st).
Proof.
  intros Hinv Hi Hne Hne'.
  destruct (alive_no_timer st i r Hinv Hi Hne) as (Hp & Hw & Hothers).
  destruct Hinv as (I1 & I2 & I3).
  split; [| split]; simpl.
  - intros j rj Hj Hnej. destruct (decide (j = i)) as [-> | Hji]; [exact Hw |].
    rewrite list_lookup_insert_ne in Hj by congruence.
    exfalso. apply Hnej. eapply Hothers; eassumption.
  - rewrite length_insert. exact I2.
  - left. exact Hp.
Qed.

Lemma one_connection_step ev (st st' : Sync Data) :
  one_connection st -> step JSON_parse ev st = Some st' -> one_connection st'.
Proof.
  intros Hinv Hstep. destruct ev as [i | i text | i | i | handle throws |]; simpl in Hstep.
  - destruct (sockets st !! i) as [[] |] eqn:Hi; try discriminate.
    injection Hstep as <-.
    apply (one_connection_set_socket st i CONNECTING OPEN Hinv Hi); discriminate.
  - destruct (sockets st !! i) as [[] |] eqn:Hi; try discriminate.
    injection Hstep as <-. unfold onmessage.
    destruct (JSON_parse text); exact Hinv.
  - destruct (sockets st !! i) as [[] |] eqn:Hi; try discriminate;
      injection Hstep as <-; exact Hinv.
  - assert (Hne : exists r, sockets st !! i = Some r /\ r <> CLOSED /\
                            st' = onclose (set_socket i CLOSED st)).
    { destruct (sockets st !! i) as [[] |] eqn:Hi; try discriminate;
        injection Hstep as <-; eexists; (split; [reflexivity |]);
        (split; [discriminate | reflexivity]). }
    destruct Hne as (r & Hi & Hne & ->).
    destruct (alive_no_timer st i r Hinv Hi Hne) as (Hp & Hw & Hothers).
    destruct Hinv as (I1 & I2 & I3).
    assert (Hall : Forall (fun r => r = CLOSED) (<[i := CLOSED]> (sockets st))).
    { apply Forall_lookup. intros j rj Hj.
      destruct (decide (j = i)) as [-> | Hji].
      - rewrite list_lookup_insert_eq in Hj by (eapply lookup_lt_Some, Hi). congruence.
      - rewrite list_lookup_insert_ne in Hj by congruence. eapply Hothers; eassumption. }
    unfold onclose. simpl.
    destruct (shouldReconnect st) eqn:Hre; (split; [| split]); simpl.
    + intros j rj Hj Hnej. rewrite Forall_lookup in Hall.
      exfalso. apply Hnej. eapply Hall, Hj.
    + rewrite length_insert. exact I2.
    + right. exists (next_timer st). rewrite Hp. repeat split; assumption.
    + intros j rj Hj Hnej. rewrite Forall_lookup in Hall.
      exfalso. apply Hnej. eapply Hall, Hj.
    + rewrite length_insert. exact I2.
    + left. exact Hp.
  - destruct (bool_decide (handle ∈ pending st)) eqn:Hin; [| discriminate].
    injection Hstep as <-. apply bool_decide_eq_true in Hin.
    pose proof Hinv as (I1 & I2 & I3).
    destruct I3 as [Hp | (h & Hp & Hrt & Hre & Hall)].
    { rewrite Hp in Hin. inversion Hin. }
    rewrite Hp in Hin. apply list_elem_of_singleton in Hin. subst h.
    apply one_connection_connect.
    + split; [| split]; simpl; [exact I1 | exact I2 |].
      left. rewrite Hp. simpl. rewrite Nat.eqb_refl. reflexivity.
    + exact Hre.
    + left. simpl. rewrite Hp. simpl. rewrite Nat.eqb_refl. reflexivity.
    + exact Hall.
  - injection Hstep as <-. destruct Hinv as (I1 & I2 & I3).
    unfold cleanup.
    set (st1 := match reconnectTimeout (set_shouldReconnect false st) with
                | Some handle => clearTimeout handle (set_shouldReconnect false st)
                | None => set_shouldReconnect false st
                end).
    assert (H1 : sockets st1 = sockets st /\ ws st1 = ws st /\ pending st1 = []).
    { subst st1. simpl. destruct (reconnectTimeout st) as [handle |] eqn:E; simpl.
      - repeat split.
        destruct I3 as [-> | (h & -> & Hh & _)]; [reflexivity |].
        injection Hh as ->. simpl. rewrite Nat.eqb_refl. reflexivity.
      - repeat split.
        destruct I3 as [-> | (h & _ & Hh & _)]; [reflexivity | discriminate]. }
    destruct H1 as (Hs & Hw & Hp).
    assert (Hinv1 : one_connection st1).
    { split; [| split]; [rewrite Hs, Hw; exact I1 | rewrite Hs, Hw; exact I2 | left; exact Hp]. }
    destruct (ws st1) as [i |] eqn:Hws; [| exact Hinv1].
    unfold socket_close.
    destruct (sockets st1 !! i) as [[] |] eqn:Hi; try exact Hinv1.
    + apply (one_connection_set_socket st1 i CONNECTING CLOSING Hinv1 Hi); discriminate.
    + apply (one_connection_set_socket st1 i OPEN CLOSING Hinv1 Hi); discriminate.
Qed.

Lemma one_connection_run evs (st : Sync Data) : one_connection st -> one_connection (run JSON_parse evs st).
Proof.
  revert st. induction evs as [| ev evs IH]; intros st H; [exact H |].
  simpl. apply IH. destruct (step JSON_parse ev st) as [st' |] eqn:E; [| exact H].
  eapply one_connection_step; eassumption.
Qed.

Lemma sync_keeps_one_connection_aux throws evs :
  one_connection (run JSON_parse evs (syncWithBlender Data throws)).
Proof. apply one_connection_run, one_connection_start. Qed.

(** However the sockets and the timers behave, there is at most one
    socket that is not closed, the one [ws] refers to, and a reconnection
    timer is pending only while every socket is closed; there is never
    more than one timer pending, and [reconnectTimeout] holds it. *)
Theorem sync_keeps_one_connection (throws : bool) (evs : list Event) :
  one_connection (run JSON_parse evs (syncWithBlender Data throws)).
Proof. apply sync_keeps_one_connection_aux. Qed.

Lemma shut_down_cleanup (st : Sync Data) : one_connection st -> shut_down (cleanup st).
Proof.
  intros (I1 & I2 & I3). unfold cleanup.
  set (st1 := match reconnectTimeout (set_shouldReconnect false st) with
              | Some handle => clearTimeout handle (set_shouldReconnect false st)
              | None => set_shouldReconnect false st
              end).
  assert (H1 : sockets st1 = sockets st /\ ws st1 = ws st /\ pending st1 = [] /\
               shouldReconnect st1 = false).
  { subst st1. simpl. destruct (reconnectTimeout st) as [handle |] eqn:E; simpl.
    - repeat split.
      destruct I3 as [-> | (h & -> & Hh & _)]; [reflexivity |].
      injection Hh as ->. simpl. rewrite Nat.eqb_refl. reflexivity.
    - repeat split.
      destruct I3 as [-> | (h & _ & Hh & _)]; [reflexivity | discriminate]. }
  destruct H1 as (Hs & Hw & Hp & Hre).
  assert (Hclosed : forall j r, sockets st !! j = Some r -> ws st <> Some j -> r = CLOSED).
  { intros j r Hj Hne. destruct (closed_or_not r) as [-> | Hr]; [reflexivity |].
    exfalso. apply Hne. eapply I1; eassumption. }
  destruct (ws st1) as [i |] eqn:Hws.
  2: { split; [exact Hre |]. split; [exact Hp |]. rewrite Hs.
       apply Forall_lookup. intros j r Hj. right. apply (Hclosed j r Hj). congruence. }
  rewrite Hw in Hws.
  assert (Hrest : forall r', (r' = CLOSING \/ r' = CLOSED) ->
            Forall (fun r => r = CLOSING \/ r = CLOSED) (<[i := r']> (sockets st))).
  { intros r' Hr'. apply Forall_lookup. intros j r Hj.
    destruct (decide (j = i)) as [-> | Hji].
    - apply list_lookup_insert_Some in Hj as [(_ & <- & _) | (Hne & _)]; [exact Hr' | congruence].
    - rewrite list_lookup_insert_ne in Hj by congruence.
      right. apply (Hclosed j r Hj). congruence. }
  unfold socket_close. rewrite Hs.
  destruct (sockets st !! i) as [r |] eqn:Hi.
  - destruct r; (split; [simpl; exact Hre |]); (split; [simpl; exact Hp |]); simpl.
    + rewrite Hs. apply Hrest. left. reflexivity.
    + rewrite Hs. apply Hrest. left. reflexivity.
    + rewrite Hs. apply Forall_lookup. intros j r Hj.
      destruct (decide (j = i)) as [-> | Hji]; [left; congruence |].
      right. apply (Hclosed j r Hj). congruence.
    + rewrite Hs. apply Forall_lookup. intros j r Hj.
      destruct (decide (j = i)) as [-> | Hji]; [right; congruence |].
      right. apply (Hclosed j r Hj). congruence.
  - split; [exact Hre |]. split; [exact Hp |]. rewrite Hs.
    apply Forall_lookup. intros j r Hj.
    destruct (decide (j = i)) as [-> | Hji]; [congruence |].
    right. apply (Hclosed j r Hj). congruence.
Qed.

Lemma shut_down_step ev (st st' : Sync Data) :
  shut_down st -> step JSON_parse ev st = Some st' ->
  shut_down st' /\ delivered st' = delivered st /\
  length (sockets st') = length (sockets st).
Proof.
  intros (Hre & Hp & Hall) Hstep.
  assert (Hno : forall i r, sockets st !! i = Some r -> r = CLOSING \/ r = CLOSED).
  { intros i r Hi. rewrite Forall_lookup in Hall. eapply Hall, Hi. }
  destruct ev as [i | i text | i | i | handle throws |]; simpl in Hstep.
  - destruct (sockets st !! i) as [r |] eqn:Hi; [| discriminate].
    destruct (Hno i r Hi) as [-> | ->]; discriminate.
  - destruct (sockets st !! i) as [r |] eqn:Hi; [| discriminate].
    destruct (Hno i r Hi) as [-> | ->]; discriminate.
  - destruct (sockets st !! i) as [[] |] eqn:Hi; try discriminate;
      injection Hstep as <-; (split; [split; [| split]; assumption | split; reflexivity]).
  - assert (Hst' : st' = onclose (set_socket i CLOSED st)).
    { destruct (sockets st !! i) as [[] |] eqn:Hi; try discriminate;
        injection Hstep as <-; reflexivity. }
    subst st'. unfold onclose. simpl. rewrite Hre. simpl.
    split; [| split; [reflexivity | apply length_insert]].
    split; [exact Hre |]. split; [exact Hp |].
    apply Forall_lookup. intros j r Hj.
    apply list_lookup_insert_Some in Hj as [(_ & <- & _) | (_ & Hj)];
      [right; reflexivity | eapply Hno, Hj].
  - rewrite Hp in Hstep. discriminate.
  - injection Hstep as <-. unfold cleanup.
    set (st1 := match reconnectTimeout (set_shouldReconnect false st) with
                | Some handle => clearTimeout handle (set_shouldReconnect false st)
                | None => set_shouldReconnect false st
                end).
    assert (H1 : sockets st1 = sockets st /\ pending st1 = [] /\
                 shouldReconnect st1 = false /\ delivered st1 = delivered st).
    { subst st1. simpl. destruct (reconnectTimeout st); simpl; rewrite ?Hp; repeat split. }
    destruct H1 as (Hs & Hp1 & Hre1 & Hd).
    assert (Hsame : forall i, socket_close i st1 = st1).
    { intros i. unfold socket_close. rewrite Hs.
      destruct (sockets st !! i) as [r |] eqn:Hi; [| reflexivity].
      destruct (Hno i r Hi) as [-> | ->]; reflexivity. }
    destruct (ws st1) as [i |]; rewrite ?Hsame;
      (split; [split; [| split]; [exact Hre1 | exact Hp1 | rewrite Hs; exact Hall]
              | split; [exact Hd | rewrite Hs; reflexivity]]).
Qed.

Lemma shut_down_run evs (st : Sync Data) :
  shut_down st ->
  shut_down (run JSON_parse evs st) /\ delivered (run JSON_parse evs st) = delivered st /\
  length (sockets (run JSON_parse evs st)) = length (sockets st).
Proof.
  revert st. induction evs as [| ev evs IH]; intros st H; [split; [exact H | split; reflexivity] |].
  simpl. destruct (step JSON_parse ev st) as [st' |] eqn:E; simpl.
  - destruct (shut_down_step ev st st' H E) as (H' & Hd & Hl).
    destruct (IH st' H') as (R1 & R2 & R3).
    split; [exact R1 |]. split; congruence.
  - apply IH, H.
Qed.

(** Calling the cleanup function is final: whatever happened before and
    whatever happens after, the callback is not called again, no socket is
    opened again, no timer is pending, and every socket is closing or
    closed. *)
Theorem sync_cleanup_is_final (throws : bool) (before after : list Event) :
  let st1 := run JSON_parse before (syncWithBlender Data throws) in
  let st2 := run JSON_parse after (cleanup st1) in
  delivered st2 = delivered (cleanup st1) /\
  delivered (cleanup st1) = delivered st1 /\
  length (sockets st2) = length (sockets st1) /\
  pending st2 = [] /\
  shouldReconnect st2 = false /\
  Forall (fun r => r = CLOSING \/ r = CLOSED) (sockets st2).
Proof.
  intros st1 st2.
  pose proof (sync_keeps_one_connection_aux throws before) as Hinv.
  fold st1 in Hinv.
  pose proof (shut_down_cleanup st1 Hinv) as Hdown.
  destruct (shut_down_run after (cleanup st1) Hdown) as ((R1 & R2 & R3) & R4 & R5).
  fold st2 in R1, R2, R3, R4, R5.
  split; [exact R4 |].
  assert (Hc : delivered (cleanup st1) = delivered st1 /\
               length (sockets (cleanup st1)) = length (sockets st1)).
  { unfold cleanup. simpl.
    destruct (reconnectTimeout st1); simpl;
      (destruct (ws st1) as [i |]; [| split; reflexivity]);
      unfold socket_close; simpl;
      (destruct (sockets st1 !! i) as [[] |]; simpl; split;
       rewrite ?length_insert; reflexivity). }
  destruct Hc as [Hc1 Hc2].
  split; [exact Hc1 |]. split; [congruence |].
  split; [exact R2 |]. split; [exact R1 | exact R3].
Qed.

End ConnectionProperties.

Section Reconnection.
Variable Data : Type.
Variable JSON_parse : string -> option Data.

(** While the cleanup function has not been called, a socket that
    closes is replaced: its "close" event arms one timer, and when that
    timer fires a new socket is created and [ws] refers to it; if the
    constructor throws instead, one new timer is armed. *)
Theorem sync_reconnects_after_close (throws : bool) (evs : list Event)
    (i : nat) (r : ReadyState) :
  let st := run JSON_parse evs (syncWithBlender Data throws) in
  shouldReconnect st = true ->
  sockets st !! i = Some r ->
  r <> CLOSED ->
  exists st1 handle,
    step JSON_parse (SocketCloses i) st = Some st1 /\
    pending st1 = [handle] /\
    sockets st1 = <[i := CLOSED]> (sockets st) /\
    (exists st2,
        step JSON_parse (TimerFires handle false) st1 = Some st2 /\
        sockets st2 = sockets st1 ++ [CONNECTING] /\
        ws st2 = Some (length (sockets st1)) /\
        pending st2 = []) /\
    (exists st2 handle',
        step JSON_parse (TimerFires handle true) st1 = Some st2 /\
        sockets st2 = sockets st1 /\
        pending st2 = [handle'] /\
        reconnectTimeout st2 = Some handle').
Proof.
  intros st Hre Hi Hne.
  pose proof (sync_keeps_one_connection_aux Data JSON_parse throws evs) as Hinv.
  fold st in Hinv.
  destruct (alive_no_timer Data st i r Hinv Hi Hne) as (Hp & _ & _).
  exists (onclose (set_socket i CLOSED st)), (next_timer st).
  split.
  { simpl. rewrite Hi. destruct r; try reflexivity. contradiction. }
  unfold onclose. simpl. rewrite Hre. simpl. rewrite Hp.
  split; [reflexivity |]. split; [reflexivity |].
  split.
  - eexists. split.
    + rewrite bool_decide_eq_true_2 by (apply list_elem_of_singleton; reflexivity).
      reflexivity.
    + unfold connect. simpl. rewrite ?Hp. simpl. rewrite ?Nat.eqb_refl. simpl.
      repeat split.
  - do 2 eexists. split.
    + rewrite bool_decide_eq_true_2 by (apply list_elem_of_singleton; reflexivity).
      reflexivity.
    + unfold connect. simpl. rewrite ?Hp, ?Hre. simpl. rewrite ?Nat.eqb_refl. simpl.
      rewrite ?Hre. simpl. repeat split.
      rewrite Hp. simpl. rewrite Nat.eqb_refl. reflexivity.
Qed.

End Reconnection.

(** * The camera helper *)

Section HelperProperties.
Context {N : Number}.

Lemma onCameraData_name camera data :
  cam_name (onCameraData camera data) = cam_name camera.
Proof.
  unfold onCameraData.
  destruct (String.eqb (objectType data) "CAMERA"); [| reflexivity].
  destruct (data_fov data); reflexivity.
Qed.

Lemma onCameraData_cases camera data :
  (is_camera_message data = true /\
   forall camera', cam_name camera' = cam_name camera ->
                   onCameraData camera' data = onCameraData camera data) \/
  (is_camera_message data = false /\ onCameraData camera data = camera).
Proof.
  unfold onCameraData, is_camera_message.
  destruct (String.eqb (objectType data) "CAMERA"); [| right; split; reflexivity].
  destruct (data_fov data) as [f |]; simpl.
  - left. split; [reflexivity |]. intros camera' ->. reflexivity.
  - right. split; reflexivity.
Qed.

(** The camera follows the last camera message: after any messages, the
    camera has the position, the quaternion and the field of view of the
    last message that is of type CAMERA with a field of view, whatever
    the messages before it were; if there was none, it is as it was. Its
    name never changes. *)
Theorem camera_follows_last_camera_message (camera : PerspectiveCamera)
    (messages : list BlenderObjectData) :
  foldl onCameraData camera messages
  = match last (List.filter is_camera_message messages) with
    | Some data => onCameraData camera data
    | None => camera
    end /\
  cam_name (foldl onCameraData camera messages) = cam_name camera.
Proof.
  induction messages as [| data messages IH] using rev_ind; [split; reflexivity |].
  destruct IH as [IH1 IH2].
  rewrite foldl_app, List.filter_app. simpl.
  split; [| rewrite onCameraData_name; exact IH2].
  destruct (onCameraData_cases camera data) as [[Hacc Hsame] | [Hrej Hid]].
  - rewrite Hacc, last_snoc. apply Hsame. exact IH2.
  - rewrite Hrej, app_nil_r.
    destruct (onCameraData_cases (foldl onCameraData camera messages) data)
      as [[Hacc _] | [_ Hid']]; [congruence |].
    rewrite Hid'. exact IH1.
Qed.

End HelperProperties.

(** * The version plugin *)

Section ModuleVersionProperties.
Variable version : string.
Variable JSON_stringify : string -> string.
Variable ConfigEnv : Type.

Lemma call_hooks_snoc (hooks : list (@Hook ConfigEnv)) h failed :
  call_hooks version JSON_stringify (hooks ++ [h]) failed = call_hook version JSON_stringify h (call_hooks version JSON_stringify hooks failed).
Proof. unfold call_hooks. rewrite foldl_app. reflexivity. Qed.

Lemma call_hooks_flag (hooks : list (@Hook ConfigEnv)) failed :
  fst (call_hooks version JSON_stringify hooks failed) = failed || existsb without_env hooks.
Proof.
  induction hooks as [| h hooks IH] using rev_ind.
  - simpl. rewrite orb_false_r. reflexivity.
  - rewrite call_hooks_snoc, existsb_app. simpl. rewrite orb_false_r.
    destruct h as [[e |] |]; simpl; rewrite ?IH, ?orb_false_r, ?orb_true_r; reflexivity.
Qed.

(** The failure flag is never cleared: [configResolved] warns exactly
    when some [config] call before it, of any plugin of the module, came
    without an environment, whatever [config] calls with an environment
    came after that one; and a [config] call with an environment returns
    the [define] entry for the version whether the flag is set or not. *)
Theorem version_warning_is_sticky (hooks : list (@Hook ConfigEnv)) (failed : bool) :
  fst (call_hooks version JSON_stringify hooks failed) = failed || existsb without_env hooks /\
  snd (call_hooks version JSON_stringify (hooks ++ [HookConfigResolved]) failed)
  = snd (call_hooks version JSON_stringify hooks failed)
      ++ (if failed || existsb without_env hooks then [version_warning] else []) /\
  (forall env,
      plugin_config version JSON_stringify ConfigEnv (Some env)
                    (fst (call_hooks version JSON_stringify hooks failed))
      = (fst (call_hooks version JSON_stringify hooks failed), Some [(version_key, JSON_stringify version)])).
Proof.
  split; [apply call_hooks_flag |].
  split; [| intros env; reflexivity].
  rewrite call_hooks_snoc. simpl. rewrite call_hooks_flag. reflexivity.
Qed.

End ModuleVersionProperties.

(** * The properties on the scene *)

(** The manager of the scene, after the whole session. *)
Lemma constructed_manager_well_formed_witness :
  ShotsManager_new (N := FloatNumber) Session.cameras Session.clips = Some Demo.fresh /\
  length (shots (perform_all Session.calls Demo.fresh)) = 3%nat /\
  valid_sequence (perform_all Session.calls Demo.fresh) /\
  -1 <= currentShotIndex (perform_all Session.calls Demo.fresh).
Proof.
  destruct (constructed_manager_well_formed (N := FloatNumber) Session.cameras Session.clips
              Demo.fresh Session.calls eq_refl) as (H1 & H2 & H3 & _).
  split; [reflexivity |]. split; [exact H1 |]. split; [exact H2 | exact H3].
Defined.

(** In the session [config] is called twice, both times while nothing
    plays: the update after the session returns. *)
Lemma update_never_faults_without_config_during_playback_witness :
  ShotsManager_new (N := FloatNumber) Session.cameras Session.clips = Some Demo.fresh /\
  config_only_when_idle Session.calls Demo.fresh = true /\
  exists s', update (N := FloatNumber) 1%float (perform_all Session.calls Demo.fresh) = Ok s'.
Proof.
  split; [reflexivity |]. split; [reflexivity |].
  exact (update_never_faults_without_config_during_playback (N := FloatNumber)
           Session.cameras Session.clips Demo.fresh Session.calls 1%float eq_refl eq_refl).
Defined.

(** Shot "a" finishes while the sequence ["a"; "b"] plays: "b" is
    started. *)
Lemma shot_finished_starts_next_witness :
  shots Demo.playing !! 0%nat = Some Session.startedA /\
  currentShotIndex (finishedListener 0 Demo.playing) = 1 /\
  isPlaying (finishedListener 0 Demo.playing) = true /\
  shots (finishedListener 0 Demo.playing)
  = <[1%nat := AnimatedCamera_play CallOnShotFinished Demo.shotB]> (shots Demo.playing).
Proof.
  destruct (shot_finished_starts_next (N := FloatNumber) Demo.playing [0; 1]%nat 0 1
              Session.startedA Demo.shotB eq_refl eq_refl eq_refl eq_refl eq_refl)
    as (H1 & H2 & H3 & _).
  split; [reflexivity |]. split; [exact H1 |]. split; [exact H2 | exact H3].
Defined.

(** One second into the two seconds of shot "a". *)
Lemma update_advances_current_shot_witness :
  exists s',
    update (N := FloatNumber) 1%float Demo.playing = Ok s' /\
    shots s' = <[0%nat := evaluate (N := FloatNumber) 1%float
                           (set_action_time (N := FloatNumber) 1%float Session.startedA)]>
                 (shots Demo.playing) /\
    currentShotIndex s' = 0 /\ isPlaying s' = true.
Proof.
  destruct (update_advances_current_shot (N := FloatNumber) Demo.playing [0; 1]%nat 1%float 0
              Session.startedA eq_refl eq_refl eq_refl eq_refl eq_refl eq_refl
              eq_refl eq_refl eq_refl)
    as (s' & H1 & H2 & H3 & H4 & _).
  exists s'. split; [exact H1 |]. split; [exact H2 |]. split; [exact H3 | exact H4].
Defined.

(** A scrub while the sequence plays, then two updates. *)
Lemma scrub_halts_playback_witness :
  isPlaying Demo.playing = true /\
  isPlaying (fst (scrub (N := FloatNumber) 2.5%float Demo.out Demo.playing)) = false /\
  perform_all [@CallUpdate FloatNumber 1%float; @CallUpdate FloatNumber 2%float]
              (fst (scrub (N := FloatNumber) 2.5%float Demo.out Demo.playing))
  = fst (scrub (N := FloatNumber) 2.5%float Demo.out Demo.playing).
Proof.
  destruct (scrub_halts_playback (N := FloatNumber) Demo.playing [0; 1]%nat 2.5%float Demo.out
              [1%float; 2%float] eq_refl ltac:(discriminate)) as (H1 & _ & H3).
  split; [reflexivity |]. split; [exact H1 | exact H3].
Defined.

(** A script at half a second is registered after [play]; the update
    that takes the playhead to one second calls it. *)
Lemma late_script_fires_on_next_update_witness :
  length (frameScripts Demo.playing) = 1%nat /\
  exists s',
    update (N := FloatNumber) 1%float
           (addFrameScript (N := FloatNumber) 12%float 9%nat None Demo.playing) = Ok s' /\
    fires 1 (trace s') = (fires 1 (trace Demo.playing) + 1)%nat /\
    script_called 1 s' = true.
Proof.
  split; [reflexivity |].
  exact (late_script_fires_on_next_update (N := FloatNumber) Demo.playing [0; 1]%nat 1%float 0
           Session.startedA 12%float 9%nat None eq_refl eq_refl eq_refl eq_refl eq_refl).
Defined.

(** An update of three seconds ends the two seconds of shot "a". *)
Lemma update_finishes_current_shot_witness :
  started Session.startedA /\
  exists s',
    update (N := FloatNumber) 3%float Demo.playing = Ok s' /\
    currentShotIndex s' = 1 /\ isPlaying s' = true /\
    shot_events (trace s') = shot_events (trace Demo.playing) ++ [@ShotFinish FloatNumber 0%nat].
Proof.
  assert (Hst : started Session.startedA) by (repeat split).
  split; [exact Hst |].
  destruct (update_finishes_current_shot (N := FloatNumber) Demo.playing [0; 1]%nat 3%float 0
              Session.startedA eq_refl eq_refl eq_refl eq_refl (or_introl Hst)
              eq_refl eq_refl)
    as (s' & H1 & _ & _ & _ & _ & _ & Hcases).
  exists s'. split; [exact H1 |].
  destruct Hcases as [(next & _ & H2 & H3 & _ & H4) | [(Hpast & _) | (Hpast & _)]].
  - split; [exact H2 |]. split; [exact H3 | exact H4].
  - exfalso. vm_compute in Hpast. apply Hpast. reflexivity.
  - exfalso. vm_compute in Hpast. apply Hpast. reflexivity.
Defined.

(** The one-shot loop, over two updates that each end the shot. *)
Lemma looping_sequence_never_completes_witness :
  loop Demo.looping = true /\
  isPlaying (perform_all [@CallUpdate FloatNumber 3%float; @CallUpdate FloatNumber 3%float]
                         Demo.looping) = true /\
  exists fin,
    shot_events (trace (perform_all [@CallUpdate FloatNumber 3%float;
                                     @CallUpdate FloatNumber 3%float] Demo.looping))
    = shot_events (trace Demo.looping) ++ map (@ShotFinish FloatNumber) fin.
Proof.
  destruct (looping_sequence_never_completes (N := FloatNumber) Demo.looping
              [3%float; 3%float] eq_refl) as (H1 & _ & H3).
  split; [reflexivity |]. split; [exact H1 | exact H3].
Defined.

(** [addFrameScript(48, cb, 24)] puts the script at 2 s. One [update(2.1)]
    from the playhead 0 copies the pose of the camera of "a", carries "a"
    to the end of its clip, starts "b" and calls the script once. *)
Lemma update_tick_witness :
  frameScripts Demo.playing
  = [@Build_FrameScript FloatNumber 2%float 5%nat (Some false)] /\
  exists (s' : @ShotsManager FloatNumber),
    update (N := FloatNumber) Demo.tick Demo.playing = Ok s' /\
    targetCamera s'
    = Some {| cam_name := "out"; position := position Demo.camA;
              quaternion := quaternion Demo.camA; fov := fov Demo.camA |} /\
    playheadTime s' = Demo.tick /\
    trace s'
    = [(0%float, @ProjectionUpdated FloatNumber
                   {| cam_name := "out"; position := position Demo.camA;
                      quaternion := quaternion Demo.camA; fov := fov Demo.camA |});
       (Demo.tick, @MixerUpdate FloatNumber 0 Demo.tick);
       (Demo.tick, @ShotFinish FloatNumber 0);
       (Demo.tick, @ScriptCall FloatNumber 0 5%nat (Some true))] /\
    shots s'
    = [evaluate (N := FloatNumber) 2%float
         (paused_at (N := FloatNumber) 2%float
            (AnimatedCamera_play CallOnShotFinished Demo.shotA));
       AnimatedCamera_play CallOnShotFinished Demo.shotB; Demo.shotStill] /\
    currentShotIndex s' = 1 /\ isPlaying s' = true /\
    frameScripts s' = [@Build_FrameScript FloatNumber 2%float 5%nat (Some true)].
Proof.
  split; [reflexivity |].
  destruct (update_tick (N := FloatNumber) Demo.playing [0; 1]%nat Demo.tick 0%nat
              (AnimatedCamera_play CallOnShotFinished Demo.shotA)
              eq_refl eq_refl eq_refl eq_refl)
    as (s' & evs & H1 & H2 & H3 & H4 & _ & H6 & _ & _ & _ & _ & _ & Hend).
  destruct (Hend eq_refl eq_refl 2%float (or_introl (conj eq_refl eq_refl)))
    as (next & Hnext & Hshots & Hevs & Hidx & Hplay).
  injection Hnext as <-. subst evs.
  exists s'.
  split; [exact H1 |]. split; [exact H2 |]. split; [exact H3 |]. split; [exact H4 |].
  split; [exact Hshots |]. split; [exact Hidx |]. split; [exact Hplay | exact H6].
Defined.

(** While "a" plays, [config(["b", "a"])] puts "b", which was not started,
    at the current index: ten updates of half a second leave every
    binding as it was; the manager still plays at index 0 and no shot has
    finished. *)
Lemma config_during_playback_witness :
  isPlaying Demo.playing = true /\
  currentShotIndex Demo.playing = 0 /\
  config_loop (shots Demo.playing) ["b"; "a"]%string = [1; 0]%nat /\
  shots Demo.playing !! 1%nat = Some Demo.shotB /\
  mixer_active Demo.shotB = false /\
  let s'' := perform_all (map (@CallUpdate FloatNumber) (replicate 10 0.5%float))
               (config ["b"; "a"]%string Demo.playing) in
  shots s'' = shots Demo.playing /\
  sequence s'' = Some [1; 0]%nat /\
  currentShotIndex s'' = 0 /\ isPlaying s'' = true /\
  playheadTime s'' = 5%float /\
  targetCamera s''
  = Some {| cam_name := "out"; position := position Demo.camB;
            quaternion := quaternion Demo.camB; fov := fov Demo.camB |} /\
  shot_events (trace s'') = [].
Proof.
  destruct (config_during_playback (N := FloatNumber) Demo.playing ["b"; "a"]%string)
    as [_ Hupdates].
  destruct (Hupdates eq_refl) as [Hvalid _].
  destruct (Hvalid 1%nat Demo.shotB eq_refl eq_refl) as [Hstall _].
  do 5 (split; [reflexivity |]).
  exact (Hstall eq_refl (replicate 10 0.5%float)).
Defined.

(** The time 2.5 on the timeline of a 2 s and a 3 s shot. *)
Lemma timeline_partition_witness :
  exists k shot,
    [0; 1]%nat !! k = Some shot /\
    in_interval (N := FloatNumber) (effectiveDurationOf (shots Demo.configured))
                [0; 1]%nat k shot 2.5%float = true /\
    selects (N := FloatNumber) Demo.configured 2.5%float Demo.out shot
            (PrimFloat.sub 2.5 (shot_start (N := FloatNumber)
                                  (effectiveDurationOf (shots Demo.configured))
                                  [0; 1]%nat k)).
Proof.
  assert (Hvalid : Forall (fun shot => is_Some (shots Demo.configured !! shot)) [0; 1]%nat).
  { constructor; [eexists; reflexivity |]. constructor; [eexists; reflexivity |]. constructor. }
  assert (Hdur : Forall (fun shot => PrimFloat.ltb
                           (effectiveDurationOf (N := FloatNumber) (shots Demo.configured) shot)
                           0 = false) [0; 1]%nat).
  { constructor; [reflexivity |]. constructor; [reflexivity |]. constructor. }
  destruct (timeline_partition Demo.configured [0; 1]%nat 2.5%float Demo.out
              eq_refl Hvalid Hdur eq_refl eq_refl)
    as (k & shot & H1 & H2 & _ & H3).
  exists k, shot. split; [exact H1 |]. split; [exact H2 | exact H3].
Defined.

(** The 2 s and the 3 s shot, with updates of 2.1 s and 3 s. The shot of
    one second stretched to 6.7 s is not carried to its end by an update
    of 6.7 s: 6.7 * (1 / 6.7) is the number before 1. *)
Lemma sequence_plays_to_completion_witness :
  Forall2 (carries_to_end (N := FloatNumber) (shots Demo.configured)) [0; 1]%nat
          [Demo.tick; 3%float] /\
  (let s' := perform_all (map (@CallUpdate FloatNumber) [Demo.tick; 3%float])
               (play (N := FloatNumber) (Some 7%nat) Demo.configured) in
   isPlaying s' = false /\ currentShotIndex s' = 2 /\
   shot_events (trace s')
   = [@ShotFinish FloatNumber 0%nat; ShotFinish 1%nat; CompletedCall 7%nat]) /\
  ~ carries_to_end (N := FloatNumber) [Demo.stretched] 0 Demo.long.
Proof.
  assert (H : Forall2 (carries_to_end (N := FloatNumber) (shots Demo.configured))
                [0; 1]%nat [Demo.tick; 3%float]).
  { constructor; [eexists; repeat split |].
    constructor; [eexists; repeat split | constructor]. }
  split; [exact H |]. split.
  - exact (sequence_plays_to_completion (N := FloatNumber) Demo.configured [0; 1]%nat
             (Some 7%nat) [Demo.tick; 3%float] eq_refl ltac:(discriminate) eq_refl H).
  - intros (a & Ha & _ & Hge). injection Ha as <-. vm_compute in Hge. discriminate Hge.
Defined.

(** The first socket opens, then closes; the timer fires and a second
    socket is created. *)
Lemma sync_reconnects_after_close_witness :
  sockets (run (fun _ : string => @None unit) [SocketOpens 0] (syncWithBlender unit false))
  = [OPEN] /\
  exists st1 handle,
    step (fun _ : string => @None unit) (SocketCloses 0)
         (run (fun _ : string => @None unit) [SocketOpens 0] (syncWithBlender unit false))
    = Some st1 /\
    pending st1 = [handle] /\
    exists st2,
      step (fun _ : string => @None unit) (TimerFires handle false) st1 = Some st2 /\
      sockets st2 = [CLOSED; CONNECTING].
Proof.
  split; [reflexivity |].
  destruct (sync_reconnects_after_close unit (fun _ => None) false [SocketOpens 0] 0 OPEN
              eq_refl eq_refl ltac:(discriminate))
    as (st1 & handle & H1 & H2 & H3 & (st2 & H4 & H5 & _) & _).
  exists st1, handle. split; [exact H1 |]. split; [exact H2 |].
  exists st2. split; [exact H4 |]. rewrite H5, H3. reflexivity.
Defined.
